(** * gdpy3: key stores (loaders) and the work-unit resolver

    A shallow embedding of [src/loaders/base.py] (the [BaseRawLoader] and
    [BasePckLoader] key stores) and of the digger cores exercised by
    [src/cores/tests/test_digger.py], together with the properties the
    specification states about them. *)

From Stdlib Require Import Ascii String.
From stdpp Require Import base option list gmap strings sorting.

Local Open Scope string_scope.

(** ** Regular expressions (the fragment of Python's [re] the sources use) *)

Module Re.

(** Abstract syntax.  [Grp n r] is [(?P<n>r)]; a non-capturing group
    [(?:r)] is just [r]. *)
Inductive regex : Type :=
| Eps                              (* empty pattern *)
| Chr (c : ascii)                  (* a literal character *)
| AnyChr                           (* .   any character but newline *)
| Digit                            (* \d, on ASCII text *)
| Seq (r1 r2 : regex)              (* r1r2 *)
| Alt (r1 r2 : regex)              (* r1|r2 *)
| Star (r : regex)                 (* r*  (greedy) *)
| Bol                              (* ^ *)
| Eol                              (* $ *)
| Grp (name : string) (r : regex). (* (?P<name>r) *)

(** A literal string, as produced by [re.escape]. *)
Fixpoint Lit (s : string) : regex :=
  match s with
  | EmptyString => Eps
  | String c s' => Seq (Chr c) (Lit s')
  end.

Definition Plus (r : regex) : regex := Seq r (Star r).

(** Named captures of a match, most recent binding first. *)
Definition captures : Type := list (string * string).

Fixpoint lookup_cap (n : string) (cs : captures) : option string :=
  match cs with
  | [] => None
  | (n', v) :: cs' => if String.eqb n n' then Some v else lookup_cap n cs'
  end.

Definition is_digit (c : ascii) : bool :=
  let n := nat_of_ascii c in (48 <=? n)%nat && (n <=? 57)%nat.

Definition newline : ascii := ascii_of_nat 10.

(** The text consumed between [s] and its suffix [s']. *)
Definition consumed (s s' : string) : string :=
  substring 0 (String.length s - String.length s') s.

(** Backtracking matcher in continuation-passing style: alternatives are
    tried left to right and [Star] is greedy, as in [re].  [total] is the
    length of the whole subject, so that [Bol] can tell position 0.  An
    iteration of [Star] must consume input. *)
Fixpoint run (r : regex) (total : nat) (s : string) (cs : captures)
         (k : string -> captures -> option captures) : option captures :=
  match r with
  | Eps => k s cs
  | Chr c =>
      match s with
      | String c' s' => if Ascii.eqb c c' then k s' cs else None
      | EmptyString => None
      end
  | AnyChr =>
      match s with
      | String c' s' => if Ascii.eqb c' newline then None else k s' cs
      | EmptyString => None
      end
  | Digit =>
      match s with
      | String c' s' => if is_digit c' then k s' cs else None
      | EmptyString => None
      end
  | Seq r1 r2 => run r1 total s cs (fun s' cs' => run r2 total s' cs' k)
  | Alt r1 r2 =>
      match run r1 total s cs k with
      | Some m => Some m
      | None => run r2 total s cs k
      end
  | Star r1 =>
      (fix loop (fuel : nat) (s : string) (cs : captures) : option captures :=
         match fuel with
         | O => k s cs
         | S fuel' =>
             match run r1 total s cs
                     (fun s' cs' =>
                        if (String.length s' <? String.length s)%nat
                        then loop fuel' s' cs' else None) with
             | Some m => Some m
             | None => k s cs
             end
         end) (String.length s) s cs
  | Bol => if (String.length s =? total)%nat then k s cs else None
  | Eol =>
      if String.eqb s "" || String.eqb s (String newline "")
      then k s cs else None
  | Grp n r1 =>
      run r1 total s cs (fun s' cs' => k s' ((n, consumed s s') :: cs'))
  end.

(** [re.match(pat, key)]: the pattern must match at the start of [key];
    the result holds the named captures. *)
Definition match_ (pat : regex) (key : string) : option captures :=
  run pat (String.length key) key [] (fun _ cs => Some cs).

Definition matches (pat : regex) (key : string) : bool :=
  match match_ pat key with Some _ => true | None => false end.

(** Names of the capture groups of a pattern, in group-number order. *)
Fixpoint names (r : regex) : list string :=
  match r with
  | Seq r1 r2 | Alt r1 r2 => names r1 ++ names r2
  | Star r1 => names r1
  | Grp n r1 => n :: names r1
  | _ => []
  end.

(** [m.groups()]: the captured texts in group-number order; a group that
    did not take part in the match is [None]. *)
Definition groups (pat : regex) (m : captures) : list (option string) :=
  map (fun n => lookup_cap n m) (names pat).

End Re.

Import Re.

(** ** Python string and path helpers *)

Module Py.

(** [k.startswith(p)] *)
Definition startswith (k p : string) : bool := String.prefix p k.

Definition sep : ascii := "/"%char.

(** [(p[:i], p[i:])] with [i = p.rfind('/') + 1]. *)
Fixpoint split_last_sep (p : string) : string * string :=
  match p with
  | EmptyString => ("", "")
  | String c p' =>
      let '(h, t) := split_last_sep p' in
      match h with
      | String _ _ => (String c h, t)
      | EmptyString =>
          if Ascii.eqb c sep then (String c "", t) else ("", String c t)
      end
  end.

Fixpoint all_sep (s : string) : bool :=
  match s with
  | EmptyString => true
  | String c s' => Ascii.eqb c sep && all_sep s'
  end.

(** [s.rstrip('/')] *)
Fixpoint rstrip_sep (s : string) : string :=
  match s with
  | EmptyString => ""
  | String c s' =>
      match rstrip_sep s' with
      | EmptyString => if Ascii.eqb c sep then "" else String c ""
      | t => String c t
      end
  end.

(** [os.path.dirname] (posixpath):
    [head = p[:i]; if head and head != '/'*len(head): head = head.rstrip('/')]. *)
Definition dirname (p : string) : string :=
  let head := fst (split_last_sep p) in
  if all_sep head then head else rstrip_sep head.

(** [os.path.basename]: [p[i:]]. *)
Definition basename (p : string) : string := snd (split_last_sep p).

(** Order of [str] comparison: lexicographic on characters. *)
Definition str_le (a b : string) : Prop := String.leb a b = true.

#[export] Instance str_le_dec a b : Decision (str_le a b).
Proof. unfold str_le. apply _. Defined.

(** [sorted(l)] on a list of [str]. *)
Definition sorted (l : list string) : list string := merge_sort str_le l.

(** [x in l] *)
Definition contains (x : string) (l : list string) : bool :=
  bool_decide (x ∈ l).

(** [i in k] on strings: [i] occurs in [k]. *)
Fixpoint occurs_in (i k : string) : bool :=
  String.prefix i k
  || match k with
     | EmptyString => false
     | String _ k' => occurs_in i k'
     end.

End Py.

Import Py.

(** ** Exceptions, logging and the state monad of the loaders *)

Inductive exn : Type :=
| KeyError (msg : string)
| IOError (msg : string)
| ValueError (msg : string)
| TypeError (msg : string)
| IndexError (msg : string)
| OtherError (msg : string).

(** The handlers of the loaders are all [except (IOError, ValueError)]. *)
Definition is_io_or_value (e : exn) : bool :=
  match e with
  | IOError _ | ValueError _ => true
  | _ => false
  end.

Inductive outcome (A : Type) : Type :=
| Ret (a : A)
| Raise (e : exn).
Arguments Ret {A} a.
Arguments Raise {A} e.

Inductive level : Type := DEBUG | WARNING | ERROR.

(** One record emitted through [log.debug] / [log.error]. *)
Definition logrec : Type := level * string.

(** Computations over a mutable object [S] that may raise. *)
Definition M (S A : Type) : Type := S -> outcome A * S.

Definition ret {S A} (a : A) : M S A := fun s => (Ret a, s).

Definition raise {S A} (e : exn) : M S A := fun s => (Raise e, s).

Definition bind {S A B} (m : M S A) (f : A -> M S B) : M S B :=
  fun s =>
    match m s with
    | (Ret a, s') => f a s'
    | (Raise e, s') => (Raise e, s')
    end.

Definition gets {S A} (f : S -> A) : M S A := fun s => (Ret (f s), s).

Definition modify {S} (f : S -> S) : M S unit := fun s => (Ret tt, f s).

(** [try: m  except (IOError, ValueError): h; raise] *)
Definition try_except_reraise {S A} (m : M S A) (h : M S unit) : M S A :=
  fun s =>
    match m s with
    | (Raise e, s') =>
        if is_io_or_value e then
          match h s' with
          | (Ret _, s'') => (Raise e, s'')
          | (Raise e', s'') => (Raise e', s'')
          end
        else (Raise e, s')
    | r => r
    end.

Declare Scope loader_scope.
Delimit Scope loader_scope with loader.
Notation "x <- m ;; k" := (bind m (fun x => k))
  (at level 100, m at next level, right associativity) : loader_scope.
Notation "m ;; k" := (bind m (fun _ => k))
  (at level 100, right associativity) : loader_scope.

(** [for pat in exclude: names = [k for k in names if not pat.match(k)]] *)
Definition exclude_by (pats : list regex) (l : list string) : list string :=
  foldl (fun l pat => List.filter (fun k => negb (matches pat k)) l) l pats.

(** [if key not in names: raise KeyError("%s is not in '%s'" % (key, path))];
    the test itself raises [TypeError] when [names] is [None]. *)
Definition check_member {S} (key : string) (names : option (list string))
           (p : string) : M S unit :=
  match names with
  | None => raise (TypeError "argument of type 'NoneType' is not iterable")
  | Some l =>
      if contains key l then ret tt
      else raise (KeyError (key ++ " is not in '" ++ p ++ "'"))
  end.

(** ** The loaders of [loaders/base.py] *)

(** The abstract methods of [BaseLoader], supplied by a concrete loader.
    [W] is the state of the outside world they act on (the file system, an
    open archive), [PathObj] the opened path object, [Val] what
    [_special_get] returns.  [pathobj_bool] is the truth value of a path
    object, [bool(pathobj)], which [close] tests: an object with a
    [__len__] or [__bool__] method can be false. *)
Class Backend (W PathObj Val : Type) : Type := {
  special_open : string -> W -> outcome PathObj * W;
  special_close : PathObj -> W -> outcome unit * W;
  special_getkeys : PathObj -> W -> outcome (list string) * W;
  special_get : option PathObj -> string -> W -> outcome Val * W;
  pathobj_bool : PathObj -> W -> bool
}.

(** A Python value held by a pck loader: an array-like object or [None]. *)
Inductive pyval (V : Type) : Type :=
| PyNone
| PyObj (v : V).
Arguments PyNone {V}.
Arguments PyObj {V} v.

Definition is_None {V} (x : pyval V) : bool :=
  match x with PyNone => true | PyObj _ => false end.

Section BaseLoader.
Context {W PathObj Val : Type} `{!Backend W PathObj Val}.

(** The slots of [BaseLoader], with the world and the log the methods
    act on. *)
Record Base : Type := mkBase {
  path : string;
  pathobj : option PathObj;
  world : W;
  logs : list logrec
}.

Definition set_pathobj (o : option PathObj) (b : Base) : Base :=
  mkBase (path b) o (world b) (logs b).
Definition set_world (w : W) (b : Base) : Base :=
  mkBase (path b) (pathobj b) w (logs b).

(** [log.debug(msg)] / [log.error(msg)] *)
Definition log (l : level) (msg : string) : M Base unit :=
  modify (fun b => mkBase (path b) (pathobj b) (world b) (logs b ++ [(l, msg)])).

(** A call of one of the abstract methods on the world. *)
Definition call {A} (f : W -> outcome A * W) : M Base A :=
  fun b => let '(r, w) := f (world b) in (r, set_world w b).

(** [if self.pathobj:]: [None] is false, any other object has the truth
    value [bool(pathobj)]. *)
Definition pathobj_true (b : Base) : bool :=
  match pathobj b with
  | Some po => pathobj_bool po (world b)
  | None => false
  end.

(** [BaseLoader.close] *)
Definition close : M Base unit :=
  (t <- gets pathobj_true ;;
   o <- gets pathobj ;;
   match o with
   | Some po =>
       if t then
         p <- gets path ;;
         log DEBUG ("Close path " ++ p ++ ".") ;;
         call (special_close po) ;;
         modify (set_pathobj None)
       else ret tt
   | None => ret tt
   end)%loader.

End BaseLoader.

Arguments Base W PathObj : clear implicits.

(** Run a computation on the inherited base part of a subclass object. *)
Definition lift {S B A} (getb : S -> B) (setb : B -> S -> S) (m : M B A) : M S A :=
  fun s => let '(r, b) := m (getb s) in (r, setb b s).

(** *** [BaseRawLoader] *)

Section RawLoader.
Context {W PathObj FileObj : Type} `{!Backend W PathObj FileObj}.
(** [fileobj.close()] *)
Variable fileobj_close : FileObj -> W -> outcome unit * W.

Record RawLoader : Type := mkRaw {
  raw_base : Base W PathObj;
  filenames : option (list string);
  filenames_exclude : list regex
}.

Definition raw_set_base (b : Base W PathObj) (s : RawLoader) : RawLoader :=
  mkRaw b (filenames s) (filenames_exclude s).
Definition set_filenames (f : option (list string)) (s : RawLoader) : RawLoader :=
  mkRaw (raw_base s) f (filenames_exclude s).

Definition raw_lift {A} (m : M (Base W PathObj) A) : M RawLoader A :=
  lift raw_base raw_set_base m.

(** [BaseRawLoader.update] *)
Definition raw_update : M RawLoader unit :=
  (raw_lift close ;;
   modify (set_filenames None) ;;
   p <- gets (fun s => path (raw_base s)) ;;
   try_except_reraise
     (raw_lift (log DEBUG ("Open path " ++ p ++ ".")) ;;
      po <- raw_lift (call (special_open p)) ;;
      raw_lift (log DEBUG ("Getting filenames from " ++ p ++ " ...")) ;;
      fs <- raw_lift (call (special_getkeys po)) ;;
      excl <- gets filenames_exclude ;;
      let fs := exclude_by excl fs in
      raw_lift (modify (set_pathobj (Some po))) ;;
      modify (set_filenames (Some (sorted fs))))
     (raw_lift (log ERROR ("Failed to read path " ++ p ++ "."))))%loader.

(** [BaseRawLoader.keys] *)
Definition raw_keys (s : RawLoader) : option (list string) := filenames s.

Definition raw_path (s : RawLoader) : string := path (raw_base s).

(** The three log records of [get]. *)
Definition msg_getting (key p : string) : logrec :=
  (DEBUG, "Getting file '" ++ key ++ "' from " ++ p ++ " ...").
Definition msg_failed (key p : string) : logrec :=
  (ERROR, "Failed to get '" ++ key ++ "' from " ++ p ++ "!").
Definition msg_closing (key p : string) : logrec :=
  (DEBUG, "Close file " ++ key ++ " in path " ++ p ++ ".").

Definition raw_log (mk : string -> logrec) : M RawLoader unit :=
  (p <- gets raw_path ;; raw_lift (log (fst (mk p)) (snd (mk p))))%loader.

(** [with self.get(key) as fileobj: body(fileobj)].

    [get] is a generator wrapped by [contextlib.contextmanager]: entering
    the [with] statement runs it up to its [yield]; leaving the block
    resumes it after the [yield], and an exception of the block is thrown
    into it at the [yield].  The [except (IOError, ValueError)] clause
    therefore covers the fetch and the block, and the [finally] clause
    closes [fileobj] whenever that name was bound. *)
Definition raw_with_get {B} (key : string) (body : FileObj -> M RawLoader B)
  : M RawLoader B :=
  fun s =>
    match check_member key (filenames s) (raw_path s) s with
    | (Raise e, s0) => (Raise e, s0)
    | (Ret _, s0) =>
        let failed := raw_log (msg_failed key) in
        let finally_ (f : FileObj) : M RawLoader unit :=
          (raw_log (msg_closing key) ;;
           raw_lift (call (fileobj_close f)))%loader in
        match (raw_log (msg_getting key) ;;
               po <- gets (fun s => pathobj (raw_base s)) ;;
               raw_lift (call (special_get po key)))%loader s0 with
        | (Raise e, s1) =>
            (* the fetch failed: [fileobj] is unbound, nothing to close *)
            try_except_reraise (raise e) failed s1
        | (Ret f, s1) =>
            match try_except_reraise (body f) failed s1 with
            | (r, s2) =>
                match finally_ f s2 with
                | (Ret _, s3) => (r, s3)
                | (Raise e', s3) => (Raise e', s3)
                end
            end
        end
    end.

(** The loader as the block of the [with] statement finds it: the debug
    record of the fetch logged and the world as [_special_get] left it. *)
Definition raw_entered (s : RawLoader) (key : string) (w1 : W) : RawLoader :=
  let b := raw_base s in
  raw_set_base (mkBase (path b) (pathobj b) w1 (logs b ++ [msg_getting key (path b)])) s.

End RawLoader.

Arguments RawLoader W PathObj : clear implicits.

(** *** [BasePckLoader] *)

Section PckLoader.
Context {W PathObj V : Type} `{!Backend W PathObj (pyval V)}.
(** [str(value)], used for the description. *)
Variable py_str : pyval V -> string.

Record PckLoader : Type := mkPck {
  pck_base : Base W PathObj;
  datakeys : option (list string);
  datagroups : option (list string);
  datagroups_exclude : list regex;
  desc : option string;
  description : option string;
  cache : gmap string (pyval V)
}.

Definition pck_set_base (b : Base W PathObj) (s : PckLoader) : PckLoader :=
  mkPck b (datakeys s) (datagroups s) (datagroups_exclude s) (desc s)
        (description s) (cache s).
Definition set_datakeys (k : option (list string)) (s : PckLoader) : PckLoader :=
  mkPck (pck_base s) k (datagroups s) (datagroups_exclude s) (desc s)
        (description s) (cache s).
Definition set_datagroups (g : option (list string)) (s : PckLoader) : PckLoader :=
  mkPck (pck_base s) (datakeys s) g (datagroups_exclude s) (desc s)
        (description s) (cache s).
Definition set_desc (d : option string) (s : PckLoader) : PckLoader :=
  mkPck (pck_base s) (datakeys s) (datagroups s) (datagroups_exclude s) d
        (description s) (cache s).
Definition set_description (d : option string) (s : PckLoader) : PckLoader :=
  mkPck (pck_base s) (datakeys s) (datagroups s) (datagroups_exclude s)
        (desc s) d (cache s).
Definition set_cache (c : gmap string (pyval V)) (s : PckLoader) : PckLoader :=
  mkPck (pck_base s) (datakeys s) (datagroups s) (datagroups_exclude s)
        (desc s) (description s) c.

Definition pck_lift {A} (m : M (Base W PathObj) A) : M PckLoader A :=
  lift pck_base pck_set_base m.

Definition pck_path (s : PckLoader) : string := path (pck_base s).

(** [BasePckLoader._special_getgroups]:
    [set(os.path.dirname(k) for k in self.datakeys)] *)
Definition special_getgroups (keys : list string) : gset string :=
  list_to_set (map dirname keys).

(** [for grp in exc: keys = tuple(k for k in keys if not k.startswith(grp))] *)
Definition drop_groups (exc : list string) (keys : list string) : list string :=
  foldl (fun ks grp => List.filter (fun k => negb (startswith k grp)) ks) keys exc.

(** The groups of the listed keys that an exclusion pattern matches. *)
Definition excluded_groups (excl : list regex) (listed : list string) : list string :=
  List.filter (fun g => existsb (fun pat => matches pat g) excl)
              (elements (special_getgroups listed ∖ {[ "" ]})).

(** A key survives when it starts with the name of no excluded group. *)
Definition survives (excl : list regex) (listed : list string) (k : string) : bool :=
  forallb (fun g => negb (startswith k g)) (excluded_groups excl listed).

(** The object as [__init__] leaves it just before it calls [update]. *)
Definition pck_new (p : string) (excl : list regex) (w : W) : PckLoader :=
  mkPck (mkBase p None w []) None None excl None None ∅.

(** [BasePckLoader.update] *)
Definition pck_update : M PckLoader unit :=
  (pck_lift close ;;
   modify (fun s => set_datagroups None (set_datakeys None s)) ;;
   modify (fun s => set_desc None (set_description None s)) ;;
   p <- gets pck_path ;;
   try_except_reraise
     (pck_lift (log DEBUG ("Open path " ++ p ++ ".")) ;;
      po <- pck_lift (call (special_open p)) ;;
      pck_lift (modify (set_pathobj (Some po))) ;;
      pck_lift (log DEBUG ("Getting datakeys from " ++ p ++ " ...")) ;;
      ks <- pck_lift (call (special_getkeys po)) ;;
      modify (set_datakeys (Some ks)) ;;
      pck_lift (log DEBUG ("Getting datagroups from " ++ p ++ " ...")) ;;
      let all_datagroups := special_getgroups ks ∖ {[ "" ]} in
      excl <- gets datagroups_exclude ;;
      let dgs := exclude_by excl (elements all_datagroups) in
      modify (set_datagroups (Some (sorted dgs))) ;;
      let exc_datagroups := all_datagroups ∖ list_to_set dgs in
      let ks := drop_groups (elements exc_datagroups) ks in
      modify (set_datakeys (Some ks)) ;;
      pck_lift (log DEBUG ("Getting description of " ++ p ++ " ...")) ;;
      (if contains "description" ks
       then v <- pck_lift (call (special_get (Some po) "description")) ;;
            modify (set_desc (Some (py_str v)))
       else modify (set_desc None)) ;;
      modify (fun s => set_description (desc s) s))
     (pck_lift (log ERROR ("Failed to read path " ++ p ++ "."))) ;;
   modify (set_cache ∅))%loader.

(** [BasePckLoader.keys] and [BasePckLoader.groups] *)
Definition pck_keys (s : PckLoader) : option (list string) := datakeys s.
Definition pck_groups (s : PckLoader) : option (list string) := datagroups s.

(** [BasePckLoader.get] *)
Definition pck_get (key : string) : M PckLoader (pyval V) :=
  (p <- gets pck_path ;;
   dk <- gets datakeys ;;
   check_member key dk p ;;
   c <- gets cache ;;
   match c !! key with
   | Some v => ret v
   | None =>
       try_except_reraise
         (pck_lift (log DEBUG ("Getting key '" ++ key ++ "' from " ++ p ++ " ...")) ;;
          po <- gets (fun s => pathobj (pck_base s)) ;;
          value <- pck_lift (call (special_get po key)) ;;
          modify (fun s => set_cache (<[key := value]> (cache s)) s) ;;
          ret value)
         (pck_lift (log ERROR ("Failed to get '" ++ key ++ "' from " ++ p ++ "!")))
   end)%loader.

(** [[self.cache[k] if k in self.cache else None for k in keys]] *)
Definition cached_or_None (c : gmap string (pyval V)) (keys : list string)
  : list (pyval V) :=
  map (fun k => default PyNone (c !! k)) keys.

(** [[i for i, k in enumerate(result) if k is None]] *)
Fixpoint none_indices (i : nat) (result : list (pyval V)) : list nat :=
  match result with
  | [] => []
  | v :: rest =>
      if is_None v then i :: none_indices (S i) rest
      else none_indices (S i) rest
  end.

(** The [for i in idxtodo] loop of [get_many].  Besides the outcome it
    returns the local [key], which the handler of the enclosing [try]
    reads. *)
Fixpoint get_many_loop (keys : list string) (idxtodo : list nat)
         (result : list (pyval V)) (key : option string) (s : PckLoader)
  : outcome (list (pyval V)) * option string * PckLoader :=
  match idxtodo with
  | [] => (Ret result, key, s)
  | i :: rest =>
      match keys !! i with
      | None => (Raise (IndexError "tuple index out of range"), key, s)
      | Some k =>
          let p := pck_path s in
          match (pck_lift (log DEBUG ("Getting key '" ++ k ++ "' from " ++ p ++ " ...")) ;;
                 po <- gets (fun s => pathobj (pck_base s)) ;;
                 pck_lift (call (special_get po k)))%loader s with
          | (Raise e, s1) => (Raise e, Some k, s1)
          | (Ret value, s1) =>
              get_many_loop keys rest (<[i := value]> result) (Some k)
                            (set_cache (<[k := value]> (cache s1)) s1)
          end
      end
  end.

(** [BasePckLoader.get_many] *)
Definition pck_get_many (keys : list string) : M PckLoader (list (pyval V)) :=
  fun s =>
    let result := cached_or_None (cache s) keys in
    let idxtodo := none_indices 0 result in
    if (length idxtodo =? 0)%nat then (Ret result, s)
    else
      match get_many_loop keys idxtodo result None s with
      | (Raise e, key, s1) =>
          if is_io_or_value e then
            let p := pck_path s1 in
            let msg := match key with
                       | Some k => "Failed to get '" ++ k ++ "' from " ++ p ++ "!"
                       | None => "Failed to open '" ++ p ++ "'!"
                       end in
            match pck_lift (log ERROR msg) s1 with
            | (_, s2) => (Raise e, s2)
            end
          else (Raise e, s1)
      | (Ret result', _, s1) => (Ret result', s1)
      end.

(** [BaseLoader.refind]: [filter] over [None] raises [TypeError]. *)
Definition pck_refind (pat : regex) : M PckLoader (list string) :=
  (dk <- gets datakeys ;;
   match dk with
   | None => raise (TypeError "'NoneType' object is not iterable")
   | Some ks => ret (List.filter (matches pat) ks)
   end)%loader.

(** [BasePckLoader.get_by_group]; the pattern is
    ['^%s/' % re.escape(group)], the result a dict in which a later pair
    replaces an earlier one with the same basename. *)
Definition pck_get_by_group (group : string)
  : M PckLoader (gmap string (pyval V)) :=
  (allkeys <- pck_refind (Seq Bol (Seq (Lit group) (Chr sep))) ;;
   let basekeys := map basename allkeys in
   results <- pck_get_many allkeys ;;
   ret (list_to_map (reverse (zip basekeys results))))%loader.

(** [BaseLoader.find] *)
Definition pck_find (items : list string) : M PckLoader (list string) :=
  (dk <- gets datakeys ;;
   match dk with
   | None => raise (TypeError "'NoneType' object is not iterable")
   | Some ks => ret (foldl (fun r i => List.filter (occurs_in i) r) ks items)
   end)%loader.

(** The loop of [BaseLoader.all_in_loader]. *)
Fixpoint all_in_loop (loaderkeys : option (list string)) (items : list string)
         (result : bool) : M PckLoader bool :=
  match items with
  | [] => ret result
  | i :: rest =>
      match loaderkeys with
      | None => raise (TypeError "argument of type 'NoneType' is not iterable")
      | Some ks =>
          if contains i ks then all_in_loop loaderkeys rest result
          else (p <- gets pck_path ;;
                pck_lift (log WARNING ("Key '" ++ i ++ "' not in " ++ p ++ "!")) ;;
                all_in_loop loaderkeys rest false)%loader
      end
  end.

(** [BaseLoader.all_in_loader] *)
Definition pck_all_in_loader (items : list string) : M PckLoader bool :=
  (dk <- gets datakeys ;; all_in_loop dk items true)%loader.

(** [BasePckLoader.clear_cache] *)
Definition pck_clear_cache : M PckLoader unit := modify (set_cache ∅).

(** [BaseLoader.__contains__] *)
Definition pck_contains (item : string) : M PckLoader bool :=
  (dk <- gets datakeys ;;
   match dk with
   | None => raise (TypeError "argument of type 'NoneType' is not iterable")
   | Some ks => ret (contains item ks)
   end)%loader.

(** The loader after the debug record of a fetch of [key] and the call of
    [_special_get], which left the world in [w']. *)
Definition logged_fetch (s : PckLoader) (key : string) (w' : W) : PckLoader :=
  let b := pck_base s in
  pck_set_base
    (mkBase (path b) (pathobj b) w'
            (logs b ++ [(DEBUG, "Getting key '" ++ key ++ "' from " ++ path b ++ " ...")]))
    s.

(** The loader right after [key] was fetched with value [v], leaving the
    world in [w']: one debug record, the new world, the value cached. *)
Definition after_fetch (s : PckLoader) (key : string) (v : pyval V) (w' : W)
  : PckLoader :=
  let b := pck_base s in
  mkPck (mkBase (path b) (pathobj b) w'
                (logs b ++ [(DEBUG, "Getting key '" ++ key ++ "' from " ++ path b ++ " ...")]))
        (datakeys s) (datagroups s) (datagroups_exclude s) (desc s) (description s)
        (<[key := v]> (cache s)).

(** The operations of a pck loader (pickling and [repr] apart). *)
Inductive pck_op : Type :=
| OpKeys
| OpGroups
| OpGet (key : string)
| OpGetMany (keys : list string)
| OpGetByGroup (group : string)
| OpFind (items : list string)
| OpRefind (pat : regex)
| OpContains (item : string)
| OpAllInLoader (items : list string)
| OpClose
| OpUpdate
| OpClearCache.

(** The loader after one operation, whatever it returned or raised. *)
Definition run_op (o : pck_op) (s : PckLoader) : PckLoader :=
  match o with
  | OpKeys | OpGroups => s
  | OpGet k => snd (pck_get k s)
  | OpGetMany ks => snd (pck_get_many ks s)
  | OpGetByGroup g => snd (pck_get_by_group g s)
  | OpFind items => snd (pck_find items s)
  | OpRefind pat => snd (pck_refind pat s)
  | OpContains k => snd (pck_contains k s)
  | OpAllInLoader items => snd (pck_all_in_loader items s)
  | OpClose => snd (pck_lift close s)
  | OpUpdate => snd (pck_update s)
  | OpClearCache => snd (pck_clear_cache s)
  end.

(** The loader after a sequence of operations. *)
Definition run_ops (ops : list pck_op) (s : PckLoader) : PckLoader :=
  foldl (fun st o => run_op o st) s ops.

(** The operations that reset the cache: [self.cache = {}]. *)
Definition resets_cache (o : pck_op) : bool :=
  match o with
  | OpUpdate | OpClearCache => true
  | _ => false
  end.

End PckLoader.

Arguments PckLoader W PathObj V : clear implicits.

(** ** The resolver: from the keys of a key store to work units *)

Module Resolver.

(** Modelled from the spec: the data model of the resolver (pattern spec,
    work unit) and [resolve].  The digger base class, whose
    [generate_cores] the tests call, is not among the sources; the field
    comments give the attribute names the diggers of the sources use. *)
Inductive cardinality : Type := SINGLE | MULTI.

(** The completeness requirement: the sentinel ['ALL'] or an explicit
    list of regular expressions ([neededpattern]). *)
Inductive completeness : Type :=
| ALL
| Needed (pats : list regex).

(** An auxiliary key template: literal text with places where the group
    value is substituted.  A literal key name is a single [Text]. *)
Inductive segment : Type :=
| Text (s : string)
| GroupValue.

Definition template : Type := list segment.

Definition literal (s : string) : template := [Text s].

Definition instantiate (g : string) (t : template) : string :=
  String.concat "" (map (fun x => match x with Text s => s | GroupValue => g end) t).

(** ['%s' % x] for a captured group. *)
Definition fmt_s (x : option string) : string := default "None" x.

(** Modelled from the spec: the group of a work unit, "the
    grouping-dimension tuple/value shared by all its keys": the value of
    the grouping dimension when there is one dimension, the tuple of the
    values otherwise.  A capture that took no part in a match has no
    value. *)
Inductive GroupId : Type :=
| GValue (v : option string)
| GTuple (vs : list (option string)).

#[export] Instance GroupId_eq_dec : EqDecision GroupId.
Proof. solve_decision. Defined.

(** A group given by the text of its one grouping value. *)
Definition gvalue (s : string) : GroupId := GValue (Some s).
Coercion gvalue : string >-> GroupId.

(** The text substituted for the group in a template.  For a tuple the
    specification leaves the text open; its values are joined by the
    separator of keys. *)
Definition group_text (g : GroupId) : string :=
  match g with
  | GValue v => fmt_s v
  | GTuple vs => String.concat "/" (map fmt_s vs)
  end.

(** The labeler: the regular expression applied to the first primary key
    ([numpattern]) and the rule that turns its captures, in group-number
    order, into the label ([_set_fignum]). *)
Record Labeler : Type := mkLabeler {
  numpattern : regex;
  fignum : list (option string) -> string
}.

(** The rule the specification gives: join the captures with a separator. *)
Definition join_captures (sepr : string) (caps : list (option string)) : string :=
  String.concat sepr (map fmt_s caps).

Record PatternSpec : Type := mkSpec {
  patterns : list regex;          (* itemspattern *)
  completeness_of : completeness; (* neededpattern *)
  auxiliary : list template;      (* commonpattern *)
  labeler : Labeler
}.

(** [cardinality] is derived from [len(patterns)]; an empty pattern list
    is malformed. *)
Definition cardinality_of (spec : PatternSpec) : option cardinality :=
  match patterns spec with
  | [] => None
  | [_] => Some SINGLE
  | _ :: _ :: _ => Some MULTI
  end.

Record WorkUnit : Type := mkUnit {
  group : GroupId;
  primaryKeys : list string;    (* srckeys *)
  auxiliaryKeys : list string;  (* extrakeys *)
  label : string                (* fignum *)
}.

#[export] Instance WorkUnit_eq_dec : EqDecision WorkUnit.
Proof. solve_decision. Defined.

Inductive resolution : Type :=
| Resolved (units : list WorkUnit)
| ConfigError.

(** Keep the first element for every value of [f]. *)
Fixpoint nub_on {A B} `{EqDecision B} (f : A -> B) (l : list A) : list A :=
  match l with
  | [] => []
  | x :: l' => x :: List.filter (fun y => negb (bool_decide (f y = f x))) (nub_on f l')
  end.

(** The pattern entries in which the capture [d] appears. *)
Definition entries_with (d : string) (pats : list regex) : list regex :=
  List.filter (fun p => bool_decide (d ∈ names p)) pats.

(** [d] appears in more than one pattern entry. *)
Definition shared (pats : list regex) (d : string) : bool :=
  (2 <=? length (entries_with d pats))%nat.

(** Modelled from the spec: the grouping dimensions (section 3, the
    invariant of [PatternSpec]; the digger base class that decides them is
    not among the sources).  With more than one pattern entry they are the
    named captures that appear in more than one entry, here in the order
    in which the entries first name them.  With one entry no capture is
    shared between entries; for that case the first scenario of the
    specification reports the value of the first capture of the pattern
    as the group, so the first capture is the one grouping dimension. *)
Definition group_dims (pats : list regex) : list string :=
  match pats with
  | [p0] => option_list (head (names p0))
  | _ => List.filter (shared pats) (nub_on id (flat_map names pats))
  end.

(** Modelled from the spec: the variant dimensions, the named captures of
    [patterns[0]] that are no grouping dimension (with more than one
    entry: those appearing only in [patterns[0]]). *)
Definition variant_dims (pats : list regex) : list string :=
  match pats with
  | [] => []
  | p0 :: _ =>
      List.filter (fun d => negb (bool_decide (d ∈ group_dims pats))) (names p0)
  end.

(** The values a match gives to a list of dimensions. *)
Definition values_of (dims : list string) (m : captures) : list (option string) :=
  map (fun d => lookup_cap d m) dims.

(** Modelled from the spec: the group a match belongs to, the value of
    the grouping dimension or the tuple of the values of the grouping
    dimensions. *)
Definition group_of (gd : list string) (m : captures) : GroupId :=
  match gd with
  | [d] => GValue (lookup_cap d m)
  | _ => GTuple (values_of gd m)
  end.

(** Modelled from the spec: what step 1 records for a match of the primary
    pattern (the matching of the digger base class is not among the
    sources): the key, its grouping values and its variant values. *)
Record Primary : Type := mkPrimary {
  pkey : string;
  pgroup : GroupId;
  pvariant : list (option string)
}.

Definition primary_match (gd vd : list string) (p0 : regex) (key : string)
  : option Primary :=
  match match_ p0 key with
  | Some m => Some (mkPrimary key (group_of gd m) (values_of vd m))
  | None => None
  end.

(** Modelled from the spec: step 1 of the resolver, the matches of
    [patterns[0]] over the enumeration of keys. *)
Definition primaries (gd vd : list string) (p0 : regex) (keys : list string)
  : list Primary :=
  omap (primary_match gd vd p0) keys.

(** [key] matches [p] and the values of its grouping dimensions are those
    of group [g]. *)
Definition in_group (gd : list string) (p : regex) (g : GroupId) (key : string)
  : bool :=
  match match_ p key with
  | Some m => bool_decide (group_of gd m = g)
  | None => false
  end.

(** Modelled from the spec: step 3a of the resolver, every match of a
    companion pattern inside group [g], without duplicates and sorted. *)
Definition companions (gd : list string) (p : regex) (g : GroupId)
           (keys : list string) : list string :=
  sorted (nub_on id (List.filter (in_group gd p g) keys)).

(** Modelled from the spec: step 3b of the resolver, the completeness rule
    on the primary key and the companion matches per companion pattern. *)
Definition complete (c : completeness) (primary : string)
           (comps : list (list string)) : bool :=
  match c with
  | ALL => forallb (fun l => negb (bool_decide (l = []))) comps
  | Needed pats =>
      forallb (fun r => existsb (matches r) (primary :: concat comps)) pats
  end.

(** Modelled from the spec: step 5 of the resolver, the label of a unit
    from its first primary key, ["null"] when the labeler does not match. *)
Definition label_of (lab : Labeler) (key : string) : string :=
  match match_ (numpattern lab) key with
  | Some m => fignum lab (groups (numpattern lab) m)
  | None => "null"
  end.

(** Modelled from the spec: steps 4 and 5 of the resolver, the unit bound to
    group [g] and primary keys [pk]. *)
Definition mk_unit (spec : PatternSpec) (g : GroupId) (pk : list string) : WorkUnit :=
  mkUnit g pk (map (instantiate (group_text g)) (auxiliary spec))
         (label_of (labeler spec) (hd "" pk)).

(** Modelled from the spec: steps 2 and 3 of the resolver for one group.
    With a single pattern every primary match of the group stands alone;
    with companions, each distinct variant of the group is completed by the
    companion matches and kept when the completeness rule holds. *)
Definition units_for_group (spec : PatternSpec) (gd : list string)
           (comps : list regex) (keys : list string) (ms : list Primary)
           (g : GroupId) : list WorkUnit :=
  let mine := List.filter (fun m => bool_decide (pgroup m = g)) ms in
  match comps with
  | [] => map (fun m => mk_unit spec g [pkey m]) mine
  | _ :: _ =>
      let cs := map (fun p => companions gd p g keys) comps in
      flat_map (fun m =>
                  if complete (completeness_of spec) (pkey m) cs
                  then [mk_unit spec g (pkey m :: concat cs)] else [])
               (nub_on pvariant mine)
  end.

(** Modelled from the spec: [resolve], the public contract of the
    resolver (the [generate_cores] class method of the digger base class,
    which is not among the sources).  [keys] is the enumeration
    [keyStore.keys()].  Units come group by group, in the order the groups
    first appear among the primary matches (step 6). *)
Definition resolve (keys : list string) (spec : PatternSpec) : resolution :=
  match patterns spec with
  | [] => ConfigError
  | p0 :: comps =>
      let gd := group_dims (patterns spec) in
      let ms := primaries gd (variant_dims (patterns spec)) p0 keys in
      Resolved (flat_map (units_for_group spec gd comps keys ms)
                         (nub_on id (map pgroup ms)))
  end.

(** The unit a primary match yields when it stands alone. *)
Definition unit_of_match (spec : PatternSpec) (m : Primary) : WorkUnit :=
  mk_unit spec (pgroup m) [pkey m].

(** The units of group [g] among [us]. *)
Definition units_of_group (g : GroupId) (us : list WorkUnit) : list WorkUnit :=
  List.filter (fun u => bool_decide (group u = g)) us.

(** *** What the specification says of groups and variants

    The statements about clusters are phrased with the following
    relations on matches, which follow the wording of section 3 and do not
    go through the functions [resolve] is made of. *)

(** Modelled from the spec: "every named capture group that appears in
    more than one pattern entry is a grouping dimension". *)
Definition grouping_dimension (pats : list regex) (d : string) : Prop :=
  exists i j p q,
    i <> j /\ pats !! i = Some p /\ pats !! j = Some q
    /\ d ∈ names p /\ d ∈ names q.

(** Modelled from the spec: "named capture groups appearing only in
    [patterns[0]] are variant dimensions". *)
Definition variant_dimension (pats : list regex) (d : string) : Prop :=
  (exists p0, pats !! 0%nat = Some p0 /\ d ∈ names p0)
  /\ forall i p, pats !! i = Some p -> i <> 0%nat -> d ∉ names p.

(** Modelled from the spec: "the tuple of its values identifies a
    cluster": two matches lie in the same cluster when every grouping
    dimension has the same value in both. *)
Definition same_cluster (pats : list regex) (m m' : captures) : Prop :=
  forall d, grouping_dimension pats d -> lookup_cap d m = lookup_cap d m'.

(** Two matches of the primary pattern are the same variant when every
    variant dimension has the same value in both. *)
Definition same_variant (pats : list regex) (m m' : captures) : Prop :=
  forall d, variant_dimension pats d -> lookup_cap d m = lookup_cap d m'.

(** [key] is a match of [p] inside the cluster of the match [m0]. *)
Definition match_in_cluster (pats : list regex) (m0 : captures) (p : regex)
           (key : string) : Prop :=
  exists m, match_ p key = Some m /\ same_cluster pats m0 m.

(** The match of the primary pattern on the first primary key of a unit. *)
Definition primary_capture (p0 : regex) (u : WorkUnit) : option captures :=
  match_ p0 (hd "" (primaryKeys u)).

(** The group of a unit and its variant values, the latter read off the
    match of the primary pattern on its first primary key. *)
Definition unit_key (vd : list string) (p0 : regex) (u : WorkUnit)
  : GroupId * option (list (option string)) :=
  (group u, values_of vd <$> primary_capture p0 u).

(** *** The specs of [cores/tests/test_digger.py] *)

Definition seqs (rs : list regex) : regex := foldr Seq Eps rs.

Definition alt_ie : regex := Alt (Lit "i") (Lit "e").
Definition alt_pm : regex := Alt (Lit "p") (Lit "m").
Definition alt_pa : regex := Alt (Lit "p") (Lit "a").

(** [ImpDigger1]:
    itemspattern ['^(?P<sect>da)/(?P<spc>(?:i|e))-(?P<fld>(?:p|m))-f$'],
    commonpattern ['g/c', 'his/n'],
    neededpattern ['da/(?:i|e)-(?:p|m)-f', 'g/c'],
    numpattern 'da/(?P<spc>(?:i|e))-(?P<fld>(?:p|m))-f',
    fignum '%s_%s_f' % m.groups(). *)
Definition ImpDigger1 : PatternSpec :=
  mkSpec
    [seqs [Bol; Grp "sect" (Lit "da"); Lit "/"; Grp "spc" alt_ie; Lit "-";
           Grp "fld" alt_pm; Lit "-f"; Eol]]
    (Needed [seqs [Lit "da/"; alt_ie; Lit "-"; alt_pm; Lit "-f"]; Lit "g/c"])
    [literal "g/c"; literal "his/n"]
    (mkLabeler
       (seqs [Lit "da/"; Grp "spc" alt_ie; Lit "-"; Grp "fld" alt_pm; Lit "-f"])
       (fun gs => match gs with
                  | [a; b] => fmt_s a ++ "_" ++ fmt_s b ++ "_f"
                  | _ => "null"
                  end)).

(** [ImpDigger2]:
    itemspattern ['^(?P<sect>his)/(?P<spc>(?:i|e))$', '^(?P<sect>his)/n'],
    commonpattern ['g/c'], neededpattern 'ALL',
    numpattern 'his/(?P<spc>(?:i|e))', fignum '%s' % m.groups(). *)
Definition ImpDigger2 : PatternSpec :=
  mkSpec
    [seqs [Bol; Grp "sect" (Lit "his"); Lit "/"; Grp "spc" alt_ie; Eol];
     seqs [Bol; Grp "sect" (Lit "his"); Lit "/n"]]
    ALL
    [literal "g/c"]
    (mkLabeler
       (seqs [Lit "his/"; Grp "spc" alt_ie])
       (fun gs => match gs with [a] => fmt_s a | _ => "null" end)).

(** [ImpDigger3]:
    itemspattern ['^(?P<sect>s\d)/(?P<fld>(?:p|a))$', '^(?P<sect>s\d)/(?:x|y)$'],
    commonpattern ['g/c'],
    neededpattern ['^(?P<sect>s\d)/(?P<fld>(?:p|a))$',
                   '^(?P<sect>s\d)/x$', '^(?P<sect>s\d)/y$'],
    numpattern 's\d/(?P<fld>(?:p|a))', fignum '%s' % m.groupdict()['fld']. *)
Definition sect_sd : regex := Grp "sect" (Seq (Chr "s") Digit).

Definition ImpDigger3 : PatternSpec :=
  mkSpec
    [seqs [Bol; sect_sd; Lit "/"; Grp "fld" alt_pa; Eol];
     seqs [Bol; sect_sd; Lit "/"; Alt (Lit "x") (Lit "y"); Eol]]
    (Needed [seqs [Bol; sect_sd; Lit "/"; Grp "fld" alt_pa; Eol];
             seqs [Bol; sect_sd; Lit "/x"; Eol];
             seqs [Bol; sect_sd; Lit "/y"; Eol]])
    [literal "g/c"]
    (mkLabeler
       (seqs [Chr "s"; Digit; Lit "/"; Grp "fld" alt_pa])
       (fun gs => match gs with [a] => fmt_s a | _ => "null" end)).

(** The key enumerations of the three scenarios. *)
Definition keys1 : list string :=
  ["da/i-p-f"; "da/i-m-f"; "da/e-p-f"; "da/e-m-f"; "g/c"; "his/n"].
Definition keys2 : list string := ["his/i"; "his/e"; "his/n"; "g/c"].
Definition keys3 : list string :=
  ["s0/p"; "s0/a"; "s0/x"; "s0/y"; "s2/p"; "s2/a"; "s2/x"; "s2/y"; "g/c"].

(** The units the three scenarios expect. *)
Definition units1 : list WorkUnit :=
  [mkUnit "da" ["da/i-p-f"] ["g/c"; "his/n"] "i_p_f";
   mkUnit "da" ["da/i-m-f"] ["g/c"; "his/n"] "i_m_f";
   mkUnit "da" ["da/e-p-f"] ["g/c"; "his/n"] "e_p_f";
   mkUnit "da" ["da/e-m-f"] ["g/c"; "his/n"] "e_m_f"].

Definition units2 : list WorkUnit :=
  [mkUnit "his" ["his/i"; "his/n"] ["g/c"] "i";
   mkUnit "his" ["his/e"; "his/n"] ["g/c"] "e"].

Definition units3 : list WorkUnit :=
  [mkUnit "s0" ["s0/p"; "s0/x"; "s0/y"] ["g/c"] "p";
   mkUnit "s0" ["s0/a"; "s0/x"; "s0/y"] ["g/c"] "a";
   mkUnit "s2" ["s2/p"; "s2/x"; "s2/y"] ["g/c"] "p";
   mkUnit "s2" ["s2/a"; "s2/x"; "s2/y"] ["g/c"] "a"].

(** The third scenario with the [y] key of group [s0] missing. *)
Definition keys3_no_y : list string :=
  ["s0/p"; "s0/a"; "s0/x"; "s2/p"; "s2/a"; "s2/x"; "s2/y"; "g/c"].

(** A spec whose shared capture is not the first capture of its primary
    pattern: patterns ['^(?P<v>(?:a|b))-(?P<g>\d)$', '^(?P<g>\d)/n$'],
    completeness ['ALL'], no auxiliary keys, the label the capture [v].  On
    [keys_vg] group [1] has both variants and its companion, group [2] has
    a variant and no companion. *)
Definition pat_vg : regex :=
  seqs [Bol; Grp "v" (Alt (Lit "a") (Lit "b")); Lit "-"; Grp "g" Digit; Eol].
Definition pat_gn : regex := seqs [Bol; Grp "g" Digit; Lit "/n"; Eol].

Definition spec_vg : PatternSpec :=
  mkSpec [pat_vg; pat_gn] ALL []
         (mkLabeler (Grp "v" (Alt (Lit "a") (Lit "b")))
                    (fun gs => match gs with [a] => fmt_s a | _ => "null" end)).

Definition keys_vg : list string := ["a-1"; "b-2"; "b-1"; "1/n"].

Definition units_vg : list WorkUnit :=
  [mkUnit "1" ["a-1"; "1/n"] [] "a";
   mkUnit "1" ["b-1"; "1/n"] [] "b"].

End Resolver.

Import Resolver.

(** ** In-memory backings, for evaluating the loaders *)

Module Mem.

(** A pck backing: what reading each key yields, and the keys fetched so
    far through [_special_get].  Its path object is always true. *)
Record mem : Type := mkMem {
  entries : list (string * outcome (pyval nat));
  fetched : list string
}.

Fixpoint assoc {A} (k : string) (l : list (string * A)) : option A :=
  match l with
  | [] => None
  | (k', a) :: l' => if String.eqb k k' then Some a else assoc k l'
  end.

Definition mem_get (k : string) (w : mem) : outcome (pyval nat) * mem :=
  (match assoc k (entries w) with
   | Some r => r
   | None => Raise (KeyError k)
   end,
   mkMem (entries w) (fetched w ++ [k])).

#[export] Instance mem_backend : Backend mem unit (pyval nat) := {|
  special_open _ w := (Ret tt, w);
  special_close _ w := (Ret tt, w);
  special_getkeys _ w := (Ret (map fst (entries w)), w);
  special_get _ k w := mem_get k w;
  pathobj_bool _ _ := true
|}.

Definition mem_str (v : pyval nat) : string :=
  match v with PyNone => "None" | PyObj _ => "array" end.

(** A loader constructed on the backing: [__init__] runs [update]. *)
Definition loader (excl : list regex) (w : mem) : PckLoader mem unit nat :=
  snd (pck_update mem_str (pck_new "data.npz" excl w)).

(** A raw backing: the file names with whether each can be read, and the
    file objects currently open.  Its path object is always true. *)
Record disk : Type := mkDisk {
  names : list (string * bool);
  opened : list string
}.

Definition disk_get (k : string) (w : disk) : outcome string * disk :=
  match assoc k (names w) with
  | Some true => (Ret k, mkDisk (names w) (k :: opened w))
  | Some false => (Raise (IOError k), w)
  | None => (Raise (KeyError k), w)
  end.

Definition string_eq_dec : forall a b : string, {a = b} + {a <> b} := String.string_dec.

Definition disk_close (f : string) (w : disk) : outcome unit * disk :=
  (Ret tt, mkDisk (names w) (List.remove string_eq_dec f (opened w))).

#[export] Instance disk_backend : Backend disk unit string := {|
  special_open _ w := (Ret tt, w);
  special_close _ w := (Ret tt, w);
  special_getkeys _ w := (Ret (map fst (names w)), w);
  special_get _ k w := disk_get k w;
  pathobj_bool _ _ := true
|}.

Definition raw_loader (excl : list regex) (w : disk) : RawLoader disk unit :=
  snd (raw_update (mkRaw (mkBase "casedir" None w []) None excl)).

(** Fixtures. *)

(** Three arrays, the second of which cannot be read. *)
Definition mem_xyz : mem :=
  mkMem [("a/x", Ret (PyObj 1)); ("a/y", Raise (IOError "read error"));
         ("a/z", Ret (PyObj 3))] [].

(** Two groups, [a] and [b]. *)
Definition mem_ab : mem :=
  mkMem [("a/x", Ret (PyObj 1)); ("b/y", Ret (PyObj 2))] [].
Definition mem_ba : mem :=
  mkMem [("b/y", Ret (PyObj 2)); ("a/x", Ret (PyObj 1))] [].

(** A bare key next to a grouped one. *)
Definition mem_bare : mem :=
  mkMem [("bigdata", Ret (PyObj 1)); ("a/x", Ret (PyObj 2))] [].

(** Two groups, the name of one a prefix of the other's. *)
Definition mem_snap : mem :=
  mkMem [("snap/x", Ret (PyObj 1)); ("snapshot/y", Ret (PyObj 2))] [].

(** The pattern ['snap$']. *)
Definition pat_snap : regex := Seq (Lit "snap") Eol.

(** The pattern ['.*\.txt$']. *)
Definition pat_txt : regex := Seq (Star AnyChr) (Seq (Lit ".txt") Eol).

Definition disk_abc : disk :=
  mkDisk [("b.out", true); ("a.txt", true); ("a.out", false)] [].

(** A block that reads nothing and returns, and one that raises. *)
Definition body_ok (f : string) : M (RawLoader disk unit) nat := ret 0%nat.
Definition body_raise (f : string) : M (RawLoader disk unit) nat :=
  raise (ValueError "bad data").

End Mem.

Import Mem.

(** ** More of [loaders/base.py]: construction, pickling, paths *)

Module PyPath.

(** [s.endswith('/')] *)
Fixpoint ends_with_sep (s : string) : bool :=
  match s with
  | EmptyString => false
  | String c EmptyString => Ascii.eqb c sep
  | String _ s' => ends_with_sep s'
  end.

(** [os.path.join(a, b)] (posixpath):
    [if b.startswith('/'): path = b
     elif not path or path.endswith('/'): path += b
     else: path += '/' + b]. *)
Definition path_join (a b : string) : string :=
  if startswith b "/" then b
  else if String.eqb a "" || ends_with_sep a then a ++ b
  else a ++ "/" ++ b.

(** ['/' not in s] *)
Fixpoint no_sep (s : string) : bool :=
  match s with
  | EmptyString => true
  | String c s' => negb (Ascii.eqb c sep) && no_sep s'
  end.

End PyPath.

Import PyPath.

(** The checks of [BaseLoader.__init__]: [_check_path_access] (whether the
    path exists and can be read) and the abstract [_special_check_path]. *)
Class PathCheck (W : Type) : Type := {
  check_path_access : string -> W -> bool;
  special_check_path : string -> W -> outcome bool * W
}.

Section RawMore.
Context {W PathObj FileObj : Type} `{!Backend W PathObj FileObj}.

(** [BaseRawLoader.beside_path]: [os.path.join(self.path, name)] *)
Definition raw_beside_path (name : string) (s : RawLoader W PathObj) : string :=
  path_join (raw_path s) name.

End RawMore.

Section PckMore.
Context {W PathObj V : Type} `{!Backend W PathObj (pyval V)} `{!PathCheck W}.
Variable py_str : pyval V -> string.

(** [BaseLoader.__init__] followed by [BasePckLoader.__init__]: the two
    path checks, the exclusion list (anything but a tuple or list, here
    [None], counts as empty), then [update].  The loader returned beside a
    raised exception is the object under construction, which the caller
    never receives. *)
Definition pck_init (p : string) (excl : option (list regex)) (w : W)
  : outcome unit * (PckLoader W PathObj V) :=
  let s0 := pck_new p (default [] excl) w in
  if check_path_access p w then
    match special_check_path p w with
    | (Ret true, w1) => pck_update py_str (pck_set_base (set_world w1 (pck_base s0)) s0)
    | (Ret false, w1) =>
        (Raise (ValueError ("Path '" ++ p ++ "' checking failed.")),
         pck_set_base (set_world w1 (pck_base s0)) s0)
    | (Raise e, w1) => (Raise e, pck_set_base (set_world w1 (pck_base s0)) s0)
    end
  else (Raise (IOError ("Failed to access path '" ++ p ++ "'.")), s0).

(** The value of one slot of a pck loader. *)
Inductive slotval : Type :=
| SNames (v : option (list string))
| SExclude (v : list regex)
| SText (v : option string)
| SCache (v : gmap string (pyval V))
| SPath (v : string).

(** [BaseLoader.__getstate__]: the slots of the class and its bases in
    method resolution order ([BasePckLoader] first, then [BaseLoader]),
    without [pathobj]. *)
Definition pck_getstate (s : (PckLoader W PathObj V)) : list (string * slotval) :=
  [("datakeys", SNames (datakeys s));
   ("datagroups", SNames (datagroups s));
   ("datagroups_exclude", SExclude (datagroups_exclude s));
   ("desc", SText (desc s));
   ("description", SText (description s));
   ("cache", SCache (cache s));
   ("path", SPath (pck_path s))].

Definition set_path (p : string) (s : (PckLoader W PathObj V)) : (PckLoader W PathObj V) :=
  let b := pck_base s in pck_set_base (mkBase p (pathobj b) (world b) (logs b)) s.

(** [setattr(self, name, value)].  A name that is no slot raises
    [AttributeError]; a value of a shape the slot does not hold cannot be
    stored in the record and is refused as well ([__getstate__] never
    produces one). *)
Definition pck_setattr (name : string) (v : slotval) : M (PckLoader W PathObj V) unit :=
  match v with
  | SNames x =>
      if String.eqb name "datakeys" then modify (set_datakeys x)
      else if String.eqb name "datagroups" then modify (set_datagroups x)
      else raise (OtherError ("AttributeError: " ++ name))
  | SExclude x =>
      if String.eqb name "datagroups_exclude"
      then modify (fun s => mkPck (pck_base s) (datakeys s) (datagroups s) x
                                  (desc s) (description s) (cache s))
      else raise (OtherError ("AttributeError: " ++ name))
  | SText x =>
      if String.eqb name "desc" then modify (set_desc x)
      else if String.eqb name "description" then modify (set_description x)
      else raise (OtherError ("AttributeError: " ++ name))
  | SCache x =>
      if String.eqb name "cache" then modify (set_cache x)
      else raise (OtherError ("AttributeError: " ++ name))
  | SPath x =>
      if String.eqb name "path" then modify (set_path x)
      else raise (OtherError ("AttributeError: " ++ name))
  end.

(** [for name, value in state: setattr(self, name, value)] *)
Fixpoint pck_setattrs (state : list (string * slotval)) : M (PckLoader W PathObj V) unit :=
  match state with
  | [] => ret tt
  | (name, v) :: rest => (pck_setattr name v ;; pck_setattrs rest)%loader
  end.

(** [BaseLoader.__setstate__]: restore the slots, then reopen the path. *)
Definition pck_setstate (state : list (string * slotval)) : M (PckLoader W PathObj V) unit :=
  (pck_setattrs state ;;
   p <- gets pck_path ;;
   po <- pck_lift (call (special_open p)) ;;
   pck_lift (modify (set_pathobj (Some po))))%loader.

(** What [update] alone is meant to set: the path, the exclusion list and
    the enumerations of keys and groups. *)
Definition enumeration (s : (PckLoader W PathObj V))
  : string * list regex * option (list string) * option (list string) :=
  (pck_path s, datagroups_exclude s, datakeys s, datagroups s).

(** The keys [get_many] has to fetch: those not cached, or cached as
    [None]. *)
Definition todo_keys (c : gmap string (pyval V)) (keys : list string) : list string :=
  List.filter (fun k => is_None (default PyNone (c !! k))) keys.

(** The debug record that precedes a fetch of [key]. *)
Definition msg_fetch (p key : string) : logrec :=
  (DEBUG, "Getting key '" ++ key ++ "' from " ++ p ++ " ...").

(** The error record of a failed fetch of [key]. *)
Definition msg_fetch_failed (p key : string) : logrec :=
  (ERROR, "Failed to get '" ++ key ++ "' from " ++ p ++ "!").

(** The warning of [all_in_loader] for a missing [item]. *)
Definition msg_missing (p item : string) : logrec :=
  (WARNING, "Key '" ++ item ++ "' not in " ++ p ++ "!").

(** The loader with records appended to its log. *)
Definition with_logs (l : list logrec) (s : (PckLoader W PathObj V)) : (PckLoader W PathObj V) :=
  let b := pck_base s in
  pck_set_base (mkBase (path b) (pathobj b) (world b) (logs b ++ l)) s.

End PckMore.

(** ** Backings that fail, and the path checks of the fixtures *)

Module Faulty.

(** A backing that can be made to fail: whether it can be opened and
    listed, the keys it lists, and how often it has been closed.  Its path
    object is the number of keys it holds, and is false when that is zero,
    as an object with a [__len__] method is. *)
Record faulty : Type := mkFaulty {
  can_open : bool;
  can_list : bool;
  listing : list string;
  closes : nat
}.

#[export] Instance faulty_backend : Backend faulty nat (pyval nat) := {|
  special_open _ w :=
    if can_open w then (Ret (length (listing w)), w)
    else (Raise (IOError "cannot open"), w);
  special_close _ w :=
    (Ret tt, mkFaulty (can_open w) (can_list w) (listing w) (S (closes w)));
  special_getkeys _ w :=
    if can_list w then (Ret (listing w), w)
    else (Raise (ValueError "cannot list"), w);
  special_get _ k w := (Raise (KeyError k), w);
  pathobj_bool n _ := negb (Nat.eqb n 0)
|}.

(** Opens, but cannot be listed: with one key and without any; and one
    that cannot be opened. *)
Definition faulty_list : faulty := mkFaulty true false ["a/x"] 0.
Definition faulty_empty : faulty := mkFaulty true false [] 0.
Definition faulty_open : faulty := mkFaulty false true [] 0.

(** For the in-memory backing every path but ["missing.npz"] can be
    accessed, and every path but ["notes.txt"] passes the check. *)
#[export] Instance mem_check : PathCheck mem := {|
  check_path_access p _ := negb (String.eqb p "missing.npz");
  special_check_path p w := (Ret (negb (String.eqb p "notes.txt")), w)
|}.

End Faulty.

Import Faulty.

(** * Properties *)

(** ** Closing a loader *)

Section BaseProps.
Context {W PathObj Val : Type} `{!Backend W PathObj Val}.

(** [close] touches the path object, the world and the log only.  After it
    returned, a path object that was true is gone and a loader whose path
    object was [None] or false is as it was; when [_special_close] raised,
    the path object is still there. *)
Lemma close_frame (b : Base W PathObj) r b1 :
  close b = (r, b1) ->
  path b1 = path b
  /\ (r = Ret tt -> if pathobj_true b then pathobj b1 = None else b1 = b)
  /\ (forall e, r = Raise e -> pathobj_true b = true /\ pathobj b1 = pathobj b)
  /\ (pathobj_true b = false -> r = Ret tt /\ b1 = b).
Proof.
  unfold close, pathobj_true, bind, gets, log, modify, call, ret. simpl.
  destruct (pathobj b) as [po|] eqn:Hpo; simpl.
  - destruct (pathobj_bool po (world b)) eqn:Ht; simpl.
    + destruct (special_close po _) as [[[]|e] w]; simpl; intros [= <- <-]; simpl;
        repeat split; try done; congruence.
    + intros [= <- <-]. repeat split; try done.
  - intros [= <- <-]. repeat split; try done.
Qed.

(** A loader whose path object is [None] or false is left alone. *)
Lemma close_false (b : Base W PathObj) :
  pathobj_true b = false -> close b = (Ret tt, b).
Proof.
  intros Ht. destruct (close b) as [r b1] eqn:Hc.
  destruct (close_frame _ _ _ Hc) as (_ & _ & _ & Hf).
  by destruct (Hf Ht) as [-> ->].
Qed.


End BaseProps.

(** ** Sorting strings *)

Section StringOrder.

Lemma ascii_compare_N a b :
  Ascii.compare a b = N.compare (N_of_ascii a) (N_of_ascii b).
Proof. reflexivity. Qed.

Lemma string_compare_refl a : String.compare a a = Eq.
Proof.
  induction a as [|c a IH]; simpl; [done|].
  rewrite ascii_compare_N, N.compare_refl. exact IH.
Qed.

Lemma string_compare_lt_trans a b c :
  String.compare a b = Lt -> String.compare b c = Lt -> String.compare a c = Lt.
Proof.
  revert b c. induction a as [|x a IH]; intros [|y b] [|z c]; simpl; try done.
  rewrite !ascii_compare_N.
  destruct (N.compare_spec (N_of_ascii x) (N_of_ascii y)) as [Hxy|Hxy|Hxy];
    destruct (N.compare_spec (N_of_ascii y) (N_of_ascii z)) as [Hyz|Hyz|Hyz];
    try done; intros H1 H2.
  - rewrite Hxy, Hyz, N.compare_refl. eauto.
  - by rewrite Hxy, (proj2 (N.compare_lt_iff _ _) Hyz).
  - by rewrite <- Hyz, (proj2 (N.compare_lt_iff _ _) Hxy).
  - by rewrite (proj2 (N.compare_lt_iff _ _) (N.lt_trans _ _ _ Hxy Hyz)).
Qed.

#[export] Instance str_le_refl : Reflexive str_le.
Proof. intros a. unfold str_le, String.leb. by rewrite string_compare_refl. Qed.

#[export] Instance str_le_trans : Transitive str_le.
Proof.
  intros a b c. unfold str_le, String.leb.
  destruct (String.compare a b) eqn:Hab; [| |done].
  - apply String.compare_eq_iff in Hab. by subst.
  - destruct (String.compare b c) eqn:Hbc; [| |done]; intros _ _.
    + apply String.compare_eq_iff in Hbc. subst. by rewrite Hab.
    + by rewrite (string_compare_lt_trans a b c).
Qed.

#[export] Instance str_le_total : Total str_le.
Proof. intros a b. apply String.leb_total. Qed.

#[export] Instance str_le_antisym : AntiSymm (=) str_le.
Proof. intros a b. apply String.leb_antisym. Qed.

Lemma sorted_Sorted l : Sorted str_le (sorted l).
Proof. apply (Sorted_merge_sort str_le). Qed.

Lemma sorted_Permutation l : sorted l ≡ₚ l.
Proof. apply (merge_sort_Permutation str_le). Qed.

(** [sorted] depends on the elements only, not on the order they come in. *)
Lemma sorted_perm_invariant l1 l2 : l1 ≡ₚ l2 -> sorted l1 = sorted l2.
Proof.
  intros Hp. apply (Sorted_unique str_le); try apply sorted_Sorted.
  by rewrite !sorted_Permutation.
Qed.

Lemma elem_of_sorted x l : x ∈ sorted l <-> x ∈ l.
Proof. by rewrite sorted_Permutation. Qed.

Lemma sorted_idempotent l : sorted (sorted l) = sorted l.
Proof. apply sorted_perm_invariant, sorted_Permutation. Qed.

End StringOrder.

(** ** Paths *)

Section Paths.

Lemma startswith_refl k : startswith k k = true.
Proof.
  unfold startswith. induction k as [|c k IH]; simpl; [done|].
  by destruct (ascii_dec c c).
Qed.

Lemma startswith_trans a b c :
  startswith b a = true -> startswith c b = true -> startswith c a = true.
Proof.
  unfold startswith. revert b c. induction a as [|x a IH]; intros b c; [by destruct c|].
  destruct b as [|y b]; [done|]. destruct c as [|z c]; simpl; [by destruct (ascii_dec x y)|].
  destruct (ascii_dec x y) as [->|]; [|done].
  destruct (ascii_dec y z) as [->|]; [|done]. apply IH.
Qed.

Lemma split_last_sep_prefix p : startswith p (fst (split_last_sep p)) = true.
Proof.
  unfold startswith. induction p as [|c p IH]; simpl; [done|].
  destruct (split_last_sep p) as [[|h0 h] t]; simpl in *.
  - destruct (Ascii.eqb c sep); simpl; [|done]. by destruct (ascii_dec c c).
  - by destruct (ascii_dec c c).
Qed.

Lemma rstrip_sep_prefix h : startswith h (rstrip_sep h) = true.
Proof.
  unfold startswith. induction h as [|c h IH]; simpl; [done|].
  destruct (rstrip_sep h) as [|t0 t]; simpl in *.
  - destruct (Ascii.eqb c sep); simpl; [done|]. by destruct (ascii_dec c c).
  - by destruct (ascii_dec c c).
Qed.

(** A key starts with its own group name. *)
Lemma dirname_prefix k : startswith k (dirname k) = true.
Proof.
  unfold dirname. destruct (all_sep _).
  - apply split_last_sep_prefix.
  - eapply startswith_trans; [apply rstrip_sep_prefix|apply split_last_sep_prefix].
Qed.

End Paths.

(** ** Exclusion filters *)

Section Exclusion.

Lemma foldl_filter {A B} (f : B -> A -> bool) (bs : list B) (l : list A) :
  foldl (fun l b => List.filter (f b) l) l bs
  = List.filter (fun x => forallb (fun b => f b x) bs) l.
Proof.
  revert l. induction bs as [|b bs IH]; intros l; simpl.
  - induction l as [|x l IHl]; simpl; [done|]. by rewrite <- IHl.
  - rewrite IH. clear IH. induction l as [|x l IHl]; simpl; [done|].
    destruct (f b x); simpl; [|done].
    destruct (forallb _ bs); simpl; by rewrite IHl.
Qed.

Lemma exclude_by_filter pats l :
  exclude_by pats l
  = List.filter (fun k => forallb (fun pat => negb (matches pat k)) pats) l.
Proof. apply (foldl_filter (fun pat k => negb (matches pat k))). Qed.

Lemma drop_groups_filter exc keys :
  drop_groups exc keys
  = List.filter (fun k => forallb (fun g => negb (startswith k g)) exc) keys.
Proof. apply (foldl_filter (fun g k => negb (startswith k g))). Qed.

Lemma elem_of_List_filter {A} (P : A -> bool) (l : list A) x :
  x ∈ List.filter P l <-> x ∈ l /\ P x = true.
Proof. rewrite !list_elem_of_In. apply filter_In. Qed.

Lemma elem_of_exclude_by pats l k :
  k ∈ exclude_by pats l <-> k ∈ l /\ forall pat, pat ∈ pats -> matches pat k = false.
Proof.
  rewrite exclude_by_filter, elem_of_List_filter, forallb_forall.
  split; intros [? Hp]; (split; [done|]); intros pat Hin.
  - apply list_elem_of_In, Hp in Hin. by destruct (matches pat k).
  - apply list_elem_of_In, Hp in Hin. by rewrite Hin.
Qed.

Lemma List_filter_Permutation {A} (P : A -> bool) (l1 l2 : list A) :
  l1 ≡ₚ l2 -> List.filter P l1 ≡ₚ List.filter P l2.
Proof.
  induction 1 as [|x l1 l2 _ IH|x y l|l1 l2 l3 _ IH1 _ IH2]; simpl.
  - done.
  - destruct (P x); by rewrite IH.
  - destruct (P x), (P y); (done || by constructor).
  - by etrans.
Qed.

(** The sorted, filtered enumeration does not depend on the order in
    which the names are listed. *)
Lemma sorted_exclude_perm pats l1 l2 :
  l1 ≡ₚ l2 -> sorted (exclude_by pats l1) = sorted (exclude_by pats l2).
Proof.
  intros Hp. apply sorted_perm_invariant.
  rewrite !exclude_by_filter. by apply List_filter_Permutation.
Qed.

Lemma List_filter_ext_in {A} (P Q : A -> bool) (l : list A) :
  (forall x, x ∈ l -> P x = Q x) -> List.filter P l = List.filter Q l.
Proof.
  intros H. apply filter_ext_in. intros x Hx. by apply H, list_elem_of_In.
Qed.

Lemma forallb_same_elements {A} (P : A -> bool) (l1 l2 : list A) :
  (forall x, x ∈ l1 <-> x ∈ l2) -> forallb P l1 = forallb P l2.
Proof.
  intros H. apply eq_true_iff_eq. rewrite !forallb_forall.
  split; intros Hall x Hx; apply Hall, list_elem_of_In;
    apply list_elem_of_In in Hx; by apply H.
Qed.

End Exclusion.

(** ** The pck loader: [get], [get_many] and the cache *)

Section PckProps.
Context {W PathObj V : Type} `{!Backend W PathObj (pyval V)}.
Variable py_str : pyval V -> string.

Implicit Types (s : PckLoader W PathObj V) (key : string).

Lemma contains_true x (l : list string) : x ∈ l -> contains x l = true.
Proof. intros. unfold contains. by apply bool_decide_eq_true. Qed.

Lemma contains_false x (l : list string) : x ∉ l -> contains x l = false.
Proof. intros. unfold contains. by apply bool_decide_eq_false. Qed.

(** A key outside [keys()] is refused before the cache or the backing is
    consulted. *)
Lemma pck_get_absent s key ks :
  datakeys s = Some ks -> key ∉ ks ->
  pck_get key s = (Raise (KeyError (key ++ " is not in '" ++ pck_path s ++ "'")), s).
Proof.
  intros Hdk Hin. unfold pck_get, bind, gets, check_member. simpl.
  rewrite Hdk, (contains_false _ _ Hin). reflexivity.
Qed.

(** A cached key is answered from the cache: nothing is fetched, logged or
    changed. *)
Lemma pck_get_cached s key ks v :
  datakeys s = Some ks -> key ∈ ks -> cache s !! key = Some v ->
  pck_get key s = (Ret v, s).
Proof.
  intros Hdk Hin Hc. unfold pck_get, bind, gets, check_member. simpl.
  rewrite Hdk, (contains_true _ _ Hin). simpl. rewrite Hc. reflexivity.
Qed.

Lemma pck_get_uncached s key ks v w' :
  datakeys s = Some ks -> key ∈ ks -> cache s !! key = None ->
  special_get (pathobj (pck_base s)) key (world (pck_base s)) = (Ret v, w') ->
  pck_get key s = (Ret v, after_fetch s key v w').
Proof.
  intros Hdk Hin Hc Hf. unfold pck_get, bind, gets, check_member. simpl.
  rewrite Hdk, (contains_true _ _ Hin). simpl. rewrite Hc.
  unfold try_except_reraise, bind, pck_lift, lift, log, modify, call, gets.
  simpl. rewrite Hf. reflexivity.
Qed.

(** C4.  [get(key)] raises [KeyError] for a key that is not among
    [keys()]; for a key of the store the first call fetches the value from
    the backing and caches it, and every later call with the same key
    returns the cached value and fetches nothing: the loader, its world
    and its log stay as they are. *)
Theorem get_fetches_once_then_caches s key ks :
  datakeys s = Some ks ->
  (key ∉ ks ->
   exists msg, pck_get key s = (Raise (KeyError msg), s))
  /\ (key ∈ ks -> cache s !! key = None ->
      forall v w',
        special_get (pathobj (pck_base s)) key (world (pck_base s)) = (Ret v, w') ->
        exists s',
          pck_get key s = (Ret v, s')
          /\ cache s' = <[key := v]> (cache s)
          /\ world (pck_base s') = w'
          /\ forall n, Nat.iter n (fun st => snd (pck_get key st)) s' = s'
                       /\ pck_get key s' = (Ret v, s'))
  /\ (key ∈ ks -> forall v, cache s !! key = Some v ->
      pck_get key s = (Ret v, s)).
Proof.
  intros Hdk. split; [|split].
  - intros Hin. eexists. by apply pck_get_absent with ks.
  - intros Hin Hc v w' Hf. exists (after_fetch s key v w').
    assert (Hagain : pck_get key (after_fetch s key v w')
                     = (Ret v, after_fetch s key v w')).
    { apply pck_get_cached with ks; [done|done|]. simpl. apply lookup_insert_eq. }
    split; [by apply pck_get_uncached with ks|].
    split; [done|]. split; [done|].
    intros n. split; [|done].
    induction n as [|n IH]; simpl; [done|]. by rewrite IH, Hagain.
  - intros Hin v Hc. by apply pck_get_cached with ks.
Qed.

(** *** The loop of [get_many] *)

Lemma loop_step keys i rest (result : list (pyval V)) ko s :
  get_many_loop keys (i :: rest) result ko s =
  match keys !! i with
  | None => (Raise (IndexError "tuple index out of range"), ko, s)
  | Some k =>
      match special_get (pathobj (pck_base s)) k (world (pck_base s)) with
      | (Raise e, w) => (Raise e, Some k, logged_fetch s k w)
      | (Ret v, w) =>
          get_many_loop keys rest (<[i := v]> result) (Some k) (after_fetch s k v w)
      end
  end.
Proof.
  simpl. destruct (keys !! i) as [k|]; [|done].
  unfold bind, pck_lift, lift, log, modify, call, gets. simpl.
  by destruct (special_get _ _ _) as [[v|e] w].
Qed.

Lemma loop_app keys pre rest (result : list (pyval V)) ko s :
  get_many_loop keys (pre ++ rest) result ko s =
  match get_many_loop keys pre result ko s with
  | (Ret r1, k1, s1) => get_many_loop keys rest r1 k1 s1
  | failure => failure
  end.
Proof.
  revert result ko s. induction pre as [|i pre IH]; intros result ko s; [done|].
  rewrite <- app_comm_cons, !loop_step.
  destruct (keys !! i) as [k|]; [|done].
  destruct (special_get _ _ _) as [[v|e] w]; [apply IH|done].
Qed.

(** The loop touches the cache at the keys it fetches only, never drops an
    entry, and leaves the key enumeration alone. *)
Lemma loop_frame keys idx (result : list (pyval V)) ko s out ko' s' :
  get_many_loop keys idx result ko s = (out, ko', s') ->
  datakeys s' = datakeys s
  /\ (forall k, (forall i, i ∈ idx -> keys !! i <> Some k) ->
                cache s' !! k = cache s !! k)
  /\ (forall k, is_Some (cache s !! k) -> is_Some (cache s' !! k)).
Proof.
  revert result ko s. induction idx as [|i idx IH]; intros result ko s.
  - simpl. intros [= <- <- <-]. done.
  - rewrite loop_step. destruct (keys !! i) as [k|] eqn:Hk.
    2:{ intros [= <- <- <-]. done. }
    destruct (special_get _ _ _) as [[v|e] w].
    2:{ intros [= <- <- <-]. done. }
    intros Hl. apply IH in Hl as (Hdk & Hfr & Hdom). simpl in *.
    split; [done|]. split.
    + intros k' Hno. rewrite Hfr.
      * apply lookup_insert_ne. intros ->. by apply (Hno i); [left|].
      * intros j Hj. apply Hno. by right.
    + intros k' Hs. apply Hdom.
      destruct (decide (k = k')) as [->|Hne].
      * rewrite lookup_insert_eq. by eexists.
      * by rewrite lookup_insert_ne.
Qed.

(** After a successful run of the loop every key it went through is
    cached. *)
Lemma loop_caches keys idx (result : list (pyval V)) ko s r ko' s' :
  get_many_loop keys idx result ko s = (Ret r, ko', s') ->
  forall j, j ∈ idx -> exists k, keys !! j = Some k /\ is_Some (cache s' !! k).
Proof.
  revert result ko s. induction idx as [|i idx IH]; intros result ko s Hl j Hj.
  - by apply elem_of_nil in Hj.
  - rewrite loop_step in Hl. destruct (keys !! i) as [k|] eqn:Hk; [|done].
    destruct (special_get _ _ _) as [[v|e] w]; [|done].
    apply elem_of_cons in Hj as [->|Hj]; [|by eapply IH].
    exists k. split; [done|].
    apply loop_frame in Hl as (_ & _ & Hdom). apply Hdom. simpl.
    rewrite lookup_insert_eq. by eexists.
Qed.

Lemma none_indices_spec (result : list (pyval V)) n i :
  i ∈ none_indices n result <-> exists j, i = (n + j)%nat /\ result !! j = Some PyNone.
Proof.
  revert n. induction result as [|v result IH]; intros n; simpl.
  - split; [by intros ?%elem_of_nil|]. by intros (j & _ & ?).
  - assert (Htl : i ∈ none_indices (S n) result <->
                  exists j, i = (n + S j)%nat /\ result !! j = Some PyNone).
    { rewrite IH. split; intros (j & -> & ?); exists j; split; (lia || done). }
    destruct v as [|v]; simpl.
    + rewrite elem_of_cons, Htl. split.
      * intros [->|(j & -> & ?)]; [exists 0%nat|exists (S j)]; split; (lia || done).
      * intros ([|j] & -> & ?); [left; lia|right; by exists j].
    + rewrite Htl. split.
      * intros (j & -> & ?). by exists (S j).
      * intros ([|j] & -> & ?); [done|by exists j].
Qed.

(** The indices [get_many] fetches are those of the keys that are not
    cached, or cached as [None]. *)
Lemma idxtodo_spec (c : gmap string (pyval V)) keys i :
  i ∈ none_indices 0 (cached_or_None c keys) <->
  exists k, keys !! i = Some k /\ default PyNone (c !! k) = PyNone.
Proof.
  rewrite none_indices_spec. unfold cached_or_None. split.
  - intros (j & -> & Hj). simpl.
    rewrite list_lookup_fmap in Hj.
    destruct (keys !! j) as [k|]; [|done]. exists k. split; [done|].
    by injection Hj.
  - intros (k & Hk & Hd). exists i. split; [done|].
    by rewrite list_lookup_fmap, Hk; simpl; rewrite Hd.
Qed.

(** The result of the loop: positions outside [idx] are untouched, and with
    distinct keys each fetched position holds what the cache then holds for
    its key. *)
Lemma loop_result keys idx (result : list (pyval V)) ko s r ko' s' :
  NoDup keys -> NoDup idx -> (forall i, i ∈ idx -> (i < length result)%nat) ->
  get_many_loop keys idx result ko s = (Ret r, ko', s') ->
  length r = length result
  /\ (forall i, i ∉ idx -> r !! i = result !! i)
  /\ (forall i k, i ∈ idx -> keys !! i = Some k -> r !! i = cache s' !! k).
Proof.
  intros Hkeys. revert result ko s.
  induction idx as [|i idx IH]; intros result ko s Hnd Hlt Hl.
  - simpl in Hl. injection Hl as <- <- <-. split; [done|]. split; [done|].
    by intros i k ?%elem_of_nil.
  - rewrite loop_step in Hl. destruct (keys !! i) as [k|] eqn:Hk; [|done].
    destruct (special_get _ _ _) as [[v|e] w]; [|done].
    apply NoDup_cons in Hnd as [Hi Hnd].
    pose proof Hl as Hframe. apply loop_frame in Hframe as (_ & Hfr & _).
    apply IH in Hl as (Hlen & Hout & Hin); [|done|].
    2:{ intros j Hj. rewrite length_insert. apply Hlt. by right. }
    rewrite length_insert in Hlen. split; [done|]. split.
    + intros j Hj. rewrite Hout by (intros ?; apply Hj; by right).
      apply list_lookup_insert_ne. intros ->. apply Hj. by left.
    + intros j kj [->|Hj]%elem_of_cons Hkj.
      * assert (kj = k) as -> by congruence.
        rewrite Hout by done. rewrite list_lookup_insert_eq by (apply Hlt; by left).
        rewrite Hfr; [simpl; by rewrite lookup_insert_eq|].
        intros j Hj Hkj'.
        assert (j = i) as -> by exact (NoDup_lookup keys j i k Hkeys Hkj' Hk). done.
      * by apply Hin.
Qed.

Lemma none_indices_lt (result : list (pyval V)) n i :
  i ∈ none_indices n result -> (n <= i < n + length result)%nat.
Proof.
  intros (j & -> & Hj%lookup_lt_Some)%none_indices_spec. lia.
Qed.

Lemma none_indices_NoDup (result : list (pyval V)) n : NoDup (none_indices n result).
Proof.
  revert n. induction result as [|v result IH]; intros n; simpl; [constructor|].
  destruct (is_None v); [|apply IH].
  constructor; [|apply IH]. intros ?%none_indices_lt. lia.
Qed.

(** C10.  [get_many] is not atomic with respect to the cache.  When the
    uncached indices of the call are [pre ++ i :: post], the fetches for
    [pre] succeed and the fetch for index [i] raises [e], the call raises
    [e] and returns no value, and the cache is left exactly as the fetches
    for [pre] made it: each of their keys, uncached before the call, is
    cached after it, and no entry is rolled back. *)
Theorem get_many_keeps_fetched_on_failure
        s keys (pre : list nat) i (post : list nat) k r1 k1 s1 e w :
  none_indices 0 (cached_or_None (cache s) keys) = (pre ++ i :: post)%list ->
  get_many_loop keys pre (cached_or_None (cache s) keys) None s = (Ret r1, k1, s1) ->
  keys !! i = Some k ->
  special_get (pathobj (pck_base s1)) k (world (pck_base s1)) = (Raise e, w) ->
  exists s2,
    pck_get_many keys s = (Raise e, s2)
    /\ cache s2 = cache s1
    /\ (forall j, j ∈ pre ->
        exists kj, keys !! j = Some kj
                   /\ default PyNone (cache s !! kj) = PyNone
                   /\ is_Some (cache s2 !! kj))
    /\ (forall k', is_Some (cache s !! k') -> is_Some (cache s2 !! k')).
Proof.
  intros Hidx Hpre Hk Hf.
  assert (Hrun : get_many_loop keys (pre ++ i :: post)%list
                   (cached_or_None (cache s) keys) None s
                 = (Raise e, Some k, logged_fetch s1 k w)).
  { by rewrite loop_app, Hpre, loop_step, Hk, Hf. }
  assert (Hcached : forall j, j ∈ pre ->
            exists kj, keys !! j = Some kj
                       /\ default PyNone (cache s !! kj) = PyNone
                       /\ is_Some (cache s1 !! kj)).
  { intros j Hj. destruct (loop_caches _ _ _ _ _ _ _ _ Hpre j Hj) as (kj & Hkj & Hs).
    exists kj. split; [done|]. split; [|done].
    assert (Hin : j ∈ none_indices 0 (cached_or_None (cache s) keys)).
    { rewrite Hidx. apply elem_of_app. by left. }
    apply idxtodo_spec in Hin as (kj' & Hkj' & Hd). congruence. }
  assert (Hdom : forall k', is_Some (cache s !! k') -> is_Some (cache s1 !! k')).
  { by apply loop_frame in Hpre as (_ & _ & Hdom). }
  unfold pck_get_many. rewrite Hidx, Hrun.
  replace (length (pre ++ i :: post)%list =? 0)%nat with false
    by (symmetry; apply Nat.eqb_neq; rewrite length_app; simpl; lia).
  destruct (is_io_or_value e); eexists; (split; [reflexivity|]); simpl.
  all: done.
Qed.

(** *** What the operations do to the cache *)

Lemma pck_get_frame s key :
  datakeys (snd (pck_get key s)) = datakeys s
  /\ forall k v, cache s !! k = Some v -> cache (snd (pck_get key s)) !! k = Some v.
Proof.
  unfold pck_get, bind, gets, check_member, try_except_reraise,
    pck_lift, lift, log, modify, call, raise, ret. simpl.
  destruct (datakeys s) as [ks|] eqn:Hdk; simpl; [|done].
  destruct (contains key ks); simpl; [|done].
  destruct (cache s !! key) as [v0|] eqn:Hc; simpl; [done|].
  destruct (special_get _ _ _) as [[v1|e] w]; simpl.
  - split; [done|]. intros k v Hk. rewrite lookup_insert_ne; [done|congruence].
  - by destruct (is_io_or_value e).
Qed.

Lemma pck_get_many_frame s keys :
  datakeys (snd (pck_get_many keys s)) = datakeys s
  /\ forall k v, cache s !! k = Some (PyObj v) ->
                 cache (snd (pck_get_many keys s)) !! k = Some (PyObj v).
Proof.
  unfold pck_get_many.
  destruct (length _ =? 0)%nat; [done|].
  destruct (get_many_loop _ _ _ _ _) as [[out ko] s1] eqn:Hl.
  apply loop_frame in Hl as (Hdk & Hfr & _).
  assert (Hkeep : forall k v, cache s !! k = Some (PyObj v) ->
                              cache s1 !! k = Some (PyObj v)).
  { intros k v Hk. rewrite Hfr; [done|].
    intros i (k' & Hk' & Hd)%idxtodo_spec Heq.
    assert (k' = k) as -> by congruence. by rewrite Hk in Hd. }
  destruct out as [r|e]; [done|].
  by destruct (is_io_or_value e).
Qed.

Lemma all_in_loop_frame dk items result s :
  datakeys (snd (all_in_loop dk items result s)) = datakeys s
  /\ forall k v, cache s !! k = Some (PyObj v) ->
                 cache (snd (all_in_loop dk items result s)) !! k = Some (PyObj v).
Proof.
  revert result s. induction items as [|i items IH]; intros result s; [done|].
  simpl. destruct dk as [ks|]; [|done].
  destruct (contains i ks); [apply IH|].
  unfold bind, gets, pck_lift, lift, log, modify. simpl.
  destruct (IH false (pck_set_base
              (mkBase (path (pck_base s)) (pathobj (pck_base s)) (world (pck_base s))
                      (logs (pck_base s) ++
                         [(WARNING, "Key '" ++ i ++ "' not in " ++ pck_path s ++ "!")]))
              s)) as [Hdk Hc].
  split; [exact Hdk|]. intros k v Hk. by apply Hc.
Qed.

Lemma run_op_frame o s :
  resets_cache o = false ->
  datakeys (run_op py_str o s) = datakeys s
  /\ forall k v, cache s !! k = Some (PyObj v) ->
                 cache (run_op py_str o s) !! k = Some (PyObj v).
Proof.
  destruct o as [| |key|keys|grp|items|pat|item|items| | |]; simpl; try done; intros _.
  - destruct (pck_get_frame s key) as [? Hc]. split; [done|]. intros. by apply Hc.
  - apply pck_get_many_frame.
  - unfold pck_get_by_group, pck_refind, bind, gets, raise, ret.
    destruct (datakeys s) as [ks|] eqn:Hdk; [|done].
    pose proof (pck_get_many_frame s
      (List.filter (matches (Seq Bol (Seq (Lit grp) (Chr sep)))) ks)) as Hm.
    rewrite Hdk in Hm. by destruct (pck_get_many _ s) as [[r|e] s1].
  - unfold pck_find, bind, gets, raise, ret. by destruct (datakeys s) eqn:Hdk.
  - unfold pck_refind, bind, gets, raise, ret. by destruct (datakeys s) eqn:Hdk.
  - unfold pck_contains, bind, gets, raise, ret. by destruct (datakeys s) eqn:Hdk.
  - unfold pck_all_in_loader, bind, gets. simpl. apply all_in_loop_frame.
  - unfold pck_lift, lift. by destruct (close (pck_base s)) as [r b1].
Qed.

(** With distinct keys, [get_many] returns for every key, in the order of
    the keys, the value the cache holds for it afterwards; a key that was
    cached with a value other than [None] keeps that value. *)
Lemma pck_get_many_in_order s keys r s' :
  NoDup keys -> pck_get_many keys s = (Ret r, s') ->
  length r = length keys
  /\ (forall i k, keys !! i = Some k -> r !! i = cache s' !! k)
  /\ (forall k v, cache s !! k = Some (PyObj v) -> cache s' !! k = Some (PyObj v)).
Proof.
  intros Hnd Hrun.
  assert (Hkeep : forall k v, cache s !! k = Some (PyObj v) ->
                              cache s' !! k = Some (PyObj v)).
  { intros k v Hk. destruct (pck_get_many_frame s keys) as [_ Hc].
    rewrite Hrun in Hc. by apply Hc. }
  split; [|split; [|done]]; revert Hrun; unfold pck_get_many;
    destruct (length _ =? 0)%nat eqn:Hz.
  - intros [= <- <-]. unfold cached_or_None. by rewrite length_map.
  - destruct (get_many_loop _ _ _ _ _) as [[[r'|e] ko] s1] eqn:Hl.
    2:{ by destruct (is_io_or_value e). }
    intros [= <- <-].
    apply loop_result in Hl as (Hlen & _ & _); [|done|apply none_indices_NoDup|].
    + rewrite Hlen. unfold cached_or_None. by rewrite length_map.
    + intros i Hi%none_indices_lt. lia.
  - intros [= <- <-] i k Hk.
    assert (Hno : i ∉ none_indices 0 (cached_or_None (cache s) keys)).
    { apply Nat.eqb_eq, nil_length_inv in Hz. rewrite Hz. apply not_elem_of_nil. }
    unfold cached_or_None at 1. rewrite list_lookup_fmap, Hk. simpl.
    destruct (cache s !! k) as [[|v]|] eqn:Hc; simpl; [| done |];
      exfalso; apply Hno, idxtodo_spec; exists k; by rewrite Hc.
  - destruct (get_many_loop _ _ _ _ _) as [[[r'|e] ko] s1] eqn:Hl.
    2:{ by destruct (is_io_or_value e). }
    intros [= <- <-] i k Hk.
    pose proof Hl as Hres.
    apply loop_result in Hres as (_ & Hout & Hin); [|done|apply none_indices_NoDup|].
    2:{ intros j Hj%none_indices_lt. lia. }
    destruct (decide (i ∈ none_indices 0 (cached_or_None (cache s) keys))) as [Hi|Hi].
    + by apply Hin.
    + rewrite Hout by done. unfold cached_or_None. rewrite list_lookup_fmap, Hk. simpl.
      destruct (cache s !! k) as [[|v]|] eqn:Hc; simpl.
      * exfalso. apply Hi, idxtodo_spec. exists k. by rewrite Hc.
      * symmetry. by apply Hkeep.
      * exfalso. apply Hi, idxtodo_spec. exists k. by rewrite Hc.
Qed.

(** *** [update] *)

(** What a successful [update] stores, in terms of the listing [listed]
    that [_special_getkeys] returned. *)
Lemma pck_update_ok s s' :
  pck_update py_str s = (Ret tt, s') ->
  exists po w0 w1 listed,
    special_getkeys po w0 = (Ret listed, w1)
    /\ pck_groups s' =
       Some (sorted (exclude_by (datagroups_exclude s)
                                (elements (special_getgroups listed ∖ {[ "" ]}))))
    /\ pck_keys s' =
       Some (drop_groups
               (elements ((special_getgroups listed ∖ {[ "" ]})
                          ∖ list_to_set
                              (exclude_by (datagroups_exclude s)
                                 (elements (special_getgroups listed ∖ {[ "" ]})))))
               listed)
    /\ cache s' = ∅.
Proof.
  unfold pck_update, try_except_reraise, bind, gets, pck_lift, lift, close,
    log, modify, call, ret, raise, pck_keys, pck_groups. simpl.
  intros H. repeat case_match; simplify_eq/=; eauto 10.
Qed.

Lemma excluded_groups_elements excl listed g :
  g ∈ elements ((special_getgroups listed ∖ {[ "" ]})
                ∖ list_to_set (exclude_by excl
                                 (elements (special_getgroups listed ∖ {[ "" ]}))))
  <-> g ∈ excluded_groups excl listed.
Proof.
  unfold excluded_groups.
  rewrite elem_of_elements, elem_of_difference, elem_of_list_to_set,
    elem_of_exclude_by, elem_of_List_filter, !elem_of_elements.
  split.
  - intros [Hg Hno]. split; [done|].
    destruct (existsb _ excl) eqn:He; [done|]. exfalso. apply Hno.
    split; [done|]. intros pat Hpat.
    destruct (matches pat g) eqn:Hm; [|done].
    assert (existsb (fun pat => matches pat g) excl = true); [|congruence].
    apply existsb_exists. exists pat. split; [by apply list_elem_of_In|done].
  - intros [Hg He]. split; [done|]. intros [_ Hno].
    apply existsb_exists in He as (pat & Hpat%list_elem_of_In & Hm).
    rewrite (Hno pat Hpat) in Hm. done.
Qed.

(** After a successful [update], [keys()] is the listing of the backing in
    its own order, less the keys that start with the name of an excluded
    group. *)
Lemma pck_update_keys s s' :
  pck_update py_str s = (Ret tt, s') ->
  exists po w0 w1 listed,
    special_getkeys po w0 = (Ret listed, w1)
    /\ pck_keys s' = Some (List.filter (survives (datagroups_exclude s) listed) listed).
Proof.
  intros (po & w0 & w1 & listed & Hl & _ & Hk & _)%pck_update_ok.
  exists po, w0, w1, listed. split; [done|]. rewrite Hk. f_equal.
  rewrite drop_groups_filter. apply List_filter_ext_in. intros k _.
  unfold survives. apply forallb_same_elements. intros g.
  apply excluded_groups_elements.
Qed.

(** After a successful [update] the root group is not among [groups()],
    and the group of every key of [keys()] is. *)
Lemma pck_groups_cover_keys s s' ks gs :
  pck_update py_str s = (Ret tt, s') ->
  pck_keys s' = Some ks -> pck_groups s' = Some gs ->
  ("" ∉ gs) /\ (forall k, k ∈ ks -> dirname k <> "" -> dirname k ∈ gs).
Proof.
  intros (po & w0 & w1 & listed & _ & Hg & Hk & _)%pck_update_ok Hks Hgs.
  rewrite Hks in Hk. rewrite Hgs in Hg. injection Hk as ->. injection Hg as ->.
  split.
  - rewrite elem_of_sorted, elem_of_exclude_by, elem_of_elements, elem_of_difference.
    intros [[_ Hne] _]. apply Hne. by apply elem_of_singleton.
  - intros k Hk Hne.
    rewrite drop_groups_filter, elem_of_List_filter, forallb_forall in Hk.
    destruct Hk as [Hin Hkeep].
    assert (Hall : dirname k ∈ special_getgroups listed ∖ {[ "" ]}).
    { apply elem_of_difference. split.
      - apply elem_of_list_to_set, list_elem_of_In, in_map. by apply list_elem_of_In.
      - rewrite elem_of_singleton. exact Hne. }
    apply elem_of_sorted.
    destruct (decide (dirname k ∈ exclude_by (datagroups_exclude s)
                        (elements (special_getgroups listed ∖ {[ "" ]}))))
      as [Hdg|Hdg]; [done|].
    exfalso.
    assert (Hex : dirname k ∈ elements ((special_getgroups listed ∖ {[ "" ]})
                    ∖ list_to_set (exclude_by (datagroups_exclude s)
                                     (elements (special_getgroups listed ∖ {[ "" ]}))))).
    { apply elem_of_elements, elem_of_difference. split; [done|].
      by rewrite elem_of_list_to_set. }
    apply list_elem_of_In, Hkeep in Hex. by rewrite dirname_prefix in Hex.
Qed.

(** C6, as the code has it.  The cache belongs to the loader object and
    only [update] and [clear_cache] reset it: across any sequence of the
    other operations an entry cached with a value other than [None] stays
    cached with that value, and [get] on a key of the store keeps
    returning it. *)
Theorem cache_survives_other_operations ops s key v :
  Forall (fun o => resets_cache o = false) ops ->
  cache s !! key = Some (PyObj v) ->
  cache (run_ops py_str ops s) !! key = Some (PyObj v)
  /\ (forall ks, datakeys s = Some ks -> key ∈ ks ->
      pck_get key (run_ops py_str ops s) = (Ret (PyObj v), run_ops py_str ops s)).
Proof.
  intros Hops Hc.
  assert (Hinv : cache (run_ops py_str ops s) !! key = Some (PyObj v)
                 /\ datakeys (run_ops py_str ops s) = datakeys s).
  { revert s Hc. induction Hops as [|o ops Ho _ IH]; intros s Hc; [done|].
    simpl. destruct (run_op_frame o s Ho) as [Hdk Hkeep].
    destruct (IH (run_op py_str o s) (Hkeep _ _ Hc)) as [? Hdk'].
    split; [done|]. by rewrite Hdk', Hdk. }
  destruct Hinv as [Hc' Hdk']. split; [done|].
  intros ks Hks Hin. apply pck_get_cached with ks; [by rewrite Hdk'|done|done].
Qed.

End PckProps.

(** ** The raw loader: scoped retrieval *)

Section RawProps.
Context {W PathObj FileObj : Type} `{!Backend W PathObj FileObj}.
Variable fileobj_close : FileObj -> W -> outcome unit * W.

Implicit Types (s : RawLoader W PathObj) (key : string).

(** A successful [update] stores the sorted listing of the backing, less
    the names an exclusion pattern matches. *)
Lemma raw_update_ok s s' :
  raw_update s = (Ret tt, s') ->
  exists po w0 w1 listed,
    special_getkeys po w0 = (Ret listed, w1)
    /\ raw_keys s' = Some (sorted (exclude_by (filenames_exclude s) listed))
    /\ filenames_exclude s' = filenames_exclude s.
Proof.
  unfold raw_update, try_except_reraise, bind, gets, raw_lift, lift, close,
    log, modify, call, ret, raise, raw_keys. simpl.
  intros H. repeat case_match; simplify_eq/=; eauto 10.
Qed.

Lemma raw_with_get_absent s key names B (body : FileObj -> M (RawLoader W PathObj) B) :
  filenames s = Some names -> key ∉ names ->
  raw_with_get fileobj_close key body s =
    (Raise (KeyError (key ++ " is not in '" ++ raw_path s ++ "'")), s).
Proof.
  intros Hfn Hin. unfold raw_with_get, check_member.
  by rewrite Hfn, (contains_false _ _ Hin).
Qed.

Lemma raw_with_get_fetched s key names B (body : FileObj -> M (RawLoader W PathObj) B) f w1 :
  filenames s = Some names -> key ∈ names ->
  special_get (pathobj (raw_base s)) key (world (raw_base s)) = (Ret f, w1) ->
  raw_with_get fileobj_close key body s =
    match try_except_reraise (body f) (raw_log (msg_failed key)) (raw_entered s key w1) with
    | (r, s2) =>
        match (raw_log (msg_closing key) ;;
               raw_lift (call (fileobj_close f)))%loader s2 with
        | (Ret _, s3) => (r, s3)
        | (Raise e', s3) => (Raise e', s3)
        end
    end.
Proof.
  intros Hfn Hin Hf. unfold raw_with_get, check_member.
  rewrite Hfn, (contains_true _ _ Hin).
  unfold raw_log, bind, gets, raw_lift, lift, log, modify, call, raise, ret.
  simpl. rewrite Hf. reflexivity.
Qed.

Lemma raw_with_get_fetch_failed s key names B (body : FileObj -> M (RawLoader W PathObj) B) e w1 :
  filenames s = Some names -> key ∈ names ->
  special_get (pathobj (raw_base s)) key (world (raw_base s)) = (Raise e, w1) ->
  raw_with_get fileobj_close key body s =
    try_except_reraise (raise e) (raw_log (msg_failed key)) (raw_entered s key w1).
Proof.
  intros Hfn Hin Hf. unfold raw_with_get, check_member.
  rewrite Hfn, (contains_true _ _ Hin).
  unfold raw_log, bind, gets, raw_lift, lift, log, modify, call, raise, ret.
  simpl. rewrite Hf. reflexivity.
Qed.

(** C9.  [with loader.get(key) as f: body(f)] on a name of the loader.
    Once [_special_get] has returned the file object [f], [f.close()] is
    the last action on the world whatever the block does: it runs on the
    world the block left, both when the block completes and when it
    raises, and the outcome of the block is passed on.  When
    [_special_get] itself raises, no file object exists, the block does not
    run and the exception is raised again unchanged.  An [IOError] or
    [ValueError], of the fetch or of the block, is logged as the error
    record [Failed to get '<key>' from <path>!], which names the key and
    the path, before it is raised again; when the fetch fails the log is
    the old log, the debug record of the fetch and, for these two kinds of
    exception, that error record. *)
Theorem raw_get_scoped s key names B (body : FileObj -> M (RawLoader W PathObj) B) :
  filenames s = Some names -> key ∈ names ->
  (forall f w1,
      special_get (pathobj (raw_base s)) key (world (raw_base s)) = (Ret f, w1) ->
      forall r s2, body f (raw_entered s key w1) = (r, s2) ->
      exists s3,
        raw_with_get fileobj_close key body s =
          (match fst (fileobj_close f (world (raw_base s2))) with
           | Ret _ => r
           | Raise e' => Raise e'
           end, s3)
        /\ world (raw_base s3) = snd (fileobj_close f (world (raw_base s2)))
        /\ last (logs (raw_base s3))
           = Some (DEBUG, "Close file " ++ key ++ " in path " ++ raw_path s2 ++ ".")
        /\ (forall e, r = Raise e -> is_io_or_value e = true ->
            (ERROR, "Failed to get '" ++ key ++ "' from " ++ raw_path s2 ++ "!")
            ∈ logs (raw_base s3)))
  /\ (forall e w1,
         special_get (pathobj (raw_base s)) key (world (raw_base s)) = (Raise e, w1) ->
         exists s',
           raw_with_get fileobj_close key body s = (Raise e, s')
           /\ world (raw_base s') = w1
           /\ logs (raw_base s') =
              (logs (raw_base s)
                 ++ (DEBUG, ("Getting file '" ++ key ++ "' from "
                               ++ raw_path s ++ " ...")%string)
                 :: (if is_io_or_value e
                     then [(ERROR, ("Failed to get '" ++ key ++ "' from "
                                      ++ raw_path s ++ "!")%string)]
                     else []))%list).
Proof.
  intros Hfn Hin. split.
  - intros f w1 Hf r s2 Hbody.
    rewrite (raw_with_get_fetched s key names B body f w1 Hfn Hin Hf).
    unfold try_except_reraise. rewrite Hbody.
    unfold raw_log, bind, gets, raw_lift, lift, log, modify, call, raise, ret.
    destruct r as [b|e]; simpl.
    + destruct (fileobj_close f _) as [[[]|e'] w3]; simpl;
        eexists; (split; [reflexivity|]); simpl;
        (split; [done|]); (split; [by rewrite last_snoc|done]).
    + destruct (is_io_or_value e) eqn:He; simpl;
        destruct (fileobj_close f _) as [[[]|e'] w3]; simpl;
        eexists; (split; [reflexivity|]); simpl;
        (split; [done|]); (split; [by rewrite last_snoc|]);
        intros e0 [= <-] He0; try congruence;
        apply elem_of_app; left; apply elem_of_app; right; by left.
  - intros e w1 Hf.
    rewrite (raw_with_get_fetch_failed s key names B body e w1 Hfn Hin Hf).
    unfold try_except_reraise, raw_log, bind, gets, raw_lift, lift, log,
      modify, call, raise, ret. simpl.
    destruct (is_io_or_value e); simpl; eexists; (split; [reflexivity|]); simpl;
      (split; [done|]); by rewrite <- ?app_assoc.
Qed.

End RawProps.

(** ** The resolver *)

Section ResolverProps.

Implicit Types (keys : list string) (spec : PatternSpec).

(** *** Keeping first occurrences *)

Lemma elem_of_nub_on {A B} `{EqDecision B} (f : A -> B) (l : list A) y :
  y ∈ nub_on f l -> y ∈ l.
Proof.
  revert y. induction l as [|x l IH]; intros y; simpl; [done|].
  rewrite !elem_of_cons, elem_of_List_filter. intros [->|[Hy _]]; auto.
Qed.

Lemma elem_of_nub_id {A} `{EqDecision A} (l : list A) y :
  y ∈ nub_on id l <-> y ∈ l.
Proof.
  split; [apply elem_of_nub_on|].
  induction l as [|x l IH]; simpl; [done|].
  rewrite !elem_of_cons, elem_of_List_filter.
  intros [->|Hy]; [by left|].
  destruct (decide (y = x)) as [->|Hne]; [by left|right].
  split; [by apply IH|]. unfold id. by rewrite bool_decide_eq_false_2.
Qed.

Lemma NoDup_List_filter {A} (P : A -> bool) (l : list A) :
  NoDup l -> NoDup (List.filter P l).
Proof.
  induction 1 as [|x l Hx _ IH]; simpl; [constructor|].
  destruct (P x); [|done]. constructor; [|done].
  rewrite elem_of_List_filter. tauto.
Qed.

Lemma List_filter_all {A} (P : A -> bool) (l : list A) :
  (forall x, x ∈ l -> P x = true) -> List.filter P l = l.
Proof.
  induction l as [|x l IH]; intros H; simpl; [done|].
  rewrite (H x) by left. f_equal. apply IH. intros y Hy. apply H. by right.
Qed.

Lemma List_filter_none {A} (P : A -> bool) (l : list A) :
  (forall x, x ∈ l -> P x = false) -> List.filter P l = [].
Proof.
  induction l as [|x l IH]; intros H; simpl; [done|].
  rewrite (H x) by left. apply IH. intros y Hy. apply H. by right.
Qed.

Lemma NoDup_nub_id {A} `{EqDecision A} (l : list A) : NoDup (nub_on id l).
Proof.
  induction l as [|x l IH]; simpl; constructor.
  - rewrite elem_of_List_filter. unfold id. intros [_ Hx].
    by rewrite bool_decide_eq_true_2 in Hx.
  - by apply NoDup_List_filter.
Qed.

Lemma map_List_filter {A B} (f : A -> B) (P : B -> bool) (l : list A) :
  map f (List.filter (fun x => P (f x)) l) = List.filter P (map f l).
Proof.
  induction l as [|x l IH]; simpl; [done|].
  destruct (P (f x)); simpl; by rewrite IH.
Qed.

Lemma map_nub_on {A B} `{EqDecision B} (f : A -> B) (l : list A) :
  map f (nub_on f l) = nub_on id (map f l).
Proof.
  induction l as [|x l IH]; simpl; [done|]. f_equal.
  rewrite <- IH.
  pose proof (map_List_filter f (fun z : B => negb (bool_decide (z = f x)))
                              (nub_on f l)) as Hm.
  exact Hm.
Qed.

(** Every value of [f] on the list is the value of a kept element. *)
Lemma nub_on_covers {A B} `{EqDecision B} (f : A -> B) (l : list A) x :
  x ∈ l -> exists y, y ∈ nub_on f l /\ f y = f x.
Proof.
  intros Hx.
  assert (Hfx : f x ∈ map f (nub_on f l)).
  { rewrite map_nub_on. apply elem_of_nub_id, list_elem_of_In, in_map.
    by apply list_elem_of_In. }
  apply list_elem_of_In, in_map_iff in Hfx as (y & Hy & Hin).
  exists y. split; [by apply list_elem_of_In|done].
Qed.

(** *** Grouping is a rearrangement *)

Lemma flat_map_filter_cons {A B} `{EqDecision B} (f : A -> B) (x : A)
      (l : list A) (gs : list B) :
  NoDup gs ->
  flat_map (fun g => List.filter (fun y => bool_decide (f y = g)) (x :: l)) gs
  ≡ₚ (if bool_decide (f x ∈ gs) then [x] else [])
     ++ flat_map (fun g => List.filter (fun y => bool_decide (f y = g)) l) gs.
Proof.
  induction 1 as [|g gs Hg _ IH]; [done|].
  cbn [flat_map List.filter]. rewrite IH. clear IH.
  destruct (decide (f x = g)) as [<-|Hne].
  - rewrite bool_decide_eq_true_2 by done.
    rewrite (bool_decide_eq_true_2 (f x ∈ f x :: gs)) by left.
    rewrite (bool_decide_eq_false_2 (f x ∈ gs)) by done. done.
  - rewrite (bool_decide_eq_false_2 (f x = g)) by done.
    destruct (decide (f x ∈ gs)) as [Hin|Hin].
    + rewrite (bool_decide_eq_true_2 (f x ∈ gs)) by done.
      rewrite (bool_decide_eq_true_2 (f x ∈ g :: gs)) by (by right).
      simpl. by rewrite Permutation_middle.
    + rewrite (bool_decide_eq_false_2 (f x ∈ gs)) by done.
      rewrite (bool_decide_eq_false_2 (f x ∈ g :: gs)); [done|].
      rewrite elem_of_cons. by intros [?|?].
Qed.

Lemma group_by_Permutation {A B} `{EqDecision B} (f : A -> B) (l : list A)
      (gs : list B) :
  NoDup gs -> (forall x, x ∈ l -> f x ∈ gs) ->
  flat_map (fun g => List.filter (fun y => bool_decide (f y = g)) l) gs ≡ₚ l.
Proof.
  intros Hnd. induction l as [|x l IH]; intros Hcov.
  - clear. induction gs as [|g gs IH]; [done|]. simpl. exact IH.
  - rewrite flat_map_filter_cons by done.
    rewrite bool_decide_eq_true_2 by (apply Hcov; left).
    simpl. constructor. apply IH. intros y Hy. apply Hcov. by right.
Qed.

(** *** Grouping and variant dimensions *)

Lemma one_in_filter {A} (P : A -> bool) (l : list A) :
  (1 <= length (List.filter P l))%nat <->
  exists i x, l !! i = Some x /\ P x = true.
Proof.
  induction l as [|a l IH]; simpl.
  - split; [lia|]. by intros (i & x & Hi & _).
  - destruct (P a) eqn:Ha; simpl.
    + split; [|lia]. intros _. by exists 0%nat, a.
    + rewrite IH. split.
      * intros (i & x & Hi & Hx). by exists (S i), x.
      * intros ([|i] & x & Hi & Hx); simpl in Hi; [congruence|]. by exists i, x.
Qed.

Lemma two_in_filter {A} (P : A -> bool) (l : list A) :
  (2 <= length (List.filter P l))%nat <->
  exists i j x y,
    i <> j /\ l !! i = Some x /\ l !! j = Some y /\ P x = true /\ P y = true.
Proof.
  induction l as [|a l IH]; simpl.
  - split; [lia|]. by intros (i & j & x & y & _ & Hi & _).
  - destruct (P a) eqn:Ha; simpl.
    + transitivity (1 <= length (List.filter P l))%nat; [lia|].
      rewrite one_in_filter. split.
      * intros (i & x & Hi & Hx). by exists 0%nat, (S i), a, x.
      * intros ([|i] & [|j] & x & y & Hne & Hi & Hj & Hx & Hy); simpl in *;
          [done|by exists j, y|by exists i, x|by exists i, x].
    + rewrite IH. split.
      * intros (i & j & x & y & Hne & Hi & Hj & Hx & Hy).
        exists (S i), (S j), x, y. repeat split; try done. congruence.
      * intros ([|i] & [|j] & x & y & Hne & Hi & Hj & Hx & Hy); simpl in *;
          try congruence.
        exists i, j, x, y. repeat split; try done. congruence.
Qed.

(** With more than one pattern entry the computed grouping dimensions are
    those of the specification. *)
Lemma elem_of_group_dims (p0 c1 : regex) (comps : list regex) d :
  d ∈ group_dims (p0 :: c1 :: comps) <-> grouping_dimension (p0 :: c1 :: comps) d.
Proof.
  set (pats := p0 :: c1 :: comps).
  assert (Hgd : group_dims pats
                = List.filter (shared pats) (nub_on id (flat_map Re.names pats))) by done.
  rewrite Hgd. clear Hgd.
  rewrite elem_of_List_filter, elem_of_nub_id.
  unfold shared, entries_with, grouping_dimension.
  rewrite Nat.leb_le, two_in_filter. split.
  - intros (_ & i & j & p & q & Hne & Hi & Hj & Hp & Hq).
    apply bool_decide_eq_true in Hp, Hq. by exists i, j, p, q.
  - intros (i & j & p & q & Hne & Hi & Hj & Hp & Hq). split.
    + apply list_elem_of_In, in_flat_map. exists p. split.
      * by apply list_elem_of_In, list_elem_of_lookup_2 with i.
      * by apply list_elem_of_In.
    + exists i, j, p, q. by rewrite !bool_decide_eq_true.
Qed.

Lemma values_of_eq dims (m m' : captures) :
  values_of dims m = values_of dims m'
  <-> forall d, d ∈ dims -> lookup_cap d m = lookup_cap d m'.
Proof.
  unfold values_of. induction dims as [|d dims IH]; simpl.
  - split; [|done]. intros _ d Hd. by apply elem_of_nil in Hd.
  - split.
    + intros [= Hd Hrest] d' [->|Hd']%elem_of_cons; [done|]. by apply IH.
    + intros H. f_equal; [apply H; left|]. apply IH. intros d' Hd'. apply H. by right.
Qed.

(** The group of a match tells its values on the grouping dimensions. *)
Lemma group_of_eq gd (m m' : captures) :
  group_of gd m = group_of gd m'
  <-> forall d, d ∈ gd -> lookup_cap d m = lookup_cap d m'.
Proof.
  rewrite <- values_of_eq.
  destruct gd as [|d [|d' gd]]; simpl; split; intros H; congruence.
Qed.

(** The tuple of the values of the grouping dimensions identifies the
    cluster. *)
Lemma group_of_same_cluster (p0 c1 : regex) (comps : list regex) (m m' : captures) :
  group_of (group_dims (p0 :: c1 :: comps)) m
  = group_of (group_dims (p0 :: c1 :: comps)) m'
  <-> same_cluster (p0 :: c1 :: comps) m m'.
Proof.
  rewrite group_of_eq. unfold same_cluster.
  split; intros H d Hd; apply H; by apply elem_of_group_dims.
Qed.

Lemma same_cluster_refl pats (m : captures) : same_cluster pats m m.
Proof. by intros d _. Qed.

(** With more than one pattern entry the computed variant dimensions are
    those of the specification. *)
Lemma elem_of_variant_dims (p0 c1 : regex) (comps : list regex) d :
  d ∈ variant_dims (p0 :: c1 :: comps) <-> variant_dimension (p0 :: c1 :: comps) d.
Proof.
  set (pats := p0 :: c1 :: comps).
  assert (Hvd : variant_dims pats
                = List.filter (fun d => negb (bool_decide (d ∈ group_dims pats)))
                              (Re.names p0)) by done.
  rewrite Hvd. clear Hvd.
  rewrite elem_of_List_filter, negb_true_iff, bool_decide_eq_false.
  unfold pats. rewrite elem_of_group_dims. unfold variant_dimension. split.
  - intros [Hd Hng]. split; [by exists p0|].
    intros i p Hi Hne Hin. apply Hng.
    exists 0%nat, i, p0, p. repeat split; try done; congruence.
  - intros [(p & [= <-] & Hd) Hno]. split; [done|].
    intros (i & j & p & q & Hne & Hi & Hj & Hp & Hq).
    destruct i as [|i].
    + destruct j as [|j]; [done|]. by apply (Hno (S j) q).
    + by apply (Hno (S i) p).
Qed.

Lemma values_of_same_variant (p0 c1 : regex) (comps : list regex) (m m' : captures) :
  values_of (variant_dims (p0 :: c1 :: comps)) m
  = values_of (variant_dims (p0 :: c1 :: comps)) m'
  <-> same_variant (p0 :: c1 :: comps) m m'.
Proof.
  rewrite values_of_eq. unfold same_variant.
  split; intros H d Hd; apply H; by apply elem_of_variant_dims.
Qed.

(** *** Primary matches *)

Lemma primary_match_Some gd vd p key pm :
  primary_match gd vd p key = Some pm ->
  exists m, match_ p key = Some m
            /\ pm = mkPrimary key (group_of gd m) (values_of vd m).
Proof.
  unfold primary_match. destruct (match_ p key) as [m|]; [|done].
  intros [= <-]. by exists m.
Qed.

Lemma primary_match_key gd vd p key pm :
  primary_match gd vd p key = Some pm -> pkey pm = key /\ matches p key = true.
Proof.
  unfold primary_match, matches. destruct (match_ p key); [|done].
  by intros [= <-].
Qed.

Lemma primary_match_None gd vd p key :
  primary_match gd vd p key = None -> matches p key = false.
Proof. unfold primary_match, matches. by destruct (match_ p key). Qed.

Lemma elem_of_primaries gd vd p keys pm :
  pm ∈ primaries gd vd p keys
  <-> exists k, k ∈ keys /\ primary_match gd vd p k = Some pm.
Proof. apply list_elem_of_omap. Qed.

(** A recorded primary match: its key is a key of the store, and its group
    and variant are those of the match of the pattern on that key. *)
Lemma primaries_inv gd vd p keys pm :
  pm ∈ primaries gd vd p keys ->
  pkey pm ∈ keys
  /\ exists m, match_ p (pkey pm) = Some m
               /\ pgroup pm = group_of gd m /\ pvariant pm = values_of vd m.
Proof.
  intros (k & Hk & Hm)%elem_of_primaries.
  destruct (primary_match_Some _ _ _ _ _ Hm) as (m & Hmatch & ->). simpl.
  split; [done|]. by exists m.
Qed.

Lemma primaries_intro gd vd p keys k m :
  k ∈ keys -> match_ p k = Some m ->
  mkPrimary k (group_of gd m) (values_of vd m) ∈ primaries gd vd p keys.
Proof.
  intros Hk Hm. apply elem_of_primaries. exists k. split; [done|].
  unfold primary_match. by rewrite Hm.
Qed.

Lemma map_pkey_primaries gd vd p keys :
  map pkey (primaries gd vd p keys) = List.filter (matches p) keys.
Proof.
  unfold primaries. induction keys as [|k keys IH]; [done|]. csimpl.
  destruct (primary_match gd vd p k) as [m|] eqn:Hm.
  - destruct (primary_match_key _ _ _ _ _ Hm) as [Hk ->]. simpl. by rewrite IH, Hk.
  - by rewrite (primary_match_None _ _ _ _ Hm).
Qed.

Lemma in_group_spec gd p g key :
  in_group gd p g key = true
  <-> exists m, match_ p key = Some m /\ group_of gd m = g.
Proof.
  unfold in_group. destruct (match_ p key) as [c|].
  - rewrite bool_decide_eq_true. split.
    + intros Hg. by exists c.
    + by intros (m & [= <-] & Hg).
  - split; [done|]. by intros (m & ? & _).
Qed.

(** *** SINGLE cardinality *)

Lemma flat_map_map {A B C} (F : B -> C) (h : A -> list B) (l : list A) :
  flat_map (fun a => map F (h a)) l = map F (flat_map h l).
Proof.
  induction l as [|a l IH]; simpl; [done|]. by rewrite IH, map_app.
Qed.

(** Up to the order of the groups, a one-pattern spec yields the unit of
    each primary match. *)
Lemma resolve_single keys spec p :
  patterns spec = [p] ->
  exists us, resolve keys spec = Resolved us
             /\ us ≡ₚ map (unit_of_match spec)
                          (primaries (group_dims [p]) (variant_dims [p]) p keys).
Proof.
  intros Hp. unfold resolve. rewrite Hp. eexists. split; [reflexivity|].
  unfold units_for_group.
  rewrite (flat_map_ext _
             (fun g => map (unit_of_match spec)
                         (List.filter (fun m => bool_decide (pgroup m = g))
                                      (primaries (group_dims [p]) (variant_dims [p]) p keys)))).
  2:{ intros g. apply map_ext_in. intros m [_ Hg]%filter_In.
      apply bool_decide_eq_true in Hg. unfold unit_of_match. by rewrite Hg. }
  rewrite flat_map_map. apply Permutation_map.
  apply group_by_Permutation; [apply NoDup_nub_id|].
  intros m Hm. apply elem_of_nub_id, list_elem_of_In, in_map.
  by apply list_elem_of_In.
Qed.

Lemma flat_map_primaryKeys_single spec ms :
  flat_map primaryKeys (map (unit_of_match spec) ms) = map pkey ms.
Proof. induction ms as [|m ms IH]; simpl; [done|]. by rewrite IH. Qed.

Lemma single_general keys spec p :
  patterns spec = [p] -> NoDup keys ->
  exists us,
    resolve keys spec = Resolved us
    /\ length us = length (List.filter (matches p) keys)
    /\ Forall (fun u => length (primaryKeys u) = 1%nat) us
    /\ NoDup (flat_map primaryKeys us)
    /\ (forall k, k ∈ flat_map primaryKeys us <-> k ∈ keys /\ matches p k = true).
Proof.
  intros Hp Hnd. destruct (resolve_single keys spec p Hp) as (us & Hr & Hperm).
  exists us. split; [done|].
  assert (Hpk : flat_map primaryKeys us ≡ₚ List.filter (matches p) keys).
  { rewrite Hperm, flat_map_primaryKeys_single. by rewrite map_pkey_primaries. }
  split; [|split; [|split]].
  - rewrite Hperm, length_map, <- (length_map pkey). by rewrite map_pkey_primaries.
  - rewrite Hperm. apply Forall_forall. intros u Hu.
    apply list_elem_of_In, in_map_iff in Hu as (m & <- & _). done.
  - rewrite Hpk. by apply NoDup_List_filter.
  - intros k. rewrite Hpk. apply elem_of_List_filter.
Qed.

Lemma single_scenario keys :
  keys ≡ₚ keys1 ->
  exists us, resolve keys ImpDigger1 = Resolved us /\ us ≡ₚ units1.
Proof.
  intros Hk.
  destruct (resolve_single keys ImpDigger1 _ eq_refl) as (us & Hr & Hperm).
  exists us. split; [done|]. rewrite Hperm.
  unfold primaries. rewrite Hk. vm_compute. reflexivity.
Qed.

(** C1.  A one-pattern (SINGLE) spec over distinct keys yields as many
    units as keys match the pattern, each with a single primary key, no
    key in two units, and every matching key in one.  On the keys of the
    first scenario, in any order, [ImpDigger1] yields the four expected
    units, the one for ["da/i-p-f"] with group ["da"], auxiliary keys
    ["g/c"] and ["his/n"] and label ["i_p_f"]; in the listed order the
    units come in the order of the keys. *)
Theorem single_one_unit_per_matching_key :
  (forall keys spec p,
      patterns spec = [p] -> NoDup keys ->
      exists us,
        resolve keys spec = Resolved us
        /\ cardinality_of spec = Some SINGLE
        /\ length us = length (List.filter (matches p) keys)
        /\ Forall (fun u => length (primaryKeys u) = 1%nat) us
        /\ NoDup (flat_map primaryKeys us)
        /\ (forall k, k ∈ flat_map primaryKeys us <-> k ∈ keys /\ matches p k = true))
  /\ (forall keys, keys ≡ₚ keys1 ->
      exists us,
        resolve keys ImpDigger1 = Resolved us
        /\ length us = 4%nat
        /\ mkUnit "da" ["da/i-p-f"] ["g/c"; "his/n"] "i_p_f" ∈ us
        /\ forall u, u ∈ us -> "da/i-p-f" ∈ primaryKeys u ->
                     u = mkUnit "da" ["da/i-p-f"] ["g/c"; "his/n"] "i_p_f")
  /\ resolve keys1 ImpDigger1 = Resolved units1.
Proof.
  split; [|split].
  - intros keys spec p Hp Hnd.
    destruct (single_general keys spec p Hp Hnd) as (us & Hr & Hrest).
    exists us. split; [done|]. split; [|done].
    unfold cardinality_of. by rewrite Hp.
  - intros keys (us & Hr & Hperm)%single_scenario.
    exists us. split; [done|]. split; [by rewrite Hperm|]. split.
    + rewrite Hperm. by left.
    + intros u Hu Hk. rewrite Hperm in Hu. unfold units1 in Hu.
      repeat (apply elem_of_cons in Hu as [->|Hu]; [try done|]).
      * simpl in Hk. apply list_elem_of_singleton in Hk. discriminate.
      * simpl in Hk. apply list_elem_of_singleton in Hk. discriminate.
      * simpl in Hk. apply list_elem_of_singleton in Hk. discriminate.
      * by apply elem_of_nil in Hu.
  - reflexivity.
Qed.


(** *** MULTI cardinality *)

Lemma elem_of_companions gd p g keys k :
  k ∈ companions gd p g keys <-> k ∈ keys /\ in_group gd p g k = true.
Proof.
  unfold companions.
  by rewrite elem_of_sorted, elem_of_nub_id, elem_of_List_filter.
Qed.

Lemma companions_Sorted gd p g keys : Sorted str_le (companions gd p g keys).
Proof. apply sorted_Sorted. Qed.

Lemma companions_NoDup gd p g keys : NoDup (companions gd p g keys).
Proof. unfold companions. rewrite sorted_Permutation. apply NoDup_nub_id. Qed.

Lemma complete_ALL k (cs : list (list string)) :
  complete ALL k cs = true <-> forall l, l ∈ cs -> l <> [].
Proof.
  unfold complete. rewrite forallb_forall. split.
  - intros H l Hl%list_elem_of_In. specialize (H l Hl).
    by apply negb_true_iff, bool_decide_eq_false in H.
  - intros H l Hl%list_elem_of_In.
    apply negb_true_iff, bool_decide_eq_false. by apply H.
Qed.

Lemma NoDup_flat_map_if {A B} (f : A -> B) (c : A -> bool) (l : list A) :
  NoDup (map f l) -> NoDup (flat_map (fun a => if c a then [f a] else []) l).
Proof.
  induction l as [|a l IH]; simpl; [constructor|].
  intros [Ha Hl]%NoDup_cons. specialize (IH Hl).
  destruct (c a); simpl; [|done]. constructor; [|done].
  intros (b & Hb & Hin)%list_elem_of_In%in_flat_map. apply Ha.
  destruct (c b); [|done]. destruct Hin as [<-|[]].
  by apply list_elem_of_In, in_map.
Qed.

Lemma map_flat_map_if {A B C} (U : A -> B) (k : B -> C) (c : A -> bool) (l : list A) :
  map k (flat_map (fun a => if c a then [U a] else []) l)
  = flat_map (fun a => if c a then [k (U a)] else []) l.
Proof.
  induction l as [|a l IH]; simpl; [done|].
  rewrite map_app, IH. by destruct (c a).
Qed.

Lemma flat_map_ext_elem {A B} (F G : A -> list B) (l : list A) :
  (forall a, a ∈ l -> F a = G a) -> flat_map F l = flat_map G l.
Proof.
  induction l as [|a l IH]; intros H; simpl; [done|].
  rewrite (H a) by left. f_equal. apply IH. intros b Hb. apply H. by right.
Qed.

Lemma NoDup_map_inj {A B} (f : A -> B) (l : list A) :
  (forall x y, f x = f y -> x = y) -> NoDup l -> NoDup (map f l).
Proof.
  intros Hinj. induction 1 as [|x l Hx _ IH]; simpl; constructor; [|done].
  intros (y & Hy%Hinj & Hin)%list_elem_of_In%in_map_iff. subst y.
  by apply Hx, list_elem_of_In.
Qed.

Lemma NoDup_flat_map_blocks {A B} (tag : B -> A) (F : A -> list B) (gs : list A) :
  NoDup gs ->
  (forall g, NoDup (F g)) ->
  (forall g x, x ∈ F g -> tag x = g) ->
  NoDup (flat_map F gs).
Proof.
  intros Hgs Hblock Htag. induction Hgs as [|g gs Hg _ IH]; simpl; [constructor|].
  apply NoDup_app. split; [apply Hblock|]. split; [|exact IH].
  intros x Hx (g' & Hg' & Hin)%list_elem_of_In%in_flat_map.
  apply list_elem_of_In in Hg', Hin.
  rewrite <- (Htag _ _ Hx), (Htag _ _ Hin) in Hg. done.
Qed.

Section Multi.
Variables (keys : list string) (spec : PatternSpec).
Variables (p0 c1 : regex) (comps : list regex).
Hypothesis Hp : patterns spec = p0 :: c1 :: comps.

Local Abbreviation pats := (p0 :: c1 :: comps).
Local Abbreviation gd := (group_dims pats).
Local Abbreviation vd := (variant_dims pats).
Local Abbreviation ms := (primaries gd vd p0 keys).
Local Abbreviation units :=
  (flat_map (units_for_group spec gd (c1 :: comps) keys ms)
            (nub_on id (map pgroup ms))).

Lemma resolve_multi : resolve keys spec = Resolved units.
Proof. unfold resolve. by rewrite Hp. Qed.

(** The companion matches inside the group of a match are the matches
    inside its cluster. *)
Lemma companions_cluster (m0 : captures) p k :
  k ∈ companions gd p (group_of gd m0) keys
  <-> k ∈ keys /\ match_in_cluster pats m0 p k.
Proof.
  rewrite elem_of_companions, in_group_spec. unfold match_in_cluster.
  split; intros [Hk (m & Hm & Hg)]; (split; [done|]); exists m; (split; [done|]).
  - by apply group_of_same_cluster.
  - symmetry. by apply group_of_same_cluster.
Qed.

(** What a unit of a multi-pattern spec is made of. *)
Lemma unit_inv u :
  u ∈ units ->
  exists pm m,
    pm ∈ ms /\ pkey pm ∈ keys /\ match_ p0 (pkey pm) = Some m
    /\ group u = group_of gd m
    /\ pvariant pm = values_of vd m
    /\ primaryKeys u =
       pkey pm :: concat (map (fun p => companions gd p (group_of gd m) keys)
                              (c1 :: comps))
    /\ complete (completeness_of spec) (pkey pm)
                (map (fun p => companions gd p (group_of gd m) keys) (c1 :: comps))
       = true.
Proof.
  intros (g & _ & Hu)%list_elem_of_In%in_flat_map.
  unfold units_for_group in Hu.
  apply in_flat_map in Hu as (pm & Hpm%list_elem_of_In%elem_of_nub_on & Hu).
  apply elem_of_List_filter in Hpm as [Hpm Hg%bool_decide_eq_true].
  destruct (primaries_inv _ _ _ _ _ Hpm) as (Hk & m & Hm & Hgm & Hvm).
  destruct (complete _ _ _) eqn:Hc; [|done]. destruct Hu as [<-|[]].
  exists pm, m. rewrite <- Hgm, Hg. repeat split; done.
Qed.

Lemma unit_intro pm g :
  pm ∈ nub_on pvariant (List.filter (fun m => bool_decide (pgroup m = g)) ms) ->
  complete (completeness_of spec) (pkey pm)
           (map (fun p => companions gd p g keys) (c1 :: comps)) = true ->
  mk_unit spec g (pkey pm :: concat (map (fun p => companions gd p g keys) (c1 :: comps)))
  ∈ units.
Proof.
  intros Hpm Hc. apply list_elem_of_In, in_flat_map. exists g. split.
  - apply list_elem_of_In, elem_of_nub_id, list_elem_of_In, in_map_iff.
    apply elem_of_nub_on, elem_of_List_filter in Hpm as [Hpm Hg%bool_decide_eq_true].
    exists pm. split; [done|]. by apply list_elem_of_In.
  - unfold units_for_group. apply in_flat_map. exists pm.
    split; [by apply list_elem_of_In|]. rewrite Hc. by left.
Qed.

Local Abbreviation kappa := (unit_key vd p0).

Lemma kappa_unit pm g rest :
  pm ∈ ms -> kappa (mk_unit spec g (pkey pm :: rest)) = (g, Some (pvariant pm)).
Proof.
  intros (_ & m & Hm & _ & Hv)%primaries_inv.
  unfold unit_key, primary_capture. simpl. by rewrite Hm, Hv.
Qed.

Lemma kappa_group g :
  NoDup (map kappa (units_for_group spec gd (c1 :: comps) keys ms g))
  /\ forall x, x ∈ map kappa (units_for_group spec gd (c1 :: comps) keys ms g) -> x.1 = g.
Proof.
  unfold units_for_group.
  set (mine := nub_on pvariant
                      (List.filter (fun m => bool_decide (pgroup m = g)) ms)).
  set (cs := map (fun p => companions gd p g keys) (c1 :: comps)).
  rewrite (map_flat_map_if (fun m => mk_unit spec g (pkey m :: concat cs)) kappa
             (fun m => complete (completeness_of spec) (pkey m) cs) mine).
  rewrite (flat_map_ext_elem _
             (fun m => if complete (completeness_of spec) (pkey m) cs
                       then [(g, Some (pvariant m))] else [])).
  2:{ intros pm Hpm%elem_of_nub_on%elem_of_List_filter.
      destruct Hpm as [Hpm _]. by rewrite (kappa_unit pm g _ Hpm). }
  split.
  - apply (NoDup_flat_map_if (fun m => (g, Some (pvariant m)))).
    assert (Hmap : map (fun m => (g, Some (pvariant m))) mine
                   = map (fun v => (g, Some v)) (map pvariant mine))
      by by rewrite map_map.
    rewrite Hmap. apply NoDup_map_inj.
    { by intros v v' [= ->]. }
    unfold mine. rewrite map_nub_on. apply NoDup_nub_id.
  - intros x (pm & _ & Hx)%list_elem_of_In%in_flat_map.
    destruct (complete _ _ _); [|done]. by destruct Hx as [<-|[]].
Qed.

Lemma NoDup_kappa : NoDup (map kappa units).
Proof.
  rewrite <- flat_map_map.
  apply (NoDup_flat_map_blocks fst
           (fun g => map kappa (units_for_group spec gd (c1 :: comps) keys ms g))).
  - apply NoDup_nub_id.
  - intros g. apply kappa_group.
  - intros g x Hx. by apply kappa_group.
Qed.

(** Two units with the same group and the same variant values are one
    unit of the list. *)
Lemma units_unique i j u u' :
  units !! i = Some u -> units !! j = Some u' -> kappa u = kappa u' -> i = j.
Proof.
  intros Hi Hj Hk.
  apply (NoDup_lookup (map kappa units) i j (kappa u)); [apply NoDup_kappa| |].
  - by rewrite list_lookup_fmap, Hi.
  - by rewrite list_lookup_fmap, Hj, Hk.
Qed.


(** The first primary key of a unit is a key of the store that the
    primary pattern matches, and the unit's group is the group of that
    match. *)
Lemma unit_capture u :
  u ∈ units ->
  exists m, primary_capture p0 u = Some m
            /\ hd "" (primaryKeys u) ∈ keys
            /\ group u = group_of gd m.
Proof.
  intros (pm & m & _ & Hk & Hm & Hg & _ & Hpk & _)%unit_inv.
  exists m. unfold primary_capture. rewrite Hpk. simpl. by rewrite Hm.
Qed.

Lemma units_same_group u u' m m' :
  u ∈ units -> u' ∈ units ->
  primary_capture p0 u = Some m -> primary_capture p0 u' = Some m' ->
  group u = group u' <-> same_cluster pats m m'.
Proof.
  intros (m1 & Hm1 & _ & Hg1)%unit_capture (m2 & Hm2 & _ & Hg2)%unit_capture Hm Hm'.
  rewrite Hm1 in Hm. rewrite Hm2 in Hm'. simplify_eq.
  rewrite Hg1, Hg2. apply group_of_same_cluster.
Qed.

(** With completeness ALL, a cluster in which some pattern has no match
    has no unit. *)
Lemma multi_all_missing k0 (m0 : captures) p u m :
  completeness_of spec = ALL ->
  k0 ∈ keys -> match_ p0 k0 = Some m0 ->
  p ∈ pats -> (forall k, k ∈ keys -> ~ match_in_cluster pats m0 p k) ->
  u ∈ units -> primary_capture p0 u = Some m -> ~ same_cluster pats m0 m.
Proof.
  intros Hall Hk0 Hm0 Hin Hno Hu Hm Hsame.
  apply elem_of_cons in Hin as [->|Hin].
  { apply (Hno k0 Hk0). exists m0. split; [done|apply same_cluster_refl]. }
  destruct (unit_inv _ Hu) as (pm & m1 & _ & _ & Hm1 & _ & _ & Hpk & Hc).
  unfold primary_capture in Hm. rewrite Hpk in Hm. simpl in Hm.
  rewrite Hm1 in Hm. simplify_eq.
  rewrite Hall in Hc. rewrite complete_ALL in Hc.
  assert (Hg : group_of gd m = group_of gd m0)
    by (symmetry; by apply group_of_same_cluster).
  rewrite Hg in Hc.
  specialize (Hc (companions gd p (group_of gd m0) keys)).
  destruct (companions gd p (group_of gd m0) keys) as [|k l] eqn:Hco.
  - apply Hc; [|done]. apply list_elem_of_In, in_map_iff. exists p.
    split; [done|by apply list_elem_of_In].
  - assert (Hkin : k ∈ companions gd p (group_of gd m0) keys)
      by (rewrite Hco; left).
    apply companions_cluster in Hkin as [Hk Hcl]. by apply (Hno k).
Qed.

(** With completeness ALL, a cluster in which every pattern has a match
    has a unit for each of its variants. *)
Lemma multi_all_satisfied (m0 : captures) k m :
  completeness_of spec = ALL ->
  (forall p, p ∈ pats -> exists k', k' ∈ keys /\ match_in_cluster pats m0 p k') ->
  k ∈ keys -> match_ p0 k = Some m -> same_cluster pats m0 m ->
  exists u m', u ∈ units /\ primary_capture p0 u = Some m'
               /\ same_cluster pats m0 m' /\ same_variant pats m m'.
Proof.
  intros Hall Hsat Hk Hm Hsame.
  set (g := group_of gd m0).
  assert (Hg : group_of gd m = g)
    by (symmetry; by apply group_of_same_cluster).
  pose proof (primaries_intro gd vd p0 keys k m Hk Hm) as Hpm.
  set (pm := mkPrimary k (group_of gd m) (values_of vd m)) in Hpm.
  assert (Hmine : pm ∈ List.filter (fun x => bool_decide (pgroup x = g)) ms).
  { apply elem_of_List_filter. split; [done|]. by apply bool_decide_eq_true. }
  destruct (nub_on_covers pvariant _ _ Hmine) as (pm' & Hpm' & Hv).
  assert (Hc : complete (completeness_of spec) (pkey pm')
                        (map (fun p => companions gd p g keys) (c1 :: comps)) = true).
  { rewrite Hall. apply complete_ALL.
    intros l (p & <- & Hpin%list_elem_of_In)%list_elem_of_In%in_map_iff Hnil.
    destruct (Hsat p) as (k' & Hk' & Hcl); [by right|].
    assert (Hin : k' ∈ companions gd p g keys) by by apply companions_cluster.
    rewrite Hnil in Hin. by apply elem_of_nil in Hin. }
  pose proof (unit_intro pm' g Hpm' Hc) as Hu.
  apply elem_of_nub_on, elem_of_List_filter in Hpm' as [Hin' Hg'%bool_decide_eq_true].
  destruct (primaries_inv _ _ _ _ _ Hin') as (_ & m' & Hm' & Hgm' & Hvm').
  eexists _, m'. split; [exact Hu|]. split; [|split].
  - unfold primary_capture. simpl. exact Hm'.
  - apply group_of_same_cluster. fold g. by rewrite <- Hgm'.
  - apply values_of_same_variant. rewrite <- Hvm', Hv. done.
Qed.

(** No two units share cluster and variant. *)
Lemma multi_units_distinct i j u u' (m m' : captures) :
  units !! i = Some u -> units !! j = Some u' ->
  primary_capture p0 u = Some m -> primary_capture p0 u' = Some m' ->
  same_cluster pats m m' -> same_variant pats m m' -> i = j.
Proof.
  intros Hi Hj Hm Hm' Hc Hv. apply (units_unique i j u u' Hi Hj).
  unfold unit_key. rewrite Hm, Hm'. simpl. f_equal.
  - apply (units_same_group u u' m m'); try done.
    + by apply list_elem_of_lookup_2 with i.
    + by apply list_elem_of_lookup_2 with j.
  - f_equal. by apply values_of_same_variant.
Qed.

(** The primary keys of a unit: the primary key, then for each companion
    pattern in turn its matches inside the cluster. *)
Lemma multi_unit_keys u :
  u ∈ units ->
  exists k0 (m0 : captures) blocks,
    primaryKeys u = k0 :: concat blocks
    /\ k0 ∈ keys /\ match_ p0 k0 = Some m0
    /\ Forall2 (fun p block =>
                  Sorted str_le block /\ NoDup block
                  /\ forall k, k ∈ block <->
                               k ∈ keys /\ match_in_cluster pats m0 p k)
               (c1 :: comps) blocks.
Proof.
  intros (pm & m & _ & Hk & Hm & _ & _ & Hpk & _)%unit_inv.
  exists (pkey pm), m, (map (fun p => companions gd p (group_of gd m) keys) (c1 :: comps)).
  split; [done|]. split; [done|]. split; [done|].
  assert (H : forall l,
             Forall2 (fun p block =>
                        Sorted str_le block /\ NoDup block
                        /\ forall k, k ∈ block <->
                                     k ∈ keys /\ match_in_cluster pats m p k)
                     l (map (fun p => companions gd p (group_of gd m) keys) l)).
  { induction l as [|p l IH]; simpl; constructor; [|done].
    split; [apply companions_Sorted|]. split; [apply companions_NoDup|].
    intros k. apply companions_cluster. }
  apply H.
Qed.

End Multi.

(** C2.  A MULTI spec with completeness ALL.  The group of a unit tells
    the cluster of its primary key: two units have the same group exactly
    when the matches of the primary pattern on their first primary keys
    agree on every grouping dimension.  No two units share cluster and
    variant.  For the cluster of a primary match [m0]: when one of the
    patterns has no match inside the cluster, no unit belongs to it and no
    unit has its group; when every pattern has a match inside it, every
    variant of the cluster has a unit, so that with the above the cluster
    has exactly one unit per distinct variant value.  On the keys of the second scenario
    [ImpDigger2] yields two units, with primary keys ["his/i"], ["his/n"]
    and ["his/e"], ["his/n"]; on [keys_vg] the spec [spec_vg], whose shared
    capture is not the first one, yields the two units of group [1] and
    none for group [2], which lacks the companion. *)
Theorem multi_all_one_unit_per_variant :
  (forall keys spec p0 c1 comps,
      patterns spec = p0 :: c1 :: comps -> completeness_of spec = ALL ->
      exists us,
        resolve keys spec = Resolved us
        /\ cardinality_of spec = Some MULTI
        /\ (forall u, u ∈ us ->
              exists m, primary_capture p0 u = Some m
                        /\ hd "" (primaryKeys u) ∈ keys
                        /\ group u = group_of (group_dims (patterns spec)) m)
        /\ (forall u u' m m',
              u ∈ us -> u' ∈ us ->
              primary_capture p0 u = Some m -> primary_capture p0 u' = Some m' ->
              (group u = group u' <-> same_cluster (patterns spec) m m'))
        /\ (forall i j u u' m m',
              us !! i = Some u -> us !! j = Some u' ->
              primary_capture p0 u = Some m -> primary_capture p0 u' = Some m' ->
              same_cluster (patterns spec) m m' -> same_variant (patterns spec) m m' ->
              i = j)
        /\ forall k0 m0,
            k0 ∈ keys -> match_ p0 k0 = Some m0 ->
            ((exists p, p ∈ patterns spec
                        /\ forall k, k ∈ keys ->
                                     ~ match_in_cluster (patterns spec) m0 p k) ->
             (forall u m, u ∈ us -> primary_capture p0 u = Some m ->
                          ~ same_cluster (patterns spec) m0 m)
             /\ units_of_group (group_of (group_dims (patterns spec)) m0) us = [])
            /\ ((forall p, p ∈ patterns spec ->
                           exists k, k ∈ keys
                                     /\ match_in_cluster (patterns spec) m0 p k) ->
                forall k m, k ∈ keys -> match_ p0 k = Some m ->
                            same_cluster (patterns spec) m0 m ->
                            exists u m',
                              u ∈ us /\ primary_capture p0 u = Some m'
                              /\ same_cluster (patterns spec) m0 m'
                              /\ same_variant (patterns spec) m m'))
  /\ resolve keys2 ImpDigger2 = Resolved units2
  /\ map primaryKeys units2 = [["his/i"; "his/n"]; ["his/e"; "his/n"]]
  /\ resolve keys_vg spec_vg = Resolved units_vg.
Proof.
  split; [|repeat split; reflexivity].
  intros keys spec p0 c1 comps Hp Hall.
  pose proof (resolve_multi keys spec p0 c1 comps Hp) as Hr.
  set (us := flat_map _ _) in Hr.
  exists us. split; [exact Hr|].
  split; [unfold cardinality_of; by rewrite Hp|].
  rewrite Hp. split; [|split; [|split]].
  - intros u Hu. by apply (unit_capture keys spec p0 c1 comps).
  - intros u u' m m'. by apply (units_same_group keys spec p0 c1 comps).
  - intros i j u u' m m'. by apply (multi_units_distinct keys spec p0 c1 comps).
  - intros k0 m0 Hk0 Hm0. split.
    + intros (p & Hin & Hno).
      assert (Hnone : forall u m, u ∈ us -> primary_capture p0 u = Some m ->
                                  ~ same_cluster (p0 :: c1 :: comps) m0 m).
      { intros u m Hu Hm.
        by apply (multi_all_missing keys spec p0 c1 comps k0 m0 p u m). }
      split; [exact Hnone|].
      apply List_filter_none. intros u Hu. apply bool_decide_eq_false. intros Hg.
      destruct (unit_capture keys spec p0 c1 comps u Hu) as (m & Hm & _ & Hgm).
      apply (Hnone u m Hu Hm). apply group_of_same_cluster. by rewrite <- Hg, Hgm.
    + intros Hsat k m Hk Hm Hsame.
      by apply (multi_all_satisfied keys spec p0 c1 comps m0 k m).
Qed.

(** C3.  Under MULTI cardinality the primary keys of a unit are its
    primary key followed, for each companion pattern in pattern order, by
    the matches of that pattern inside the cluster of the primary key: each
    such block is sorted, free of duplicates, and holds exactly the keys of
    the store that the pattern matches with the values of the primary key
    on every grouping dimension.  So every companion match within the
    cluster is among the primary keys: all of them, not one of them.  On
    the keys of the third scenario [ImpDigger3], whose completeness list
    asks for an [x] and a [y] key, yields four units of three primary keys
    each, two for group [s0] and two for [s2]; without the [y] key of [s0]
    that group yields none. *)
Theorem multi_units_hold_every_companion :
  (forall keys spec p0 c1 comps,
      patterns spec = p0 :: c1 :: comps ->
      exists us,
        resolve keys spec = Resolved us
        /\ forall u, u ∈ us ->
             exists k0 m0 blocks,
               primaryKeys u = k0 :: concat blocks
               /\ k0 ∈ keys /\ match_ p0 k0 = Some m0
               /\ Forall2 (fun p block =>
                             Sorted str_le block /\ NoDup block
                             /\ forall k, k ∈ block <->
                                  k ∈ keys
                                  /\ match_in_cluster (patterns spec) m0 p k)
                          (c1 :: comps) blocks
               /\ (forall p k, p ∈ c1 :: comps -> k ∈ keys ->
                               match_in_cluster (patterns spec) m0 p k ->
                               k ∈ primaryKeys u))
  /\ resolve keys3 ImpDigger3 = Resolved units3
  /\ length units3 = 4%nat
  /\ Forall (fun u => length (primaryKeys u) = 3%nat) units3
  /\ length (units_of_group "s0" units3) = 2%nat
  /\ length (units_of_group "s2" units3) = 2%nat
  /\ resolve keys3_no_y ImpDigger3 = Resolved (units_of_group "s2" units3).
Proof.
  split.
  2:{ split; [reflexivity|]. split; [reflexivity|].
      split; [repeat constructor|]. repeat split; reflexivity. }
  intros keys spec p0 c1 comps Hp.
  eexists. split; [by apply resolve_multi|].
  intros u Hu.
  destruct (multi_unit_keys keys spec p0 c1 comps u Hu)
    as (k0 & m0 & blocks & Hpk & Hk0 & Hm0 & Hblocks).
  rewrite Hp.
  exists k0, m0, blocks. repeat (split; [done|]).
  intros p k Hpin Hk Hcl. rewrite Hpk. right.
  apply list_elem_of_lookup in Hpin as [i Hi].
  destruct (Forall2_lookup_l _ _ _ _ _ Hblocks Hi) as (block & Hb & _ & _ & Hiff).
  apply list_elem_of_In, in_concat. exists block. split.
  - by apply list_elem_of_In, list_elem_of_lookup_2 with i.
  - apply list_elem_of_In, Hiff. by split.
Qed.

End ResolverProps.

(** ** The resolver on the scenarios of the tests *)

Section ResolverScenarios.

(** C1 on the first scenario. *)
Lemma single_one_unit_per_matching_key_witness :
  exists us,
    resolve keys1 ImpDigger1 = Resolved us
    /\ length us = 4%nat
    /\ Forall (fun u => length (primaryKeys u) = 1%nat) us
    /\ NoDup (flat_map primaryKeys us).
Proof.
  destruct single_one_unit_per_matching_key as (Hgen & _ & _).
  destruct (Hgen keys1 ImpDigger1 _ eq_refl ltac:(compute_done))
    as (us & Hr & _ & Hlen & Hone & Hnd & _).
  exists us. split; [exact Hr|]. split; [rewrite Hlen; reflexivity|].
  split; [exact Hone|exact Hnd].
Defined.

(** C2 on [keys_vg]: the cluster of ["b-2"] has a primary match and no
    companion, and no unit has that key first; the cluster of ["a-1"] has
    a match of both patterns, and its variant [b] has a unit. *)
Lemma multi_all_one_unit_per_variant_witness :
  exists us,
    resolve keys_vg spec_vg = Resolved us
    /\ (forall u, u ∈ us -> hd "" (primaryKeys u) <> "b-2")
    /\ (exists u m', u ∈ us /\ primary_capture pat_vg u = Some m'
                     /\ lookup_cap "g" m' = Some "1"
                     /\ lookup_cap "v" m' = Some "b").
Proof.
  destruct multi_all_one_unit_per_variant as (Hgen & _).
  destruct (Hgen keys_vg spec_vg pat_vg pat_gn [] eq_refl eq_refl)
    as (us & Hr & _ & _ & _ & _ & Hcl).
  exists us. split; [exact Hr|]. split.
  - destruct (Hcl "b-2" [("g", "2"); ("v", "b")]) as [Hmiss _];
      [compute_done | vm_compute; reflexivity |].
    assert (Hno : exists p, p ∈ patterns spec_vg
                    /\ forall k, k ∈ keys_vg ->
                         ~ match_in_cluster (patterns spec_vg)
                                            [("g", "2"); ("v", "b")] p k).
    { exists pat_gn. split; [by right; left|].
      intros k Hk (m & Hm & Hs).
      apply (group_of_same_cluster pat_vg pat_gn []) in Hs.
      cbn in Hk.
      repeat (apply elem_of_cons in Hk as [->|Hk];
              [vm_compute in Hm; try discriminate Hm|]).
      - injection Hm as <-. vm_compute in Hs. discriminate Hs.
      - by apply elem_of_nil in Hk. }
    intros u Hu Hhd.
    apply (proj1 (Hmiss Hno) u [("g", "2"); ("v", "b")] Hu).
    + unfold primary_capture. rewrite Hhd. vm_compute. reflexivity.
    + apply same_cluster_refl.
  - destruct (Hcl "a-1" [("g", "1"); ("v", "a")]) as [_ Hsat];
      [compute_done | vm_compute; reflexivity |].
    destruct (Hsat) with (k := "b-1") (m := [("g", "1"); ("v", "b")])
      as (u & m' & Hu & Hm' & Hs & Hv);
      [ | compute_done | vm_compute; reflexivity | |].
    + intros p Hp. cbn in Hp.
      apply elem_of_cons in Hp as [->|Hp].
      { exists "a-1". split; [compute_done|]. eexists. split; [vm_compute; reflexivity|].
        apply same_cluster_refl. }
      apply elem_of_cons in Hp as [->|Hp]; [|by apply elem_of_nil in Hp].
      exists "1/n". split; [compute_done|]. eexists. split; [vm_compute; reflexivity|].
      apply (group_of_same_cluster pat_vg pat_gn []). vm_compute. reflexivity.
    + apply (group_of_same_cluster pat_vg pat_gn []). vm_compute. reflexivity.
    + exists u, m'. split; [exact Hu|]. split; [exact Hm'|]. split.
      * rewrite <- (Hs "g"); [reflexivity|].
        apply (elem_of_group_dims pat_vg pat_gn []). compute_done.
      * rewrite <- (Hv "v"); [reflexivity|].
        apply (elem_of_variant_dims pat_vg pat_gn []). compute_done.
Defined.

(** C3 on the third scenario: the first unit holds its primary key and
    both companion matches of the cluster of ["s0/p"]. *)
Lemma multi_units_hold_every_companion_witness :
  exists k0 blocks,
    ["s0/p"; "s0/x"; "s0/y"] = k0 :: concat blocks
    /\ k0 ∈ keys3
    /\ "s0/y" ∈ ["s0/p"; "s0/x"; "s0/y"].
Proof.
  destruct multi_units_hold_every_companion as (Hgen & _).
  destruct (Hgen keys3 ImpDigger3 _ _ _ eq_refl) as (us & Hr & Hu).
  assert (Hus : us = units3).
  { assert (Hc : resolve keys3 ImpDigger3 = Resolved units3) by reflexivity.
    rewrite Hr in Hc. by injection Hc. }
  subst us.
  destruct (Hu (mkUnit "s0" ["s0/p"; "s0/x"; "s0/y"] ["g/c"] "p"))
    as (k0 & m0 & blocks & Hpk & Hk0 & Hm0 & _ & Hall); [by left|].
  exists k0, blocks. split; [exact Hpk|]. split; [exact Hk0|].
  apply (Hall (seqs [Bol; sect_sd; Lit "/"; Alt (Lit "x") (Lit "y"); Eol]) "s0/y");
    [by left|compute_done|].
  injection Hpk as <- _.
  eexists. split; [vm_compute; reflexivity|].
  apply (group_of_same_cluster _ _ []).
  vm_compute in Hm0. injection Hm0 as <-. vm_compute. reflexivity.
Defined.

End ResolverScenarios.

(** ** Strings, substrings and literal patterns *)

Section Strings.

Lemma append_cons x (a t : string) : String x a ++ t = String x (a ++ t).
Proof. reflexivity. Qed.

Lemma append_nil (t : string) : "" ++ t = t.
Proof. reflexivity. Qed.

Lemma prefix_spec a b : String.prefix a b = true <-> exists t, b = a ++ t.
Proof.
  revert b. induction a as [|x a IH]; intros b.
  - split; [|by destruct b]. intros _. by exists b.
  - destruct b as [|y b]; cbn [String.prefix].
    + split; [done|]. intros (t & Ht). by rewrite append_cons in Ht.
    + destruct (ascii_dec x y) as [->|Hne].
      * rewrite IH. split; intros (t & Ht); exists t.
        -- by rewrite append_cons, Ht.
        -- rewrite append_cons in Ht. congruence.
      * split; [done|]. intros (t & Ht). rewrite append_cons in Ht. congruence.
Qed.

Lemma occurs_in_spec i k :
  occurs_in i k = true <-> exists pre post, k = pre ++ i ++ post.
Proof.
  induction k as [|c k IH].
  - cbn [occurs_in]. rewrite orb_false_r, prefix_spec. split.
    + intros (t & Ht). by exists "", t.
    + intros (pre & post & Ht). destruct pre; [by exists post|done].
  - cbn [occurs_in]. 
    rewrite orb_true_iff, prefix_spec, IH. split.
    + intros [(t & Ht)|(pre & post & Ht)].
      * by exists "", t.
      * exists (String c pre), post. by rewrite append_cons, Ht.
    + intros ([|x pre] & post & Ht).
      * left. by exists post.
      * right. rewrite append_cons in Ht. exists pre, post. congruence.
Qed.

Lemma string_app_assoc (a b c : string) : (a ++ b) ++ c = a ++ b ++ c.
Proof. induction a as [|x a IH]; [done|]. by rewrite !append_cons, IH. Qed.

Lemma string_app_nil_r (a : string) : a ++ "" = a.
Proof. induction a as [|x a IH]; [done|]. by rewrite append_cons, IH. Qed.

Lemma string_length_app (a b : string) :
  String.length (a ++ b) = (String.length a + String.length b)%nat.
Proof. induction a as [|x a IH]; [done|]. rewrite append_cons. simpl. by rewrite IH. Qed.

Lemma string_app_inv_head (a b c : string) : a ++ b = a ++ c -> b = c.
Proof.
  induction a as [|x a IH]; [done|]. rewrite !append_cons. intros [= H]. by apply IH.
Qed.

(** A literal pattern consumes exactly its own text. *)
Lemma run_Lit_prefix g total t cs k : run (Lit g) total (g ++ t) cs k = k t cs.
Proof.
  induction g as [|x g IH]; [done|]. rewrite append_cons. simpl.
  by rewrite Ascii.eqb_refl.
Qed.

Lemma run_Lit_no_prefix g total s cs k :
  String.prefix g s = false -> run (Lit g) total s cs k = None.
Proof.
  revert s. induction g as [|x g IH]; intros s; [by destruct s|].
  destruct s as [|y s]; [done|]. cbn [String.prefix Lit run].
  destruct (ascii_dec x y) as [->|Hne].
  - rewrite Ascii.eqb_refl. apply IH.
  - intros _. by rewrite (proj2 (Ascii.eqb_neq x y) Hne).
Qed.

(** The pattern ['^%s/' % re.escape(group)] matches exactly the keys that
    start with [group + '/']. *)
Lemma matches_group_prefix grp key :
  matches (Seq Bol (Seq (Lit grp) (Chr sep))) key = startswith key (grp ++ "/").
Proof.
  unfold matches, match_, startswith. cbn [run]. rewrite Nat.eqb_refl.
  destruct (String.prefix grp key) eqn:Hp.
  - apply prefix_spec in Hp as (t & ->). rewrite run_Lit_prefix.
    destruct t as [|c t].
    + symmetry. apply not_true_is_false. rewrite prefix_spec.
      intros (t & Ht). rewrite string_app_assoc in Ht.
      apply string_app_inv_head in Ht. done.
    + destruct (Ascii.eqb sep c) eqn:Hc.
      * apply Ascii.eqb_eq in Hc as <-. symmetry. apply prefix_spec.
        exists t. by rewrite string_app_assoc.
      * symmetry. apply not_true_is_false. rewrite prefix_spec.
        intros (t' & Ht). rewrite string_app_assoc in Ht.
        apply string_app_inv_head in Ht. injection Ht as -> _.
        by rewrite Ascii.eqb_refl in Hc.
  - rewrite run_Lit_no_prefix by done. symmetry. apply not_true_is_false.
    rewrite prefix_spec. intros (t & Ht).
    assert (String.prefix grp key = true); [|congruence].
    apply prefix_spec. exists ("/" ++ t). by rewrite <- string_app_assoc.
Qed.

Lemma List_filter_sublist {A} (P : A -> bool) (l : list A) :
  sublist (List.filter P l) l.
Proof.
  induction l as [|x l IH]; simpl; [constructor|].
  destruct (P x); by constructor.
Qed.

End Strings.

(** ** Further properties of the pck loader *)

Section PckExtra.
Context {W PathObj V : Type} `{!Backend W PathObj (pyval V)}.
Variable py_str : pyval V -> string.

Implicit Types (s : PckLoader W PathObj V) (key : string).

(** *** [get_many]: what is fetched, what is logged *)

Lemma loop_success_logs keys idx (result : list (pyval V)) ko s r ko' s' :
  get_many_loop keys idx result ko s = (Ret r, ko', s') ->
  pck_path s' = pck_path s
  /\ logs (pck_base s') =
     (logs (pck_base s)
        ++ map (msg_fetch (pck_path s)) (omap (fun i => keys !! i) idx))%list.
Proof.
  revert result ko s. induction idx as [|i idx IH]; intros result ko s.
  - simpl. intros [= <- <- <-]. by rewrite app_nil_r.
  - rewrite loop_step. destruct (keys !! i) as [k|] eqn:Hk; [|done].
    destruct (special_get _ _ _) as [[v|e] w]; [|done].
    intros (Hp & Hl)%IH. split; [done|].
    rewrite Hl. csimpl. rewrite Hk. simpl. by rewrite <- app_assoc.
Qed.

Lemma loop_failure keys idx (result : list (pyval V)) ko s e ko' s' :
  (forall i, i ∈ idx -> is_Some (keys !! i)) ->
  get_many_loop keys idx result ko s = (Raise e, ko', s') ->
  exists i k l,
    i ∈ idx /\ keys !! i = Some k /\ ko' = Some k
    /\ pck_path s' = pck_path s
    /\ logs (pck_base s') = (l ++ [msg_fetch (pck_path s) k])%list.
Proof.
  revert result ko s. induction idx as [|i idx IH]; intros result ko s Hin; [done|].
  rewrite loop_step. destruct (keys !! i) as [k|] eqn:Hk.
  2:{ destruct (Hin i) as [? ?]; [by left|congruence]. }
  destruct (special_get _ _ _) as [[v|e'] w].
  - intros (j & kj & l & Hj & Hkj & Hko & Hp & Hl)%IH.
    + exists j, kj, l. split; [by right|]. done.
    + intros j Hj. apply Hin. by right.
  - intros [= <- <- <-]. exists i, k, (logs (pck_base s)).
    split; [by left|]. done.
Qed.

Lemma keys_at_none_indices (c : gmap string (pyval V)) (pre keys : list string) :
  omap (fun i => (pre ++ keys)%list !! i)
       (none_indices (length pre) (cached_or_None c keys))
  = todo_keys c keys.
Proof.
  revert pre. induction keys as [|k keys IH]; intros pre; [done|].
  assert (Hrest : omap (fun i => (pre ++ k :: keys)%list !! i)
                       (none_indices (S (length pre)) (cached_or_None c keys))
                  = todo_keys c keys).
  { specialize (IH (pre ++ [k])%list).
    rewrite length_app, Nat.add_1_r, <- app_assoc in IH. exact IH. }
  unfold todo_keys in *. simpl.
  destruct (is_None (default PyNone (c !! k))); [|exact Hrest].
  csimpl. rewrite list_lookup_middle by done. simpl. by rewrite Hrest.
Qed.

Lemma idxtodo_in_range (c : gmap string (pyval V)) keys i :
  i ∈ none_indices 0 (cached_or_None c keys) -> is_Some (keys !! i).
Proof. intros (k & Hk & _)%idxtodo_spec. by eexists. Qed.

Lemma elem_of_todo_keys (c : gmap string (pyval V)) keys k :
  k ∈ todo_keys c keys <-> k ∈ keys /\ default PyNone (c !! k) = PyNone.
Proof.
  unfold todo_keys. rewrite elem_of_List_filter.
  split; intros [? Hn]; (split; [done|]); by destruct (default PyNone (c !! k)).
Qed.

(** X1.  For distinct keys a successful [get_many] returns one value per
    key, in the order of the keys, and each of them is the value the cache
    holds for its key once the call is over. *)
Theorem get_many_values_in_key_order s keys r s' :
  NoDup keys -> pck_get_many keys s = (Ret r, s') ->
  length r = length keys
  /\ forall i k, keys !! i = Some k ->
                 exists v, r !! i = Some v /\ cache s' !! k = Some v.
Proof.
  intros Hnd Hrun.
  destruct (pck_get_many_in_order s keys r s' Hnd Hrun) as (Hlen & Hval & _).
  split; [done|]. intros i k Hk.
  destruct (lookup_lt_is_Some_2 r i) as [v Hv].
  { rewrite Hlen. by apply lookup_lt_Some with k. }
  exists v. split; [done|]. by rewrite <- (Hval i k Hk).
Qed.

Lemma none_indices_nil (c : gmap string (pyval V)) keys :
  todo_keys c keys = [] -> none_indices 0 (cached_or_None c keys) = [].
Proof.
  intros Hnil. apply elem_of_nil_inv. intros i (k & Hk & Hd)%idxtodo_spec.
  assert (Hin : k ∈ todo_keys c keys).
  { apply elem_of_todo_keys. split; [by eapply list_elem_of_lookup_2|done]. }
  rewrite Hnil in Hin. by apply elem_of_nil in Hin.
Qed.

(** X2.  When every requested key is cached with a value other than
    [None], [get_many] answers from the cache alone: it returns the cached
    values in the order of the keys and leaves the loader, its world and its
    log untouched.  This includes the call without keys, and keys that are
    not in [keys()]. *)
Theorem get_many_all_cached s keys :
  (forall k, k ∈ keys -> exists v, cache s !! k = Some (PyObj v)) ->
  pck_get_many keys s = (Ret (cached_or_None (cache s) keys), s)
  /\ forall i k, keys !! i = Some k ->
                 cached_or_None (cache s) keys !! i = cache s !! k.
Proof.
  intros Hall.
  assert (Hnil : none_indices 0 (cached_or_None (cache s) keys) = []).
  { apply none_indices_nil, elem_of_nil_inv.
    intros k [Hk Hd]%elem_of_todo_keys.
    destruct (Hall k Hk) as [v Hv]. by rewrite Hv in Hd. }
  split.
  - unfold pck_get_many. by rewrite Hnil.
  - intros i k Hk. unfold cached_or_None. rewrite list_lookup_fmap, Hk. simpl.
    destruct (Hall k) as [v Hv]; [by eapply list_elem_of_lookup_2|].
    by rewrite Hv.
Qed.

(** X3.  A successful [get_many] fetches exactly the keys that are not
    cached (or cached as [None]), once per occurrence and in the order of
    the call: its log grows by one fetch record per such key and by nothing
    else, and with no such key the loader is unchanged. *)
Theorem get_many_fetches_only_uncached s keys r s' :
  pck_get_many keys s = (Ret r, s') ->
  logs (pck_base s') =
    (logs (pck_base s)
       ++ map (msg_fetch (pck_path s)) (todo_keys (cache s) keys))%list
  /\ (todo_keys (cache s) keys = [] -> s' = s).
Proof.
  intros Hrun. split.
  - revert Hrun. unfold pck_get_many.
    pose proof (keys_at_none_indices (cache s) [] keys) as Hat. simpl in Hat.
    destruct (length _ =? 0)%nat eqn:Hz.
    + intros [= <- <-]. apply Nat.eqb_eq, nil_length_inv in Hz.
      rewrite Hz in Hat. simpl in Hat. rewrite <- Hat. simpl.
      by rewrite app_nil_r.
    + destruct (get_many_loop _ _ _ _ _) as [[[r'|e] ko] s1] eqn:Hl.
      2:{ by destruct (is_io_or_value e). }
      intros [= <- <-]. apply loop_success_logs in Hl as [_ Hl].
      by rewrite Hat in Hl.
  - intros Hnil%none_indices_nil. revert Hrun. unfold pck_get_many.
    rewrite Hnil. simpl. by intros [= <- <-].
Qed.

(** X4.  When the backing fails while [get] fetches an uncached key of the
    store, the exception is raised again unchanged and nothing is cached, so
    a later [get] asks the backing again.  The log gains the fetch record,
    and for an [IOError] or [ValueError] also an error record naming the key
    and the path; any other exception passes without an error record. *)
Theorem get_failure_not_cached s key ks e w' :
  datakeys s = Some ks -> key ∈ ks -> cache s !! key = None ->
  special_get (pathobj (pck_base s)) key (world (pck_base s)) = (Raise e, w') ->
  exists s',
    pck_get key s = (Raise e, s')
    /\ cache s' = cache s
    /\ datakeys s' = datakeys s
    /\ world (pck_base s') = w'
    /\ logs (pck_base s') =
       (logs (pck_base s)
          ++ msg_fetch (pck_path s) key
          :: (if is_io_or_value e then [msg_fetch_failed (pck_path s) key] else []))%list.
Proof.
  intros Hdk Hin Hc Hf. unfold pck_get, bind, gets, check_member. simpl.
  rewrite Hdk, (contains_true _ _ Hin). simpl. rewrite Hc.
  unfold try_except_reraise, bind, pck_lift, lift, log, modify, call, gets.
  simpl. rewrite Hf.
  destruct (is_io_or_value e); simpl; eexists; (split; [reflexivity|]); simpl;
    repeat split; try done; by rewrite <- ?app_assoc.
Qed.

(** X5.  When [get_many] raises, the exception comes from the fetch of one
    of the keys it had to fetch, and the log ends with the fetch record of
    that key, followed for an [IOError] or [ValueError] by the error record
    naming that key; the "Failed to open" record of the handler is never
    written. *)
Theorem get_many_failure_names_key s keys e s' :
  pck_get_many keys s = (Raise e, s') ->
  exists k l,
    k ∈ todo_keys (cache s) keys
    /\ logs (pck_base s') =
       (l ++ msg_fetch (pck_path s) k
          :: (if is_io_or_value e then [msg_fetch_failed (pck_path s) k] else []))%list.
Proof.
  unfold pck_get_many. destruct (length _ =? 0)%nat; [done|].
  destruct (get_many_loop _ _ _ _ _) as [[[r'|e'] ko] s1] eqn:Hl; [done|].
  apply loop_failure in Hl as (i & k & l & Hi & Hk & -> & Hp & Hlog);
    [|apply idxtodo_in_range].
  assert (Hin : k ∈ todo_keys (cache s) keys).
  { apply idxtodo_spec in Hi as (k' & Hk' & Hd).
    assert (k' = k) as -> by congruence.
    apply elem_of_todo_keys. split; [by eapply list_elem_of_lookup_2|done]. }
  destruct (is_io_or_value e') eqn:He.
  - unfold pck_lift, lift, log, modify. simpl. intros [= <- <-].
    exists k, l. split; [done|]. simpl. rewrite Hlog, Hp, He.
    by rewrite <- app_assoc.
  - intros [= <- <-]. exists k, l. split; [done|]. by rewrite Hlog, He.
Qed.

(** *** [update] and the enumeration *)

Lemma pck_update_fields s s' :
  pck_update py_str s = (Ret tt, s') ->
  is_Some (pathobj (pck_base s'))
  /\ is_Some (datakeys s') /\ is_Some (datagroups s')
  /\ description s' = desc s'
  /\ pck_path s' = pck_path s
  /\ datagroups_exclude s' = datagroups_exclude s
  /\ cache s' = ∅.
Proof.
  unfold pck_update, try_except_reraise, bind, gets, pck_lift, lift,
    log, modify, call, ret, raise, pck_path. simpl.
  intros H. repeat case_match; simplify_eq/=; repeat split; eauto;
    match goal with
    | Hc : close _ = _ |- _ => by apply close_frame in Hc as (? & _)
    end.
Qed.

Lemma pck_groups_not_excluded s s' gs g pat :
  pck_update py_str s = (Ret tt, s') -> pck_groups s' = Some gs ->
  g ∈ gs -> pat ∈ datagroups_exclude s -> matches pat g = false.
Proof.
  intros (po & w0 & w1 & listed & Hl & Hg & _)%pck_update_ok Hgs.
  rewrite Hgs in Hg. injection Hg as ->.
  intros [_ Hno]%elem_of_sorted%elem_of_exclude_by Hpat. by apply Hno.
Qed.

(** X6.  After a successful [update], [groups()] is sorted and free of
    duplicates, never holds the root group [''] nor a group that an
    exclusion pattern matches, and each of its groups is the directory name
    of a key the backing listed. *)
Theorem update_groups_sorted_distinct s s' gs :
  pck_update py_str s = (Ret tt, s') -> pck_groups s' = Some gs ->
  Sorted str_le gs /\ NoDup gs /\ ("" ∉ gs)
  /\ (forall g pat, g ∈ gs -> pat ∈ datagroups_exclude s -> matches pat g = false)
  /\ exists listed,
       (exists po w0 w1, special_getkeys po w0 = (Ret listed, w1))
       /\ forall g, g ∈ gs -> exists k, k ∈ listed /\ dirname k = g.
Proof.
  intros (po & w0 & w1 & listed & Hl & Hg & _)%pck_update_ok Hgs.
  rewrite Hgs in Hg. injection Hg as ->.
  split; [apply sorted_Sorted|]. split.
  { rewrite sorted_Permutation, exclude_by_filter.
    apply NoDup_List_filter, NoDup_elements. }
  split.
  { rewrite elem_of_sorted, elem_of_exclude_by, elem_of_elements, elem_of_difference.
    intros [[_ Hne] _]. apply Hne. by apply elem_of_singleton. }
  split.
  { intros g pat [_ Hno]%elem_of_sorted%elem_of_exclude_by Hpat. by apply Hno. }
  exists listed. split; [by exists po, w0, w1|].
  intros g [Hg _]%elem_of_sorted%elem_of_exclude_by.
  apply elem_of_elements, elem_of_difference in Hg as [Hg _].
  apply elem_of_list_to_set, list_elem_of_In, in_map_iff in Hg as (k & Hk & Hin).
  exists k. split; [by apply list_elem_of_In|done].
Qed.

(** X7.  After a successful [update] no key of [keys()] belongs to an
    excluded group: a key either has no group (the root) or its group is
    among [groups()] and matched by no exclusion pattern. *)
Theorem update_keys_outside_excluded_groups s s' ks gs k :
  pck_update py_str s = (Ret tt, s') ->
  pck_keys s' = Some ks -> pck_groups s' = Some gs -> k ∈ ks ->
  dirname k = ""
  \/ (dirname k ∈ gs
      /\ forall pat, pat ∈ datagroups_exclude s -> matches pat (dirname k) = false).
Proof.
  intros Hup Hks Hgs Hk.
  destruct (decide (dirname k = "")) as [|Hne]; [by left|right].
  destruct (pck_groups_cover_keys py_str s s' ks gs Hup Hks Hgs) as [_ Hcov].
  pose proof (Hcov k Hk Hne) as Hin. split; [done|].
  intros pat Hpat. by apply (pck_groups_not_excluded s s' gs (dirname k) pat).
Qed.

(** X8.  When [_special_open] raises during [update], [update] raises the
    same exception with [keys()] and [groups()] left at [None] and the old
    cache still in place; an [IOError] or [ValueError] is logged first.  On
    such a loader every [get] raises [TypeError] rather than [KeyError]. *)
Theorem update_open_failure s b0 e w' :
  close (pck_base s) = (Ret tt, b0) ->
  special_open (path b0) (world b0) = (Raise e, w') ->
  exists s',
    pck_update py_str s = (Raise e, s')
    /\ pck_keys s' = None /\ pck_groups s' = None
    /\ cache s' = cache s
    /\ (is_io_or_value e = true ->
        last (logs (pck_base s')) = Some (ERROR, "Failed to read path " ++ pck_path s ++ "."))
    /\ forall key, exists msg, pck_get key s' = (Raise (TypeError msg), s').
Proof.
  intros Hc Ho. pose proof (close_frame _ _ _ Hc) as (Hp & _).
  unfold pck_update, try_except_reraise, bind, gets, pck_lift, lift,
    log, modify, call, ret, raise, pck_path. simpl.
  rewrite Hc. simpl. rewrite Ho. simpl.
  destruct (is_io_or_value e); simpl; eexists; (split; [reflexivity|]); simpl;
    repeat split; try done.
  - intros _. by rewrite last_snoc, Hp.
  - intros key. eexists. reflexivity.
  - intros key. eexists. reflexivity.
Qed.

(** *** What only [update] changes *)

Lemma loop_static keys idx (result : list (pyval V)) ko s out ko' s' :
  get_many_loop keys idx result ko s = (out, ko', s') ->
  enumeration s' = enumeration s.
Proof.
  revert result ko s. induction idx as [|i idx IH]; intros result ko s.
  - simpl. by intros [= <- <- <-].
  - rewrite loop_step. destruct (keys !! i) as [k|]; [|by intros [= <- <- <-]].
    destruct (special_get _ _ _) as [[v|e] w]; [|by intros [= <- <- <-]].
    by intros ->%IH.
Qed.

Lemma pck_get_many_static s keys :
  enumeration (snd (pck_get_many keys s)) = enumeration s.
Proof.
  unfold pck_get_many. destruct (length _ =? 0)%nat; [done|].
  destruct (get_many_loop _ _ _ _ _) as [[out ko] s1] eqn:Hl.
  apply loop_static in Hl. destruct out as [r|e]; [done|].
  by destruct (is_io_or_value e).
Qed.

Lemma all_in_loop_static dk items result s :
  enumeration (snd (all_in_loop dk items result s)) = enumeration s.
Proof.
  revert result s. induction items as [|i items IH]; intros result s; [done|].
  simpl. destruct dk as [ks|]; [|done].
  destruct (contains i ks); [apply IH|].
  unfold bind, gets, pck_lift, lift, log, modify. simpl. by rewrite IH.
Qed.

Lemma run_op_static o s :
  o <> OpUpdate -> enumeration (run_op py_str o s) = enumeration s.
Proof.
  destruct o as [| |key|keys|grp|items|pat|item|items| | |]; simpl; try done; intros _.
  - unfold pck_get, bind, gets, check_member, try_except_reraise,
      pck_lift, lift, log, modify, call, raise, ret. simpl.
    destruct (datakeys s) as [ks|] eqn:Hdk; simpl; [|done].
    destruct (contains key ks); simpl; [|done].
    destruct (cache s !! key); simpl; [done|].
    destruct (special_get _ _ _) as [[v1|e] w]; simpl; [done|].
    by destruct (is_io_or_value e).
  - apply pck_get_many_static.
  - unfold pck_get_by_group, pck_refind, bind, gets, raise, ret.
    destruct (datakeys s) as [ks|] eqn:Hdk; [|done].
    pose proof (pck_get_many_static s
      (List.filter (matches (Seq Bol (Seq (Lit grp) (Chr sep)))) ks)) as Hm.
    by destruct (pck_get_many _ s) as [[r|e] s1].
  - unfold pck_find, bind, gets, raise, ret. by destruct (datakeys s) eqn:Hdk.
  - unfold pck_refind, bind, gets, raise, ret. by destruct (datakeys s) eqn:Hdk.
  - unfold pck_contains, bind, gets, raise, ret. by destruct (datakeys s) eqn:Hdk.
  - unfold pck_all_in_loader, bind, gets. simpl. apply all_in_loop_static.
  - unfold pck_lift, lift. destruct (close (pck_base s)) as [r b1] eqn:Hc.
    apply close_frame in Hc as (Hp & _). unfold enumeration, pck_path. simpl.
    by rewrite Hp.
Qed.

Lemma run_ops_static ops s :
  Forall (fun o => o <> OpUpdate) ops ->
  enumeration (run_ops py_str ops s) = enumeration s.
Proof.
  intros Hops. revert s. induction Hops as [|o ops Ho _ IH]; intros s; [done|].
  simpl. by rewrite IH, run_op_static.
Qed.

(** X9.  [keys()], [groups()], the exclusion list and the path change only
    through [update]: across any sequence of the other operations
    ([clear_cache] and failing calls included) they stay as they were. *)
Theorem enumeration_changes_only_through_update ops s :
  Forall (fun o => o <> OpUpdate) ops ->
  pck_keys (run_ops py_str ops s) = pck_keys s
  /\ pck_groups (run_ops py_str ops s) = pck_groups s
  /\ datagroups_exclude (run_ops py_str ops s) = datagroups_exclude s
  /\ pck_path (run_ops py_str ops s) = pck_path s.
Proof.
  intros Hops%(run_ops_static _ s). unfold enumeration in Hops.
  injection Hops as Hp He Hk Hg. done.
Qed.

(** *** Lookups over the enumeration *)

(** X11.  [find] with [items] does not change the loader and returns, in the
    order of [keys()], exactly the keys in which every item occurs as a
    substring; without items it returns all keys. *)
Theorem find_selects_keys_containing_all_items s ks items :
  datakeys s = Some ks ->
  exists r,
    pck_find items s = (Ret r, s)
    /\ sublist r ks
    /\ (forall k, k ∈ r <->
                  k ∈ ks /\ forall i, i ∈ items -> exists pre post, k = pre ++ i ++ post)
    /\ (items = [] -> r = ks).
Proof.
  intros Hdk. unfold pck_find, bind, gets, ret. rewrite Hdk.
  eexists. split; [reflexivity|].
  rewrite (foldl_filter (fun i k => occurs_in i k)).
  split; [apply List_filter_sublist|]. split.
  - intros k. rewrite elem_of_List_filter, forallb_forall.
    split; intros [Hk Hall]; (split; [done|]); intros i Hi.
    + apply occurs_in_spec, Hall. by apply list_elem_of_In.
    + apply occurs_in_spec, Hall. by apply list_elem_of_In.
  - intros ->. simpl. apply List_filter_all. done.
Qed.

Lemma with_logs_nil s : with_logs [] s = s.
Proof.
  destruct s as [[p po w l] dk dg ex d1 d2 c]. unfold with_logs, pck_set_base.
  simpl. by rewrite app_nil_r.
Qed.

Lemma with_logs_cons x l s :
  with_logs (x :: l) s = with_logs l (with_logs [x] s).
Proof.
  unfold with_logs, pck_set_base. simpl. by rewrite <- app_assoc.
Qed.

Lemma all_in_loop_spec ks items result s :
  all_in_loop (Some ks) items result s =
    (Ret (result && forallb (fun i => contains i ks) items),
     with_logs (map (msg_missing (pck_path s))
                    (List.filter (fun i => negb (contains i ks)) items)) s).
Proof.
  revert result s. induction items as [|i items IH]; intros result s.
  - simpl. by rewrite andb_true_r, with_logs_nil.
  - cbn [all_in_loop forallb List.filter]. destruct (contains i ks); simpl.
    + apply IH.
    + unfold bind, gets, pck_lift, lift, log, modify. simpl.
      rewrite IH, andb_false_r. f_equal.
      by rewrite with_logs_cons.
Qed.

(** X12.  [all_in_loader] with [items] returns whether every item is a key of
    the store, and logs one warning naming the item and the path for each
    item that is not, in the order of the items; nothing else changes. *)
Theorem all_in_loader_warns_per_missing_item s ks items :
  datakeys s = Some ks ->
  pck_all_in_loader items s =
    (Ret (forallb (fun i => contains i ks) items),
     with_logs (map (msg_missing (pck_path s))
                    (List.filter (fun i => negb (contains i ks)) items)) s).
Proof.
  intros Hdk. unfold pck_all_in_loader, bind, gets. rewrite Hdk.
  by rewrite all_in_loop_spec.
Qed.

(** X13.  [get_by_group(group)] reads exactly the keys of the store that
    start with [group + '/'].  When those keys are distinct and have
    distinct base names, the returned dict maps each base name to the value
    the cache then holds for its key, and has no other entry. *)
Theorem get_by_group_maps_basenames s ks grp d s' :
  datakeys s = Some ks -> NoDup ks ->
  NoDup (map basename (List.filter (fun k => startswith k (grp ++ "/")) ks)) ->
  pck_get_by_group grp s = (Ret d, s') ->
  (forall k, k ∈ ks -> startswith k (grp ++ "/") = true ->
             exists v, d !! basename k = Some v /\ cache s' !! k = Some v)
  /\ (forall b, is_Some (d !! b) ->
                exists k, k ∈ ks /\ startswith k (grp ++ "/") = true /\ basename k = b).
Proof.
  intros Hdk Hnd Hbn. unfold pck_get_by_group, pck_refind, bind, gets, ret.
  rewrite Hdk.
  rewrite (List_filter_ext_in _ (fun k => startswith k (grp ++ "/")) ks)
    by (intros k _; apply matches_group_prefix).
  set (sel := List.filter (fun k => startswith k (grp ++ "/")) ks) in *.
  destruct (pck_get_many sel s) as [[r|e] s1] eqn:Hrun; [|done].
  intros [= <- <-].
  destruct (pck_get_many_in_order s sel r s1) as (Hlen & Hval & _);
    [by apply NoDup_List_filter|done|].
  assert (Hfst : (reverse (zip (map basename sel) r)).*1 ≡ₚ map basename sel).
  { rewrite fmap_reverse, reverse_Permutation, fst_zip; [done|].
    rewrite length_map. lia. }
  assert (Hnd' : NoDup (reverse (zip (map basename sel) r)).*1) by by rewrite Hfst.
  split.
  - intros k Hk Hs.
    assert (Hsel : k ∈ sel) by (apply elem_of_List_filter; by split).
    apply list_elem_of_lookup in Hsel as (i & Hi).
    destruct (lookup_lt_is_Some_2 r i) as [v Hv].
    { rewrite Hlen. by apply lookup_lt_Some with k. }
    exists v. split; [|by rewrite <- (Hval i k Hi)].
    apply elem_of_list_to_map; [done|]. apply elem_of_reverse.
    apply list_elem_of_lookup. exists i. apply lookup_zip_with_Some.
    exists (basename k), v. split; [done|]. split; [|done].
    by rewrite list_lookup_fmap, Hi.
  - intros b [v Hb]. apply elem_of_list_to_map in Hb; [|done].
    assert (Hin : b ∈ (reverse (zip (map basename sel) r)).*1).
    { apply list_elem_of_fmap. by exists (b, v). }
    rewrite Hfst in Hin. apply list_elem_of_In, in_map_iff in Hin as (k & <- & Hk).
    apply list_elem_of_In, elem_of_List_filter in Hk as [Hk Hs]. eauto.
Qed.

End PckExtra.

(** ** Pickling and construction *)

Section PckPickle.
Context {W PathObj V : Type} `{!Backend W PathObj (pyval V)}.

Implicit Types (s : PckLoader W PathObj V).

(** X14.  Pickling round trip.  [__setstate__] applied to what
    [__getstate__] returned restores the path, the exclusion list, the
    keys, the groups, the description and the cache of the pickled loader,
    whatever the receiving object held; the path object is not carried over
    but opened afresh, and when that fails the exception of [_special_open]
    is raised. *)
Theorem pickle_round_trip s s0 :
  match special_open (pck_path s) (world (pck_base s0)) with
  | (Ret po, w) =>
      exists s1,
        pck_setstate (pck_getstate s) s0 = (Ret tt, s1)
        /\ enumeration s1 = enumeration s
        /\ cache s1 = cache s
        /\ desc s1 = desc s /\ description s1 = description s
        /\ pathobj (pck_base s1) = Some po
        /\ world (pck_base s1) = w
  | (Raise e, w) =>
      exists s1, pck_setstate (pck_getstate s) s0 = (Raise e, s1)
                 /\ pathobj (pck_base s1) = pathobj (pck_base s0)
  end.
Proof.
  unfold pck_setstate, pck_getstate, pck_setattrs, pck_setattr, bind, gets,
    modify, pck_lift, lift, call, ret. simpl.
  destruct (special_open _ _) as [[po|e] w]; simpl; eexists;
    (split; [reflexivity|]); simpl; done.
Qed.

End PckPickle.

Section PckInit.
Context {W PathObj V : Type} `{!Backend W PathObj (pyval V)} `{!PathCheck W}.
Variable py_str : pyval V -> string.

Implicit Types (s : PckLoader W PathObj V).

(** X15.  Construction.  A path that cannot be accessed is refused with
    [IOError] before anything is opened or logged, and a path that fails
    [_special_check_path] with [ValueError].  A loader that was constructed
    has its keys and groups enumerated, an open path object, an empty cache
    and the exclusion list it was given (empty when none was given); its
    keys stay enumerated across every operation but [update], so that [get]
    never finds them missing. *)
Theorem init_establishes_the_enumeration p excl w :
  (check_path_access p w = false ->
   pck_init py_str p excl w
   = (Raise (IOError ("Failed to access path '" ++ p ++ "'.")),
      pck_new p (default [] excl) w))
  /\ (forall w1, check_path_access p w = true ->
                 special_check_path p w = (Ret false, w1) ->
                 fst (pck_init py_str p excl w)
                 = Raise (ValueError ("Path '" ++ p ++ "' checking failed.")))
  /\ (forall s, pck_init py_str p excl w = (Ret tt, s) ->
                is_Some (pck_keys s) /\ is_Some (pck_groups s)
                /\ is_Some (pathobj (pck_base s))
                /\ cache s = ∅
                /\ pck_path s = p
                /\ datagroups_exclude s = default [] excl
                /\ forall ops, Forall (fun o => o <> OpUpdate) ops ->
                               is_Some (pck_keys (run_ops py_str ops s))).
Proof.
  unfold pck_init. split; [|split].
  - by intros ->.
  - intros w1 -> ->. done.
  - intros s. destruct (check_path_access p w); [|done].
    destruct (special_check_path p w) as [[[|]|e] w1]; [|done|done].
    intros (Hpo & Hk & Hg & _ & Hp & He & Hc)%pck_update_fields.
    repeat split; try done.
    intros ops Hops.
    pose proof (run_ops_static py_str ops s Hops) as Hen.
    unfold enumeration in Hen. injection Hen as _ _ Hdk _.
    unfold pck_keys. by rewrite Hdk.
Qed.

End PckInit.

(** ** Directory names, base names and joined paths *)

Section PathsMore.

Lemma split_no_sep n : no_sep n = true -> split_last_sep n = ("", n).
Proof.
  induction n as [|c n IH]; [done|]. cbn [no_sep split_last_sep].
  intros [Hc Hn]%andb_true_iff. rewrite (IH Hn).
  apply negb_true_iff in Hc. by rewrite Hc.
Qed.

Lemma fst_split_no_sep n : fst (split_last_sep n) = "" <-> no_sep n = true.
Proof.
  split; [|by intros ->%split_no_sep].
  induction n as [|c n IH]; [done|]. cbn [no_sep split_last_sep].
  destruct (split_last_sep n) as [[|h0 h] t]; [|done].
  destruct (Ascii.eqb c sep); [done|]. intros _. by rewrite IH.
Qed.

Lemma split_app p n :
  no_sep n = true -> split_last_sep (p ++ "/" ++ n) = (p ++ "/", n).
Proof.
  intros Hn. induction p as [|c p IH].
  - change ("" ++ "/" ++ n) with (String "/" n). cbn [split_last_sep].
    by rewrite (split_no_sep n Hn).
  - change (String c p ++ "/" ++ n) with (String c (p ++ "/" ++ n)).
    cbn [split_last_sep]. rewrite IH. by destruct p.
Qed.

Lemma split_concat p : fst (split_last_sep p) ++ snd (split_last_sep p) = p.
Proof.
  induction p as [|c p IH]; [done|]. cbn [split_last_sep].
  destruct (split_last_sep p) as [[|h0 h] t]; cbn [fst snd] in *.
  - rewrite append_nil in IH. subst t.
    destruct (Ascii.eqb c sep); cbn [fst snd]; by rewrite ?append_cons, ?append_nil.
  - by rewrite append_cons, IH.
Qed.

Lemma basename_no_sep p : no_sep (basename p) = true.
Proof.
  unfold basename. induction p as [|c p IH]; [done|]. cbn [split_last_sep].
  destruct (split_last_sep p) as [[|h0 h] t] eqn:Hs; simpl in *; [|done].
  destruct (Ascii.eqb c sep) eqn:Hc; simpl; [done|]. by rewrite Hc, IH.
Qed.

Lemma rstrip_app p :
  p <> "" -> ends_with_sep p = false -> rstrip_sep (p ++ "/") = p.
Proof.
  induction p as [|c p IH]; [done|]. intros _ He.
  rewrite append_cons. cbn [rstrip_sep].
  destruct p as [|d p].
  - cbn in *. by rewrite He.
  - rewrite IH; [done|done|]. exact He.
Qed.

Lemma all_sep_app_false p t :
  p <> "" -> ends_with_sep p = false -> all_sep (p ++ t) = false.
Proof.
  induction p as [|c p IH]; [done|]. intros _ He.
  rewrite append_cons. cbn [all_sep]. destruct p as [|d p].
  - cbn in He. by rewrite He.
  - rewrite IH; [apply andb_false_r|done|exact He].
Qed.

Lemma rstrip_nil_all_sep h : rstrip_sep h = "" -> all_sep h = true.
Proof.
  induction h as [|c h IH]; [done|]. cbn [rstrip_sep all_sep].
  destruct (rstrip_sep h) as [|t0 t]; [|done].
  destruct (Ascii.eqb c sep); [|done]. intros _. by rewrite IH.
Qed.

Lemma dirname_empty_iff k : dirname k = "" <-> no_sep k = true.
Proof.
  rewrite <- fst_split_no_sep. unfold dirname.
  destruct (all_sep (fst (split_last_sep k))) eqn:Ha; [done|].
  split.
  - intros Hr%rstrip_nil_all_sep. congruence.
  - by intros ->.
Qed.

Lemma path_join_simple p n :
  no_sep n = true -> p <> "" -> ends_with_sep p = false ->
  path_join p n = p ++ "/" ++ n.
Proof.
  intros Hn Hp He. unfold path_join, startswith.
  destruct n as [|c n].
  - simpl. rewrite He. by destruct p.
  - cbn [no_sep] in Hn. apply andb_true_iff in Hn as [Hc%negb_true_iff _].
    cbn [String.prefix]. destruct (ascii_dec "/" c) as [<-|_].
    + by rewrite Ascii.eqb_refl in Hc.
    + rewrite He. by destruct p.
Qed.

(** X16.  [_special_getgroups] and the root group.  A key is in the root
    group [''] exactly when it has no separator; every other key starts
    with its group, and its group together with its base name makes up the
    key again when the group does not end in a separator. *)
Theorem getgroups_root_iff_no_separator (keys : list string) :
  ("" ∈ special_getgroups keys <-> exists k, k ∈ keys /\ no_sep k = true)
  /\ forall k, k ∈ keys ->
       dirname k ∈ special_getgroups keys
       /\ startswith k (dirname k) = true
       /\ no_sep (basename k) = true
       /\ (no_sep k = false -> dirname k <> "").
Proof.
  unfold special_getgroups. split.
  - rewrite elem_of_list_to_set. split.
    + intros (k & Hd & Hk)%list_elem_of_In%in_map_iff.
      exists k. split; [by apply list_elem_of_In|]. by apply dirname_empty_iff.
    + intros (k & Hk & Hn). apply list_elem_of_In, in_map_iff.
      exists k. split; [by apply dirname_empty_iff|by apply list_elem_of_In].
  - intros k Hk. split; [|split; [|split]].
    + apply elem_of_list_to_set, list_elem_of_In, in_map. by apply list_elem_of_In.
    + apply dirname_prefix.
    + apply basename_no_sep.
    + intros Hn Hd%dirname_empty_iff. congruence.
Qed.

End PathsMore.

(** ** Further properties of the raw loader *)

Section RawExtra.
Context {W PathObj FileObj : Type} `{!Backend W PathObj FileObj}.
Variable fileobj_close : FileObj -> W -> outcome unit * W.

Implicit Types (s : RawLoader W PathObj) (key : string).

Lemma raw_update_fields s s' :
  raw_update s = (Ret tt, s') ->
  is_Some (pathobj (raw_base s'))
  /\ raw_path s' = raw_path s
  /\ filenames_exclude s' = filenames_exclude s.
Proof.
  unfold raw_update, try_except_reraise, bind, gets, raw_lift, lift,
    log, modify, call, ret, raise, raw_path. simpl.
  intros H. repeat case_match; simplify_eq/=; repeat split; eauto.
  all: match goal with
       | Hc : close _ = _ |- _ => by apply close_frame in Hc as (? & _)
       end.
Qed.

(** X17.  After a successful [update] of the raw loader, [keys()] holds
    exactly the listed names that no exclusion pattern matches, each as
    often as the backing listed it; with an empty exclusion list it is a
    rearrangement of the whole listing.  The path object is open. *)
Theorem raw_update_keeps_the_unmatched_names s s' :
  raw_update s = (Ret tt, s') ->
  exists listed ks,
    (exists (po : PathObj) (w0 w1 : W), special_getkeys po w0 = (Ret listed, w1))
    /\ raw_keys s' = Some ks
    /\ ks ≡ₚ List.filter
               (fun k => forallb (fun pat => negb (matches pat k)) (filenames_exclude s))
               listed
    /\ (forall k, k ∈ ks <->
                  k ∈ listed
                  /\ forall pat, pat ∈ filenames_exclude s -> matches pat k = false)
    /\ (filenames_exclude s = [] -> ks ≡ₚ listed)
    /\ is_Some (pathobj (raw_base s')).
Proof.
  intros Hup. pose proof (raw_update_fields _ _ Hup) as (Hpo & _).
  apply raw_update_ok in Hup as (po & w0 & w1 & listed & Hl & Hk & _).
  exists listed, (sorted (exclude_by (filenames_exclude s) listed)).
  split; [by exists po, w0, w1|]. split; [done|]. split.
  { by rewrite sorted_Permutation, exclude_by_filter. }
  split.
  { intros k. by rewrite elem_of_sorted, elem_of_exclude_by. }
  split; [|done].
  intros ->. by rewrite sorted_Permutation.
Qed.

(** X18.  A name that an exclusion pattern matches cannot be opened
    through the loader: after a successful [update], [get] refuses it with
    [KeyError] without consulting the backing or running the block, even
    though the backing lists it. *)
Theorem raw_get_refuses_excluded_names s s' pat key B
        (body : FileObj -> M (RawLoader W PathObj) B) :
  raw_update s = (Ret tt, s') ->
  pat ∈ filenames_exclude s -> matches pat key = true ->
  raw_with_get fileobj_close key body s'
  = (Raise (KeyError (key ++ " is not in '" ++ raw_path s' ++ "'")), s').
Proof.
  intros (po & w0 & w1 & listed & _ & Hk & _)%raw_update_ok Hpat Hm.
  apply raw_with_get_absent with (sorted (exclude_by (filenames_exclude s) listed));
    [done|].
  intros [_ Hno]%elem_of_sorted%elem_of_exclude_by.
  rewrite (Hno pat Hpat) in Hm. done.
Qed.

(** X19.  [beside_path(name)] puts a plain name under the loader's path:
    for a name without separator and a non-empty path that does not end in
    one, the directory name of the result is the path and its base name is
    the name.  A name that starts with a separator replaces the path. *)
Theorem beside_path_round_trip s name :
  (no_sep name = true -> raw_path s <> "" -> ends_with_sep (raw_path s) = false ->
   raw_beside_path name s = raw_path s ++ "/" ++ name
   /\ dirname (raw_beside_path name s) = raw_path s
   /\ basename (raw_beside_path name s) = name)
  /\ (startswith name "/" = true -> raw_beside_path name s = name).
Proof.
  unfold raw_beside_path. split.
  - intros Hn Hp He. rewrite path_join_simple by done.
    split; [done|]. unfold dirname, basename. rewrite split_app by done.
    cbn [fst snd]. split; [|done].
    rewrite all_sep_app_false by done. by apply rstrip_app.
  - intros Hs. unfold path_join. by rewrite Hs.
Qed.

End RawExtra.

(** ** A listing that fails after the path was opened *)

Section ListingFailure.
Context {W1 P1 FileObj : Type} `{!Backend W1 P1 FileObj}.
Context {W2 P2 V : Type} `{!Backend W2 P2 (pyval V)}.
Variable py_str : pyval V -> string.

(** X20.  When [_special_getkeys] raises after [_special_open] succeeded,
    both loaders raise the exception with no keys enumerated, but they
    differ in what becomes of the newly opened path object.  The raw loader
    has not stored it: its [pathobj] is what the leading [close] left (
    [None], or an old path object that is false), and when that is [None]
    a later [close] does nothing.  The pck loader has stored it before
    listing, so a later [close] hands it to [_special_close], provided it
    is true; a false one is left open. *)
Theorem listing_failure_and_the_path_object :
  (forall (s : RawLoader W1 P1) b0 (po : P1) (w1 w2 : W1) e,
      close (raw_base s) = (Ret tt, b0) ->
      special_open (path b0) (world b0) = (Ret po, w1) ->
      special_getkeys po w1 = (Raise e, w2) ->
      exists s',
        raw_update s = (Raise e, s')
        /\ raw_keys s' = None
        /\ pathobj (raw_base s') = pathobj b0
        /\ (pathobj_true (raw_base s) = true -> pathobj (raw_base s') = None)
        /\ world (raw_base s') = w2
        /\ (pathobj b0 = None -> close (raw_base s') = (Ret tt, raw_base s')))
  /\ (forall (s : PckLoader W2 P2 V) b0 (po : P2) (w1 w2 : W2) e,
         close (pck_base s) = (Ret tt, b0) ->
         special_open (path b0) (world b0) = (Ret po, w1) ->
         special_getkeys po w1 = (Raise e, w2) ->
         exists s',
           pck_update py_str s = (Raise e, s')
           /\ pck_keys s' = None
           /\ pathobj (pck_base s') = Some po
           /\ world (pck_base s') = w2
           /\ world (snd (close (pck_base s')))
              = if pathobj_bool po w2 then snd (special_close po w2) else w2).
Proof.
  split.
  - intros s b0 po w1 w2 e Hc Ho Hk.
    pose proof (close_frame _ _ _ Hc) as (_ & Hret & _). specialize (Hret eq_refl).
    unfold raw_update, try_except_reraise, bind, gets, raw_lift, lift,
      log, modify, call, ret, raise. simpl.
    rewrite Hc. simpl. rewrite Ho. simpl. rewrite Hk. simpl.
    destruct (is_io_or_value e); simpl; eexists; (split; [reflexivity|]); simpl;
      (split; [done|]); (split; [done|]);
      (split; [by intros Ht; rewrite Ht in Hret|]); (split; [done|]);
      intros Hnone; apply close_false; unfold pathobj_true; simpl; by rewrite Hnone.
  - intros s b0 po w1 w2 e Hc Ho Hk.
    unfold pck_update, try_except_reraise, bind, gets, pck_lift, lift,
      log, modify, call, ret, raise. simpl.
    rewrite Hc. unfold pck_path. simpl. rewrite Ho. simpl. rewrite Hk. simpl.
    destruct (is_io_or_value e); simpl; eexists; (split; [reflexivity|]); simpl;
      (split; [done|]); (split; [done|]); (split; [done|]);
      unfold close, pathobj_true, bind, gets, log, modify, call, ret; simpl;
      (destruct (pathobj_bool po w2); simpl; [|done]);
      by destruct (special_close po w2) as [[[]|e'] w3].
Qed.

End ListingFailure.

(** ** The enumeration of keys *)

Section Enumeration.
Context {W1 P1 FileObj : Type} `{!Backend W1 P1 FileObj}.
Context {W2 P2 V : Type} `{!Backend W2 P2 (pyval V)}.
Variable py_str : pyval V -> string.

(** C8, as the code has it.  [keys()] returns the enumeration stored by
    the last [update].  For the raw loader it is the sorted listing of the
    backing less the names an exclusion pattern matches: it is sorted, the
    same for every order in which the backing lists the same names, and
    holds no name that an exclusion pattern matches.  For the pck loader it
    is a sub-list of the listing of the backing, in the backing's own
    order, that holds no key of an excluded group, that is, of a group
    whose name an exclusion pattern matches; without exclusion patterns it
    is the whole listing. *)
Theorem keys_enumeration :
  (forall s s' : RawLoader W1 P1,
      raw_update s = (Ret tt, s') ->
      exists listed,
        (exists (po : P1) (w0 w1 : W1), special_getkeys po w0 = (Ret listed, w1))
        /\ raw_keys s' = Some (sorted (exclude_by (filenames_exclude s) listed))
        /\ Sorted str_le (sorted (exclude_by (filenames_exclude s) listed))
        /\ (forall listed', listed' ≡ₚ listed ->
            sorted (exclude_by (filenames_exclude s) listed')
            = sorted (exclude_by (filenames_exclude s) listed))
        /\ (forall k pat, pat ∈ filenames_exclude s -> matches pat k = true ->
            k ∉ sorted (exclude_by (filenames_exclude s) listed)))
  /\ (forall s s' : PckLoader W2 P2 V,
         pck_update py_str s = (Ret tt, s') ->
         exists listed ks,
           (exists (po : P2) (w0 w1 : W2), special_getkeys po w0 = (Ret listed, w1))
           /\ pck_keys s' = Some ks
           /\ sublist ks listed
           /\ (forall k pat, k ∈ ks -> dirname k <> "" ->
                             pat ∈ datagroups_exclude s ->
                             matches pat (dirname k) = false)
           /\ (datagroups_exclude s = [] -> ks = listed)).
Proof.
  split.
  - intros s s' (po & w0 & w1 & listed & Hl & Hk & _)%raw_update_ok.
    exists listed. split; [by exists po, w0, w1|]. split; [exact Hk|].
    split; [apply sorted_Sorted|]. split.
    + intros listed' Hp. by apply sorted_exclude_perm.
    + intros k pat Hpat Hm [_ Hno]%elem_of_sorted%elem_of_exclude_by.
      rewrite (Hno pat Hpat) in Hm. done.
  - intros s s' Hup.
    destruct (pck_update_keys py_str s s' Hup) as (po & w0 & w1 & listed & Hl & Hk).
    destruct (pck_update_ok py_str s s' Hup) as (_ & _ & _ & listed' & _ & Hg & _).
    exists listed, (List.filter (survives (datagroups_exclude s) listed) listed).
    split; [by exists po, w0, w1|]. split; [exact Hk|].
    split; [apply List_filter_sublist|]. split.
    + intros k pat Hin Hne Hpat.
      destruct (pck_groups_cover_keys py_str s s' _ _ Hup Hk Hg) as [_ Hcov].
      apply (pck_groups_not_excluded py_str s s' _ (dirname k) pat Hup Hg);
        [by apply Hcov|done].
    + intros Hnil. apply List_filter_all. intros k _.
      unfold survives, excluded_groups. rewrite Hnil. simpl.
      by rewrite List_filter_none.
Qed.

End Enumeration.

(** ** The loaders on concrete backings *)

Section LoaderScenarios.

(** C4 on the store of three arrays: a key that is not there, and the
    first and later reads of ["a/x"]. *)
Lemma get_fetches_once_then_caches_witness :
  let s := loader [] mem_xyz in
  (exists msg, pck_get "a/w" s = (Raise (KeyError msg), s))
  /\ (exists s',
         pck_get "a/x" s = (Ret (PyObj 1%nat), s')
         /\ cache s' = <["a/x" := PyObj 1%nat]> (cache s)
         /\ world (pck_base s') = mkMem (entries mem_xyz) ["a/x"]
         /\ forall n, Nat.iter n (fun st => snd (pck_get "a/x" st)) s' = s'
                      /\ pck_get "a/x" s' = (Ret (PyObj 1%nat), s')).
Proof.
  intros s.
  destruct (get_fetches_once_then_caches s "a/w" ["a/x"; "a/y"; "a/z"] eq_refl)
    as (Habsent & _ & _).
  destruct (get_fetches_once_then_caches s "a/x" ["a/x"; "a/y"; "a/z"] eq_refl)
    as (_ & Hfirst & _).
  split.
  - apply Habsent. compute_done.
  - apply Hfirst; [compute_done|reflexivity|reflexivity].
Defined.

(** C5 at the failing input.  Group [b] is excluded, so ["b/y"] is not a
    key of the store and [get] refuses it, yet [get_many] hands the same
    key to the backing, returns what the backing holds and caches it. *)
Theorem get_many_skips_the_key_check :
  let s := loader [Lit "b"] mem_ab in
  pck_keys s = Some ["a/x"]
  /\ fst (pck_get "b/y" s) = Raise (KeyError "b/y is not in 'data.npz'")
  /\ fst (pck_get_many ["b/y"] s) = Ret [PyObj 2%nat]
  /\ cache (snd (pck_get_many ["b/y"] s)) !! "b/y" = Some (PyObj 2%nat)
  /\ fetched (world (pck_base (snd (pck_get_many ["b/y"] s)))) = ["b/y"].
Proof. vm_compute. repeat split; reflexivity. Qed.

(** C6 as stated fails: [update] is not [clear_cache], yet it empties the
    cache, and the next [get] of the key fetches it again. *)
Lemma update_resets_the_cache :
  let s := snd (pck_get "a/x" (loader [] mem_ab)) in
  let s' := run_op mem_str OpUpdate s in
  cache s !! "a/x" = Some (PyObj 1%nat)
  /\ resets_cache OpUpdate = true /\ OpUpdate <> OpClearCache
  /\ cache s' !! "a/x" = None
  /\ fetched (world (pck_base (snd (pck_get "a/x" s')))) = ["a/x"; "a/x"].
Proof. vm_compute. repeat split; (reflexivity || discriminate). Qed.

(** C6 on the store of two groups: ["a/x"] stays cached across reads of
    other keys, group reads, enumeration and closing. *)
Lemma cache_survives_other_operations_witness :
  let s := snd (pck_get "a/x" (loader [] mem_ab)) in
  let ops := [OpGet "b/y"; OpGetMany ["a/x"; "b/y"; "c/z"]; OpGetByGroup "a";
              OpKeys; OpGroups; OpFind ["x"]; OpRefind (Lit "a"); OpContains "a/x";
              OpAllInLoader ["a/x"; "c/z"]; OpClose] in
  cache (run_ops mem_str ops s) !! "a/x" = Some (PyObj 1%nat)
  /\ pck_get "a/x" (run_ops mem_str ops s)
     = (Ret (PyObj 1%nat), run_ops mem_str ops s).
Proof.
  intros s ops.
  destruct (cache_survives_other_operations mem_str ops s "a/x" 1%nat)
    as [Hc Hget].
  - unfold ops. repeat constructor.
  - reflexivity.
  - split; [exact Hc|]. apply (Hget ["a/x"; "b/y"]); [reflexivity|compute_done].
Defined.

(** C7 at the failing input.  The pattern ['snap$'] excludes group [snap]
    only, but every key starting with ["snap"] is dropped, those of group
    [snapshot] included: [groups()] lists [snapshot] and [keys()] has no
    key of it. *)
Theorem groups_lists_a_group_without_keys :
  let s := loader [pat_snap] mem_snap in
  pck_keys s = Some []
  /\ pck_groups s = Some ["snapshot"]
  /\ matches pat_snap "snapshot" = false
  /\ dirname "snapshot/y" = "snapshot".
Proof. vm_compute. repeat split; reflexivity. Qed.

(** C8 as stated fails for the pck loader: the same set of keys listed in
    two orders is enumerated in two orders, and a key that the exclusion
    filter matches is enumerated when it belongs to no excluded group. *)
Lemma pck_keys_follow_the_listing :
  pck_keys (loader [] mem_ab) = Some ["a/x"; "b/y"]
  /\ pck_keys (loader [] mem_ba) = Some ["b/y"; "a/x"]
  /\ map fst (entries mem_ab) ≡ₚ map fst (entries mem_ba)
  /\ matches (Lit "bigdata") "bigdata" = true
  /\ pck_keys (loader [Lit "bigdata"] mem_bare) = Some ["bigdata"; "a/x"].
Proof.
  split; [reflexivity|]. split; [reflexivity|].
  split; [apply perm_swap|]. split; reflexivity.
Qed.

(** C8 on concrete backings. *)
Lemma keys_enumeration_witness :
  (exists listed,
      raw_keys (raw_loader [pat_txt] disk_abc)
      = Some (sorted (exclude_by [pat_txt] listed))
      /\ "a.txt" ∉ sorted (exclude_by [pat_txt] listed))
  /\ (exists listed ks,
         pck_keys (loader [Lit "b"] mem_ab) = Some ks
         /\ sublist ks listed
         /\ forall k, k ∈ ks -> dirname k <> "" -> matches (Lit "b") (dirname k) = false).
Proof.
  destruct (keys_enumeration (W1 := disk) (W2 := mem) mem_str) as [Hraw Hpck].
  split.
  - assert (Hu : raw_update (mkRaw (mkBase "casedir" None disk_abc []) None [pat_txt])
                 = (Ret tt, raw_loader [pat_txt] disk_abc))
      by (vm_compute; reflexivity).
    destruct (Hraw _ _ Hu) as (listed & _ & Hk & _ & _ & Hex).
    exists listed. split; [exact Hk|].
    apply (Hex "a.txt" pat_txt); [by left|reflexivity].
  - assert (Hu : pck_update mem_str (pck_new "data.npz" [Lit "b"] mem_ab)
                 = (Ret tt, loader [Lit "b"] mem_ab))
      by (vm_compute; reflexivity).
    destruct (Hpck _ _ Hu) as (listed & ks & _ & Hk & Hsub & Hex & _).
    exists listed, ks. split; [exact Hk|]. split; [exact Hsub|].
    intros k Hin Hne. apply (Hex k (Lit "b") Hin Hne). by left.
Defined.

(** C9 on a directory: the file is open during the block and closed
    after it, whether the block returns or raises; a file that cannot be
    read raises and leaves nothing open. *)
Lemma raw_get_scoped_witness :
  let s := raw_loader [pat_txt] disk_abc in
  (exists s3, raw_with_get disk_close "b.out" body_ok s = (Ret 0%nat, s3)
              /\ opened (world (raw_base s3)) = [])
  /\ (exists s3, raw_with_get disk_close "b.out" body_raise s
                 = (Raise (ValueError "bad data"), s3)
                 /\ opened (world (raw_base s3)) = []
                 /\ (ERROR, "Failed to get 'b.out' from casedir!") ∈ logs (raw_base s3))
  /\ (exists s', raw_with_get disk_close "a.out" body_ok s
                 = (Raise (IOError "a.out"), s')
                 /\ opened (world (raw_base s')) = []
                 /\ last (logs (raw_base s'))
                    = Some (ERROR, "Failed to get 'a.out' from casedir!")).
Proof.
  intros s.
  destruct (raw_get_scoped disk_close s "b.out" ["a.out"; "b.out"] nat body_ok
              eq_refl ltac:(compute_done)) as [Hok _].
  destruct (raw_get_scoped disk_close s "b.out" ["a.out"; "b.out"] nat body_raise
              eq_refl ltac:(compute_done)) as [Hraise _].
  destruct (raw_get_scoped disk_close s "a.out" ["a.out"; "b.out"] nat body_ok
              eq_refl ltac:(compute_done)) as [_ Hfail].
  split; [|split].
  - destruct (Hok "b.out" (mkDisk (names disk_abc) ["b.out"]) eq_refl
                  (Ret 0%nat) _ eq_refl) as (s3 & Hrun & Hw & _).
    exists s3. split; [exact Hrun|]. rewrite Hw. reflexivity.
  - destruct (Hraise "b.out" (mkDisk (names disk_abc) ["b.out"]) eq_refl
                     (Raise (ValueError "bad data")) _ eq_refl)
      as (s3 & Hrun & Hw & _ & Hlog).
    exists s3. split; [exact Hrun|]. split; [rewrite Hw; reflexivity|].
    by apply (Hlog (ValueError "bad data")).
  - destruct (Hfail (IOError "a.out") disk_abc eq_refl) as (s' & Hrun & Hw & Hlog).
    exists s'. split; [exact Hrun|]. split; [rewrite Hw; reflexivity|].
    rewrite Hlog. reflexivity.
Defined.

(** C10 on the store of three arrays: ["a/x"] is fetched, the fetch of
    ["a/y"] fails, and ["a/x"] is cached after the failed call. *)
Lemma get_many_keeps_fetched_on_failure_witness :
  let s := loader [] mem_xyz in
  exists s2,
    pck_get_many ["a/x"; "a/y"; "a/z"] s = (Raise (IOError "read error"), s2)
    /\ cache s2 !! "a/x" = Some (PyObj 1%nat)
    /\ cache s2 !! "a/z" = None.
Proof.
  intros s.
  edestruct (get_many_keeps_fetched_on_failure s ["a/x"; "a/y"; "a/z"]
               [0%nat] 1%nat [2%nat] "a/y")
    as (s2 & Hrun & Hc & _);
    [vm_compute; reflexivity | vm_compute; reflexivity | reflexivity
    | vm_compute; reflexivity |].
  exists s2. split; [exact Hrun|]. rewrite Hc. split; vm_compute; reflexivity.
Defined.

End LoaderScenarios.

(** ** The further properties on concrete backings *)

Section ExtraScenarios.


(** X1 on the store of two groups, the keys asked for in reverse. *)
Lemma get_many_values_in_key_order_witness :
  let s := loader [] mem_ab in
  exists r s',
    pck_get_many ["b/y"; "a/x"] s = (Ret r, s')
    /\ length r = 2%nat
    /\ forall i k, ["b/y"; "a/x"] !! i = Some k ->
                   exists v, r !! i = Some v /\ cache s' !! k = Some v.
Proof.
  intros s.
  assert (H : pck_get_many ["b/y"; "a/x"] s
              = (Ret [PyObj 2%nat; PyObj 1%nat], snd (pck_get_many ["b/y"; "a/x"] s)))
    by (vm_compute; reflexivity).
  eexists _, _. split; [exact H|].
  apply (get_many_values_in_key_order s ["b/y"; "a/x"] _ _); [|exact H].
  compute_done.
Defined.

(** X2 on a store with ["a/x"] cached: the key asked for twice, and the
    call without keys. *)
Lemma get_many_all_cached_witness :
  let s := snd (pck_get "a/x" (loader [] mem_ab)) in
  pck_get_many ["a/x"; "a/x"] s = (Ret [PyObj 1%nat; PyObj 1%nat], s)
  /\ pck_get_many [] s = (Ret [], s).
Proof.
  intros s. split.
  - destruct (get_many_all_cached s ["a/x"; "a/x"]) as [H _]; [|exact H].
    intros k Hk. exists 1%nat.
    repeat (apply elem_of_cons in Hk as [->|Hk]; [vm_compute; reflexivity|]).
    by apply elem_of_nil in Hk.
  - destruct (get_many_all_cached s []) as [H _]; [|exact H].
    intros k Hk. by apply elem_of_nil in Hk.
Defined.

(** X3 on a store with ["a/x"] cached: of the three keys asked for, the
    two that are not cached are fetched. *)
Lemma get_many_fetches_only_uncached_witness :
  let s := snd (pck_get "a/x" (loader [] mem_ab)) in
  let s' := snd (pck_get_many ["b/y"; "a/x"; "b/y"] s) in
  logs (pck_base s') =
    (logs (pck_base s)
       ++ [msg_fetch "data.npz" "b/y"; msg_fetch "data.npz" "b/y"])%list.
Proof.
  intros s s'.
  assert (H : pck_get_many ["b/y"; "a/x"; "b/y"] s
              = (Ret [PyObj 2%nat; PyObj 1%nat; PyObj 2%nat], s'))
    by (vm_compute; reflexivity).
  destruct (get_many_fetches_only_uncached s _ _ _ H) as [Hl _].
  rewrite Hl. vm_compute. reflexivity.
Defined.

(** X4 on the store of three arrays, whose ["a/y"] cannot be read. *)
Lemma get_failure_not_cached_witness :
  let s := loader [] mem_xyz in
  exists s',
    pck_get "a/y" s = (Raise (IOError "read error"), s')
    /\ cache s' = cache s
    /\ fetched (world (pck_base s')) = ["a/y"]
    /\ last (logs (pck_base s')) = Some (msg_fetch_failed "data.npz" "a/y").
Proof.
  intros s.
  edestruct (get_failure_not_cached s "a/y" ["a/x"; "a/y"; "a/z"]
               (IOError "read error") (mkMem (entries mem_xyz) ["a/y"]))
    as (s' & Hrun & Hc & _ & Hw & Hl);
    [vm_compute; reflexivity | compute_done | vm_compute; reflexivity
    | vm_compute; reflexivity |].
  exists s'. split; [exact Hrun|]. split; [exact Hc|].
  rewrite Hw, Hl. split; [reflexivity|]. vm_compute. reflexivity.
Defined.

(** X5 on the same store: the failing key is ["a/y"]. *)
Lemma get_many_failure_names_key_witness :
  let s := loader [] mem_xyz in
  let s' := snd (pck_get_many ["a/x"; "a/y"] s) in
  exists k l,
    k ∈ ["a/x"; "a/y"]
    /\ logs (pck_base s') =
       (l ++ [msg_fetch "data.npz" k; msg_fetch_failed "data.npz" k])%list.
Proof.
  intros s s'.
  assert (H : pck_get_many ["a/x"; "a/y"] s = (Raise (IOError "read error"), s'))
    by (vm_compute; reflexivity).
  destruct (get_many_failure_names_key s _ _ _ H) as (k & l & Hk & Hl).
  exists k, l. split; [|exact Hl].
  assert (Ht : todo_keys (cache s) ["a/x"; "a/y"] = ["a/x"; "a/y"])
    by (vm_compute; reflexivity).
  by rewrite Ht in Hk.
Defined.

(** X6 on the store of two groups with group [b] excluded. *)
Lemma update_groups_sorted_distinct_witness :
  let s' := loader [Lit "b"] mem_ab in
  pck_groups s' = Some ["a"]
  /\ Sorted str_le ["a"] /\ NoDup ["a"] /\ ("" ∉ ["a"])
  /\ matches (Lit "b") "a" = false.
Proof.
  intros s'.
  assert (Hu : pck_update mem_str (pck_new "data.npz" [Lit "b"] mem_ab)
               = (Ret tt, s'))
    by (vm_compute; reflexivity).
  assert (Hg : pck_groups s' = Some ["a"]) by (vm_compute; reflexivity).
  destruct (update_groups_sorted_distinct mem_str _ _ _ Hu Hg)
    as (Hs & Hn & He & Hm & _).
  split; [exact Hg|]. split; [exact Hs|]. split; [exact Hn|]. split; [exact He|].
  apply Hm; by left.
Defined.

(** X7 on the same store: the only key left is in group [a]. *)
Lemma update_keys_outside_excluded_groups_witness :
  let s' := loader [Lit "b"] mem_ab in
  dirname "a/x" = ""
  \/ (dirname "a/x" ∈ ["a"]
      /\ forall pat, pat ∈ [Lit "b"] -> matches pat (dirname "a/x") = false).
Proof.
  intros s'.
  assert (Hu : pck_update mem_str (pck_new "data.npz" [Lit "b"] mem_ab)
               = (Ret tt, s'))
    by (vm_compute; reflexivity).
  apply (update_keys_outside_excluded_groups mem_str _ _ ["a/x"] ["a"] "a/x" Hu);
    [vm_compute; reflexivity | vm_compute; reflexivity | by left].
Defined.

(** X8 on a backing that cannot be opened. *)
Lemma update_open_failure_witness :
  let s := pck_new "data.npz" [] faulty_open in
  exists s',
    pck_update mem_str s = (Raise (IOError "cannot open"), s')
    /\ pck_keys s' = None /\ pck_groups s' = None
    /\ last (logs (pck_base s')) = Some (ERROR, "Failed to read path data.npz.")
    /\ exists msg, pck_get "a/x" s' = (Raise (TypeError msg), s').
Proof.
  intros s.
  edestruct (update_open_failure mem_str s (pck_base s) (IOError "cannot open")
               faulty_open)
    as (s' & Hrun & Hk & Hg & _ & Hl & Hget);
    [vm_compute; reflexivity | vm_compute; reflexivity |].
  exists s'. split; [exact Hrun|]. split; [exact Hk|]. split; [exact Hg|].
  split; [exact (Hl eq_refl)|]. apply Hget.
Defined.

(** X9 on the store of two groups, across reads, a failing read, closing
    and [clear_cache]. *)
Lemma enumeration_changes_only_through_update_witness :
  let s := loader [Lit "b"] mem_ab in
  let ops := [OpGet "a/x"; OpGet "c/z"; OpGetMany ["b/y"]; OpGetByGroup "a";
              OpAllInLoader ["c/z"]; OpClose; OpClearCache] in
  pck_keys (run_ops mem_str ops s) = Some ["a/x"]
  /\ pck_groups (run_ops mem_str ops s) = Some ["a"].
Proof.
  intros s ops.
  destruct (enumeration_changes_only_through_update mem_str ops s)
    as (Hk & Hg & _).
  - unfold ops. repeat (constructor; [discriminate|]). constructor.
  - rewrite Hk, Hg. split; vm_compute; reflexivity.
Defined.

(** X11 on the store of three arrays. *)
Lemma find_selects_keys_containing_all_items_witness :
  let s := loader [] mem_xyz in
  exists r,
    pck_find ["a"; "y"] s = (Ret r, s)
    /\ sublist r ["a/x"; "a/y"; "a/z"]
    /\ "a/y" ∈ r.
Proof.
  intros s.
  destruct (find_selects_keys_containing_all_items s ["a/x"; "a/y"; "a/z"]
              ["a"; "y"])
    as (r & Hrun & Hsub & Hiff & _); [vm_compute; reflexivity|].
  exists r. split; [exact Hrun|]. split; [exact Hsub|].
  apply Hiff. split; [compute_done|].
  intros i Hi.
  apply elem_of_cons in Hi as [->|Hi]; [by exists "", "/y"|].
  apply elem_of_cons in Hi as [->|Hi]; [by exists "a/", ""|].
  by apply elem_of_nil in Hi.
Defined.

(** X12 on the store of two groups: one item is missing. *)
Lemma all_in_loader_warns_per_missing_item_witness :
  let s := loader [] mem_ab in
  pck_all_in_loader ["a/x"; "c/z"; "b/y"] s
  = (Ret false, with_logs [msg_missing "data.npz" "c/z"] s).
Proof.
  intros s.
  rewrite (all_in_loader_warns_per_missing_item s ["a/x"; "b/y"]);
    [reflexivity | vm_compute; reflexivity].
Defined.

(** X13 on the store of two groups. *)
Lemma get_by_group_maps_basenames_witness :
  let s := loader [] mem_ab in
  exists d s',
    pck_get_by_group "a" s = (Ret d, s')
    /\ (exists v, d !! "x" = Some v /\ cache s' !! "a/x" = Some v)
    /\ d !! "y" = None.
Proof.
  intros s.
  assert (H : pck_get_by_group "a" s
              = (Ret {["x" := PyObj 1%nat]}, snd (pck_get_by_group "a" s)))
    by (vm_compute; reflexivity).
  destruct (fun H1 H2 H3 =>
              get_by_group_maps_basenames s ["a/x"; "b/y"] "a" _ _ H1 H2 H3 H)
    as [Hin Hout]; [vm_compute; reflexivity | compute_done | compute_done |].
  eexists _, _. split; [exact H|]. split.
  - apply (Hin "a/x"); [compute_done | reflexivity].
  - reflexivity.
Defined.

(** X14 on a store with one key cached, restored into an object that held
    another store. *)
Lemma pickle_round_trip_witness :
  let s := snd (pck_get "a/x" (loader [Lit "b"] mem_ab)) in
  let s0 := pck_new "other.npz" [] mem_xyz in
  exists s1,
    pck_setstate (pck_getstate s) s0 = (Ret tt, s1)
    /\ enumeration s1 = enumeration s
    /\ cache s1 = cache s
    /\ desc s1 = desc s /\ description s1 = description s
    /\ pathobj (pck_base s1) = Some tt
    /\ world (pck_base s1) = mem_xyz.
Proof. intros s s0. exact (pickle_round_trip s s0). Defined.

(** X15 on the in-memory backing: a path without access, a path that
    fails the check, and a construction that succeeds. *)
Lemma init_establishes_the_enumeration_witness :
  fst (pck_init mem_str "missing.npz" None mem_ab)
  = Raise (IOError "Failed to access path 'missing.npz'.")
  /\ fst (pck_init mem_str "notes.txt" None mem_ab)
     = Raise (ValueError "Path 'notes.txt' checking failed.")
  /\ (let s := loader [] mem_ab in
      pck_init mem_str "data.npz" None mem_ab = (Ret tt, s)
      /\ is_Some (pck_keys s) /\ cache s = ∅
      /\ is_Some (pck_keys (run_ops mem_str [OpClose; OpGet "c/z"] s))).
Proof.
  split; [|split].
  - destruct (init_establishes_the_enumeration mem_str "missing.npz" None mem_ab)
      as (H & _). by rewrite (H eq_refl).
  - destruct (init_establishes_the_enumeration mem_str "notes.txt" None mem_ab)
      as (_ & H & _). exact (H mem_ab eq_refl eq_refl).
  - intros s.
    assert (Hi : pck_init mem_str "data.npz" None mem_ab = (Ret tt, s))
      by (vm_compute; reflexivity).
    destruct (init_establishes_the_enumeration mem_str "data.npz" None mem_ab)
      as (_ & _ & H).
    destruct (H s Hi) as (Hk & _ & _ & Hc & _ & _ & Hops).
    split; [exact Hi|]. split; [exact Hk|]. split; [exact Hc|].
    apply Hops. repeat (constructor; [discriminate|]). constructor.
Defined.

(** X16 on a bare key next to a grouped one. *)
Lemma getgroups_root_iff_no_separator_witness :
  "" ∈ special_getgroups ["bigdata"; "a/x"]
  /\ dirname "a/x" ∈ special_getgroups ["bigdata"; "a/x"]
  /\ dirname "a/x" <> "".
Proof.
  destruct (getgroups_root_iff_no_separator ["bigdata"; "a/x"]) as [Hroot Hk].
  split.
  - apply Hroot. exists "bigdata". split; [compute_done | reflexivity].
  - destruct (Hk "a/x" ltac:(compute_done)) as (Hin & _ & _ & Hne).
    split; [exact Hin | exact (Hne eq_refl)].
Defined.

(** X17 on a directory of three files with the text files excluded. *)
Lemma raw_update_keeps_the_unmatched_names_witness :
  let s' := raw_loader [pat_txt] disk_abc in
  exists (listed ks : list string),
    raw_keys s' = Some ks
    /\ (forall k, k ∈ ks <->
                  k ∈ listed
                  /\ forall pat, pat ∈ [pat_txt] -> matches pat k = false)
    /\ is_Some (pathobj (raw_base s')).
Proof.
  intros s'.
  assert (Hu : raw_update (mkRaw (mkBase "casedir" None disk_abc []) None [pat_txt])
               = (Ret tt, s'))
    by (vm_compute; reflexivity).
  destruct (raw_update_keeps_the_unmatched_names _ _ Hu)
    as (listed & ks & _ & Hk & _ & Hiff & _ & Hpo).
  exists listed, ks. split; [exact Hk|]. split; [exact Hiff | exact Hpo].
Defined.

(** X18 on the same directory: ["a.txt"] is listed but refused. *)
Lemma raw_get_refuses_excluded_names_witness :
  let s' := raw_loader [pat_txt] disk_abc in
  "a.txt" ∈ map fst (names disk_abc)
  /\ raw_with_get disk_close "a.txt" body_ok s'
     = (Raise (KeyError "a.txt is not in 'casedir'"), s').
Proof.
  intros s'. split; [compute_done|].
  assert (Hu : raw_update (mkRaw (mkBase "casedir" None disk_abc []) None [pat_txt])
               = (Ret tt, s'))
    by (vm_compute; reflexivity).
  apply (raw_get_refuses_excluded_names disk_close _ _ pat_txt "a.txt" nat body_ok Hu);
    [by left | reflexivity].
Defined.

(** X19 on the directory ["casedir"]. *)
Lemma beside_path_round_trip_witness :
  let s := raw_loader [] disk_abc in
  raw_beside_path "gdpy3.log" s = "casedir/gdpy3.log"
  /\ dirname (raw_beside_path "gdpy3.log" s) = "casedir"
  /\ basename (raw_beside_path "gdpy3.log" s) = "gdpy3.log"
  /\ raw_beside_path "/tmp/out" s = "/tmp/out".
Proof.
  intros s.
  destruct (beside_path_round_trip s "gdpy3.log") as [H _].
  destruct (beside_path_round_trip s "/tmp/out") as [_ H'].
  destruct H as (H1 & H2 & H3); [reflexivity | discriminate | reflexivity |].
  split; [exact H1|]. split; [exact H2|]. split; [exact H3 | exact (H' eq_refl)].
Defined.

(** X20 on backings that open but cannot be listed.  With one key the
    path object is true: the raw loader has not stored it and never closes
    it, the pck loader has stored it and closes it.  Without keys it is
    false: the pck loader has stored it and does not close it. *)
Lemma listing_failure_and_the_path_object_witness :
  let sr := mkRaw (mkBase "casedir" None faulty_list []) None [] in
  let sp := pck_new "data.npz" [] faulty_list in
  let se := pck_new "data.npz" [] faulty_empty in
  (exists s', raw_update sr = (Raise (ValueError "cannot list"), s')
              /\ pathobj (raw_base s') = None
              /\ closes (world (snd (close (raw_base s')))) = 0%nat)
  /\ (exists s', pck_update mem_str sp = (Raise (ValueError "cannot list"), s')
                 /\ pathobj (pck_base s') = Some 1%nat
                 /\ closes (world (snd (close (pck_base s')))) = 1%nat)
  /\ (exists s', pck_update mem_str se = (Raise (ValueError "cannot list"), s')
                 /\ pathobj (pck_base s') = Some 0%nat
                 /\ closes (world (snd (close (pck_base s')))) = 0%nat).
Proof.
  intros sr sp se.
  destruct (listing_failure_and_the_path_object (W1 := faulty) (W2 := faulty) mem_str)
    as [Hraw Hpck].
  split; [|split].
  - edestruct (Hraw sr (raw_base sr) 1%nat faulty_list faulty_list
                    (ValueError "cannot list"))
      as (s' & Hrun & _ & Hpo & _ & Hw & Hcl);
      [vm_compute; reflexivity | vm_compute; reflexivity
      | vm_compute; reflexivity |].
    exists s'. split; [exact Hrun|]. split; [exact Hpo|].
    rewrite (Hcl eq_refl). simpl. rewrite Hw. reflexivity.
  - edestruct (Hpck sp (pck_base sp) 1%nat faulty_list faulty_list
                    (ValueError "cannot list"))
      as (s' & Hrun & _ & Hpo & _ & Hcl);
      [vm_compute; reflexivity | vm_compute; reflexivity
      | vm_compute; reflexivity |].
    exists s'. split; [exact Hrun|]. split; [exact Hpo|].
    rewrite Hcl. reflexivity.
  - edestruct (Hpck se (pck_base se) 0%nat faulty_empty faulty_empty
                    (ValueError "cannot list"))
      as (s' & Hrun & _ & Hpo & _ & Hcl);
      [vm_compute; reflexivity | vm_compute; reflexivity
      | vm_compute; reflexivity |].
    exists s'. split; [exact Hrun|]. split; [exact Hpo|].
    rewrite Hcl. reflexivity.
Defined.

End ExtraScenarios.
